(** * Pharmpy: workflow graphs, the covariate forward search and the NONMEM
      results reader

    A shallow embedding of
    - the [Workflow] task graph used by the tools ([pharmpy.workflows], driven
      by [tests/tools/test_workflows.py] and the callers in [pharmpy/tools]),
    - [pharmpy/tools/covsearch/tool.py] (greedy forward covariate search and
      its step summary), and
    - [pharmpy/plugins/nonmem/results.py]: the broken-ext-file path, the
      reading of the tables of an ext-file ([parse_ext], [_read_ext_table])
      and [_calculate_cov_cor_coi], and
    - the enumeration of candidates in
      [pharmpy/tools/iivsearch/algorithms.py],
    - the clean levels of [pysn/execute/run_directory.py], and
    - [rvs_same] and the renaming loop of [change_rvs_same] in
      [pharmpy/plugins/nlmixr/sanity_checks.py].

    Python lists are Rocq lists, dicts keyed by strings are [gmap string],
    Python floats are binary64 primitive floats, object identity is an
    explicit identifier carried by the object. *)

From stdpp Require Import gmap strings list pretty relations sorting.
From Stdlib Require Import ZArith Lia Floats Ascii.

Set Default Proof Using "Type".
Set Warnings "-inexact-float".

(* ===================================================================== *)
(** * Task graphs *)
(* ===================================================================== *)

Module Workflows.

(** Modelled from the spec: [Task] (the module [pharmpy.workflows] is not
    among the sources). A task is "comparable by identity"; its name is "not
    guaranteed globally unique". Operation and inputs play no part in the
    shape of the graph and are left out. *)
Record Task := mkTask { task_id : nat; task_name : string }.

#[global] Instance Task_eq_dec : EqDecision Task.
Proof. solve_decision. Defined.

(** Modelled from the spec: [Workflow] (absent class), "a DAG whose nodes
    are Task references and whose edges encode predecessor produces input
    consumed by successor". Nodes and edges are kept in insertion order,
    each once, as the tests read them ([list(wf.tasks.nodes)]). *)
Record Workflow := mkWorkflow {
  nodes : list Task;
  edges : list (Task * Task)
}.

Definition empty_workflow : Workflow := mkWorkflow [] [].

(** Insertion into an ordered collection without repetitions. *)
Definition insert_new {A} `{EqDecision A} (l : list A) (x : A) : list A :=
  if decide (x ∈ l) then l else l ++ [x].

Definition insert_all {A} `{EqDecision A} (l k : list A) : list A :=
  foldl insert_new l k.

(** Modelled from the spec: [Workflow.add_tasks] (the class [Workflow] is not
    among the sources). "Inserts one or more previously-unattached Task
    nodes"; a task that is already a node stays where it is. *)
Definition add_tasks (g : Workflow) (ts : list Task) : Workflow :=
  mkWorkflow (insert_all (nodes g) ts) (edges g).

(** Modelled from the spec: [Workflow(tasks)] (absent class), "created empty
    or seeded with an initial task list". *)
Definition new_workflow (ts : list Task) : Workflow :=
  add_tasks empty_workflow ts.

(** Modelled from the spec: successors, predecessors and degrees of a node
    (absent class), in edge insertion order as [test_connect_tasks] reads
    them. *)
Definition successors (g : Workflow) (t : Task) : list Task :=
  (filter (λ e, e.1 = t) (edges g)).*2.

Definition predecessors (g : Workflow) (t : Task) : list Task :=
  (filter (λ e, e.2 = t) (edges g)).*1.

Definition out_degree (g : Workflow) (t : Task) : nat := length (successors g t).
Definition in_degree (g : Workflow) (t : Task) : nat := length (predecessors g t).

(** Modelled from the spec: [Workflow.get_leaf_tasks] (absent class).
    "Returns nodes with out-degree zero, in insertion order". *)
Definition get_leaf_tasks (g : Workflow) : list Task :=
  filter (λ t, out_degree g t = 0) (nodes g).

(** Modelled from the spec: the source tasks of a workflow (absent class),
    "every source node of other (in-degree zero in other)". *)
Definition get_source_tasks (g : Workflow) : list Task :=
  filter (λ t, in_degree g t = 0) (nodes g).

(** ** Acyclicity *)

Definition edge_rel (E : list (Task * Task)) (u v : Task) : Prop := (u, v) ∈ E.

Definition acyclic (g : Workflow) : Prop := ∀ x, ¬ tc (edge_rel (edges g)) x x.

Definition has_incoming (E : list (Task * Task)) (u : Task) : Prop :=
  Exists (λ e, e.2 = u) E.

#[global] Instance has_incoming_dec E u : Decision (has_incoming E u).
Proof. unfold has_incoming. apply _. Defined.

(** One round of the executable check drops every edge whose origin has no
    incoming edge; such an edge lies on no cycle. *)
Definition peel (E : list (Task * Task)) : list (Task * Task) :=
  filter (λ e, has_incoming E e.1) E.

Definition is_dag (E : list (Task * Task)) : bool :=
  bool_decide (Nat.iter (length E) peel E = []).

(** ** Connecting tasks *)

Inductive WorkflowError :=
  | ValueError   (* a task connected to itself *)
  | CycleError.  (* the new edges would close a cycle *)

(** A mapping [{p: [s1, s2], q: s3}] is an association list in dict order; a
    single successor is a one-element list. *)
Definition mapping_edges (mapping : list (Task * list Task)) : list (Task * Task) :=
  mapping ≫= λ '(p, ss), (λ s, (p, s)) <$> ss.

Definition is_self_loop (e : Task * Task) : Prop := e.1 = e.2.

(** Modelled from the spec: [Workflow.connect_tasks] (absent class). "For
    each predecessor → successor(s) pair, adds a directed edge; raises an
    error if predecessor equals successor (self-loop) or if the resulting
    graph contains a cycle"; "adding an edge that would create a cycle is
    rejected with an error". The result is the workflow after the call and
    the exception raised, if any. *)
Definition connect_tasks (g : Workflow) (mapping : list (Task * list Task))
  : Workflow * option WorkflowError :=
  let es := mapping_edges mapping in
  if decide (Exists is_self_loop es) then (g, Some ValueError)
  else
    let E' := insert_all (edges g) es in
    if is_dag E' then (mkWorkflow (nodes g) E', None)
    else (g, Some CycleError).

(** ** Merging workflows *)

Definition cross_edges (ps ss : list Task) : list (Task * Task) :=
  ps ≫= λ p, (λ s, (p, s)) <$> ss.

(** Modelled from the spec: [Workflow.insert_workflow] (absent class).
    "Merges other's nodes/edges into self; if predecessors given (defaults to
    self's current leaf tasks when connecting sequentially), wires every
    source node of other (in-degree zero in other) to follow every given
    predecessor"; with parallel composition ([connect = false]) "nodes are
    merged disjointly (no new edges)". *)
Definition insert_workflow (self other : Workflow)
    (preds : option (list Task)) (connect : bool) : Workflow :=
  let ns := insert_all (nodes self) (nodes other) in
  let es := insert_all (edges self) (edges other) in
  if connect then
    let ps := default (get_leaf_tasks self) preds in
    mkWorkflow ns (insert_all es (cross_edges ps (get_source_tasks other)))
  else mkWorkflow ns es.

(** Well-formed workflows: no repeated node or edge, and "every Task
    referenced by an edge must already be a node". *)
Record wf_ok (g : Workflow) : Prop := {
  wf_nodes_nodup : NoDup (nodes g);
  wf_edges_nodup : NoDup (edges g);
  wf_edges_closed : ∀ u v, (u, v) ∈ edges g → u ∈ nodes g ∧ v ∈ nodes g
}.

(** Modelled from the spec: [Workflow.add_task(task, predecessors)] (absent
    class), "add one/many tasks; connect tasks": the task becomes a node and
    every given predecessor is connected to it. *)
Definition add_task (g : Workflow) (t : Task) (preds : list Task) : Workflow :=
  (connect_tasks (add_tasks g [t]) ((λ p, (p, [t])) <$> preds)).1.

(** [wf_effects_addition] of covsearch/tool.py, as a graph: one construction
    task per candidate effect, the fit workflow inserted without a
    [predecessors] argument, and a gather task after the output tasks. The
    tasks are new objects, so they are given; [wf_fit] stands for
    [create_fit_workflow(n=len(candidate_effects))]. The insertion is the
    sequential one: "fitting sub-tasks for all branches are appended via
    sequential insert_workflow composition". *)
Definition wf_effects_addition (effect_tasks : list Task) (wf_fit : Workflow)
    (task_gather : Task) : Workflow :=
  let wf := foldl (λ wf task, add_task wf task []) empty_workflow effect_tasks in
  let wf := insert_workflow wf wf_fit None true in
  add_task wf task_gather (get_leaf_tasks wf).


(** A session of graph edits; a call that raises leaves the workflow as the
    call left it and the session goes on. *)
Inductive edit :=
  | AddTasks (ts : list Task)
  | ConnectTasks (mapping : list (Task * list Task)).

Definition run_edit (g : Workflow) (o : edit) : Workflow :=
  match o with
  | AddTasks ts => add_tasks g ts
  | ConnectTasks mapping => (connect_tasks g mapping).1
  end.

Definition run_edits (g : Workflow) (os : list edit) : Workflow := foldl run_edit g os.

(** Executable well-formedness and disjointness, for concrete graphs. *)
Definition wf_ok_check (g : Workflow) : bool :=
  bool_decide (NoDup (nodes g)) && bool_decide (NoDup (edges g))
  && bool_decide (Forall (λ e, e.1 ∈ nodes g ∧ e.2 ∈ nodes g) (edges g)).

Definition disjoint_check (l k : list Task) : bool :=
  bool_decide (Forall (λ x, x ∉ k) l).


(** The tasks of [tests/tools/test_workflows.py]. *)
Definition t1 := mkTask 1 "t1".
Definition t2 := mkTask 2 "t2".
Definition t3 := mkTask 3 "t3".
Definition t4 := mkTask 4 "t4".

Example test_connect_tasks :
  let wf := add_tasks empty_workflow [t1; t2; t3; t4] in
  let r := connect_tasks wf [(t1, [t2; t3]); (t2, [t4]); (t3, [t4])] in
  r.2 = None ∧ successors r.1 t1 = [t2; t3] ∧ predecessors r.1 t4 = [t2; t3]
  ∧ (connect_tasks r.1 [(t1, [t1])]).2 = Some ValueError.
Proof. vm_compute. done. Qed.

Example test_get_leaf_tasks :
  let wf := add_tasks empty_workflow [t1; t2; t3] in
  let wf1 := (connect_tasks wf [(t1, [t2; t3])]).1 in
  let wf2 := (connect_tasks (add_tasks wf1 [t4]) [(t2, [t4]); (t3, [t4])]).1 in
  get_leaf_tasks wf1 = [t2; t3] ∧ get_leaf_tasks wf2 = [t4].
Proof. vm_compute. done. Qed.

Example test_merge_workflows :
  let wf_seq := (connect_tasks (new_workflow [t1; t2; t3]) [(t1, [t2; t3])]).1 in
  let wf_t4 := new_workflow [t4] in
  let s := insert_workflow wf_seq wf_t4 None true in
  let p := insert_workflow wf_seq wf_t4 None false in
  predecessors s t4 = [t2; t3] ∧ length (edges s) = 4 ∧ nodes s = [t1; t2; t3; t4]
  ∧ predecessors p t4 = [] ∧ length (edges p) = 2 ∧ nodes p = [t1; t2; t3; t4].
Proof. vm_compute. done. Qed.


(** ** Ordered insertion without repetitions *)

Section insert_lemmas.
Context {A : Type} `{EqDecision A}.
Implicit Types l k : list A.

Lemma elem_of_insert_new l x y : y ∈ insert_new l x ↔ y ∈ l ∨ y = x.
Proof.
  unfold insert_new. case_decide as Hx.
  - split; [by left | intros [?| ->]; done].
  - rewrite elem_of_app, list_elem_of_singleton. done.
Qed.

Lemma elem_of_insert_all l k x : x ∈ insert_all l k ↔ x ∈ l ∨ x ∈ k.
Proof.
  unfold insert_all. revert l. induction k as [|y k IH]; intros l; simpl.
  - split; [by left | intros [?|H]; [done | inv H]].
  - rewrite IH, elem_of_insert_new, elem_of_cons. tauto.
Qed.

Lemma NoDup_insert_new l x : NoDup l → NoDup (insert_new l x).
Proof.
  intros Hl. unfold insert_new. case_decide as Hx; [done|].
  apply NoDup_app. split_and!; [done | | apply NoDup_singleton].
  intros y Hy ->%list_elem_of_singleton. done.
Qed.

Lemma NoDup_insert_all l k : NoDup l → NoDup (insert_all l k).
Proof.
  unfold insert_all. revert l. induction k as [|y k IH]; intros l Hl; simpl; [done|].
  apply IH, NoDup_insert_new, Hl.
Qed.

(** Inserting fresh, pairwise distinct elements appends them. *)
Lemma insert_all_fresh l k :
  NoDup k → (∀ x, x ∈ k → x ∉ l) → insert_all l k = l ++ k.
Proof.
  unfold insert_all. revert l.
  induction k as [|y k IH]; intros l Hk Hfresh; simpl.
  - by rewrite app_nil_r.
  - apply NoDup_cons in Hk as [Hy Hk].
    unfold insert_new at 2. rewrite decide_False by (apply Hfresh; left).
    rewrite IH; [by rewrite <- app_assoc | done |].
    intros x Hx [Hl | ->%list_elem_of_singleton]%elem_of_app; [|done].
    eapply Hfresh; [right|]; done.
Qed.

Lemma insert_all_nil k : NoDup k → insert_all [] k = k.
Proof. intros Hk. rewrite insert_all_fresh; [done..|]. intros x _ Hx. inv Hx. Qed.
End insert_lemmas.

(** ** Leaves, sources and cross edges *)

Lemma elem_of_successors g t v : v ∈ successors g t ↔ (t, v) ∈ edges g.
Proof.
  unfold successors. rewrite list_elem_of_fmap. split.
  - intros [[a b] [-> [Ha Hin]%list_elem_of_filter]]. simpl in *. by subst.
  - intros Hin. exists (t, v). split; [done|]. by apply list_elem_of_filter.
Qed.

Lemma elem_of_predecessors g t u : u ∈ predecessors g t ↔ (u, t) ∈ edges g.
Proof.
  unfold predecessors. rewrite list_elem_of_fmap. split.
  - intros [[a b] [-> [Ha Hin]%list_elem_of_filter]]. simpl in *. by subst.
  - intros Hin. exists (u, t). split; [done|]. by apply list_elem_of_filter.
Qed.

Lemma out_degree_0 g t : out_degree g t = 0 ↔ ∀ v, (t, v) ∉ edges g.
Proof.
  unfold out_degree. rewrite length_zero_iff_nil. split.
  - intros Hnil v Hv%elem_of_successors. rewrite Hnil in Hv. inv Hv.
  - intros Hno. destruct (successors g t) as [|v l] eqn:E; [done|].
    exfalso. apply (Hno v), elem_of_successors. rewrite E. left.
Qed.

Lemma in_degree_0 g t : in_degree g t = 0 ↔ ∀ u, (u, t) ∉ edges g.
Proof.
  unfold in_degree. rewrite length_zero_iff_nil. split.
  - intros Hnil v Hv%elem_of_predecessors. rewrite Hnil in Hv. inv Hv.
  - intros Hno. destruct (predecessors g t) as [|v l] eqn:E; [done|].
    exfalso. apply (Hno v), elem_of_predecessors. rewrite E. left.
Qed.

Lemma elem_of_get_leaf_tasks g t :
  t ∈ get_leaf_tasks g ↔ t ∈ nodes g ∧ ∀ v, (t, v) ∉ edges g.
Proof.
  unfold get_leaf_tasks. rewrite list_elem_of_filter, out_degree_0. tauto.
Qed.

Lemma elem_of_get_source_tasks g t :
  t ∈ get_source_tasks g ↔ t ∈ nodes g ∧ ∀ u, (u, t) ∉ edges g.
Proof.
  unfold get_source_tasks. rewrite list_elem_of_filter, in_degree_0. tauto.
Qed.

Lemma elem_of_cross_edges ps ss p s :
  (p, s) ∈ cross_edges ps ss ↔ p ∈ ps ∧ s ∈ ss.
Proof.
  unfold cross_edges. rewrite list_elem_of_bind. split.
  - intros [q [[s' [[= -> ->] Hs]]%list_elem_of_fmap Hq]]. done.
  - intros [Hp Hs]. exists p. split; [|done].
    apply list_elem_of_fmap. by exists s.
Qed.

Lemma length_cross_edges ps ss :
  length (cross_edges ps ss) = length ps * length ss.
Proof.
  unfold cross_edges. induction ps as [|p ps IH]; csimpl; [done|].
  rewrite length_app, length_fmap, IH. done.
Qed.

Lemma NoDup_cross_edges ps ss : NoDup ps → NoDup ss → NoDup (cross_edges ps ss).
Proof.
  intros Hps Hss. unfold cross_edges. apply NoDup_bind; [| |done].
  - intros p1 p2 [a b] _ _ [s1 [[= -> ->] _]]%list_elem_of_fmap
      [s2 [[= -> _] _]]%list_elem_of_fmap. done.
  - intros p _. apply NoDup_fmap_2; [|done]. intros s1 s2 [= ->]. done.
Qed.

Lemma filter_target_fmap p s ss :
  NoDup ss → s ∈ ss →
  filter (λ e : Task * Task, e.2 = s) ((λ s', (p, s')) <$> ss) = [(p, s)].
Proof.
  induction ss as [|a ss IH]; intros Hnd Hin; [inv Hin|].
  apply NoDup_cons in Hnd as [Ha Hnd]. csimpl. rewrite filter_cons. simpl.
  case_decide as Has.
  - subst a. f_equal. clear IH Hin.
    induction ss as [|b ss IH]; [done|]. csimpl.
    rewrite filter_cons_False.
    + apply IH; [|by apply NoDup_cons in Hnd as [_ ?]]. intros ?. apply Ha. by right.
    + simpl. intros ->. apply Ha. left.
  - apply IH; [done|]. apply elem_of_cons in Hin as [->|?]; done.
Qed.

Lemma predecessors_cross_edges ps ss s :
  NoDup ss → s ∈ ss →
  (filter (λ e : Task * Task, e.2 = s) (cross_edges ps ss)).*1 = ps.
Proof.
  intros Hnd Hin. unfold cross_edges.
  induction ps as [|p ps IH]; csimpl; [done|].
  rewrite filter_app, fmap_app, IH, filter_target_fmap by done. done.
Qed.

Lemma filter_no_match {A} (P : A → Prop) `{∀ x, Decision (P x)} (l : list A) :
  (∀ x, x ∈ l → ¬ P x) → filter P l = [].
Proof.
  induction l as [|a l IH]; intros Hl; [done|].
  rewrite filter_cons_False by (apply Hl; left). apply IH.
  intros x Hx. apply Hl. by right.
Qed.

(** ** Merging two workflows on disjoint tasks *)

Section merge.
Variables self other : Workflow.
Hypothesis Hself : wf_ok self.
Hypothesis Hother : wf_ok other.
Hypothesis Hdisj : nodes self ## nodes other.

Lemma merged_edges_app :
  insert_all (edges self) (edges other) = edges self ++ edges other.
Proof using Hself Hother Hdisj.
  apply insert_all_fresh; [apply Hother|].
  intros [u v] H2 H1.
  apply (wf_edges_closed _ Hother) in H2 as [Hu _].
  apply (wf_edges_closed _ Hself) in H1 as [Hu' _].
  exact (Hdisj u Hu' Hu).
Qed.

Lemma cross_edges_fresh ps :
  ps ⊆ nodes self →
  ∀ e, e ∈ cross_edges ps (get_source_tasks other) →
       e ∉ edges self ++ edges other.
Proof using Hself Hother Hdisj.
  intros Hps [p s] [Hp [Hs _]%elem_of_get_source_tasks]%elem_of_cross_edges.
  intros [H1|H2]%elem_of_app.
  - apply (wf_edges_closed _ Hself) in H1 as [_ Hs']. exact (Hdisj s Hs' Hs).
  - apply (wf_edges_closed _ Hother) in H2 as [Hp' _]. exact (Hdisj p (Hps _ Hp) Hp').
Qed.

Lemma leaves_nodup : NoDup (get_leaf_tasks self).
Proof using Hself. apply NoDup_filter, Hself. Qed.

Lemma sources_nodup : NoDup (get_source_tasks other).
Proof using Hother. apply NoDup_filter, Hother. Qed.

Lemma leaves_subseteq : get_leaf_tasks self ⊆ nodes self.
Proof. intros t [Ht _]%elem_of_get_leaf_tasks. done. Qed.

Lemma sequential_edges :
  edges (insert_workflow self other None true)
  = edges self ++ edges other
    ++ cross_edges (get_leaf_tasks self) (get_source_tasks other).
Proof using Hself Hother Hdisj.
  unfold insert_workflow. simpl. rewrite merged_edges_app.
  rewrite insert_all_fresh; [by rewrite <- app_assoc | |].
  - apply NoDup_cross_edges; [apply leaves_nodup | apply sources_nodup].
  - apply cross_edges_fresh, leaves_subseteq.
Qed.

Lemma parallel_edges :
  edges (insert_workflow self other None false) = edges self ++ edges other.
Proof using Hself Hother Hdisj. unfold insert_workflow. simpl. apply merged_edges_app. Qed.

Lemma sequential_predecessors s :
  s ∈ get_source_tasks other →
  predecessors (insert_workflow self other None true) s = get_leaf_tasks self.
Proof using Hself Hother Hdisj.
  intros Hs. unfold predecessors. rewrite sequential_edges.
  rewrite !filter_app, !fmap_app.
  pose proof Hs as [Hn Hin]%elem_of_get_source_tasks.
  rewrite (filter_no_match _ (edges self)), (filter_no_match _ (edges other)).
  - simpl. apply predecessors_cross_edges; [apply sources_nodup | done].
  - intros [u v] Huv. simpl. intros ->. exact (Hin u Huv).
  - intros [u v] Huv. simpl. intros ->.
    apply (wf_edges_closed _ Hself) in Huv as [_ Hv]. exact (Hdisj s Hv Hn).
Qed.

Lemma parallel_no_cross u v :
  u ∈ nodes self → v ∈ nodes other →
  ((u, v) ∉ edges (insert_workflow self other None false))
  ∧ ((v, u) ∉ edges (insert_workflow self other None false)).
Proof using Hself Hother Hdisj.
  intros Hu Hv. rewrite parallel_edges.
  split; intros [H|H]%elem_of_app.
  - apply (wf_edges_closed _ Hself) in H as [_ Hv']. exact (Hdisj v Hv' Hv).
  - apply (wf_edges_closed _ Hother) in H as [Hu' _]. exact (Hdisj u Hu Hu').
  - apply (wf_edges_closed _ Hself) in H as [Hv' _]. exact (Hdisj v Hv' Hv).
  - apply (wf_edges_closed _ Hother) in H as [_ Hu']. exact (Hdisj u Hu Hu').
Qed.
End merge.


(** ** Soundness of the cycle check *)

Lemma has_incoming_iff E u : has_incoming E u ↔ ∃ w, (w, u) ∈ E.
Proof.
  unfold has_incoming. rewrite Exists_exists. split.
  - intros [[a b] [Hin Hb]]. simpl in Hb. subst b. by exists a.
  - intros [w Hw]. by exists (w, u).
Qed.

Lemma tc_edge_incoming E x y : tc (edge_rel E) x y → has_incoming E y.
Proof.
  induction 1 as [x y Hxy|]; [|done]. apply has_incoming_iff. by exists x.
Qed.

Lemma elem_of_peel E u v : (u, v) ∈ peel E ↔ (u, v) ∈ E ∧ has_incoming E u.
Proof. unfold peel. rewrite list_elem_of_filter. simpl. tauto. Qed.

(** A path that starts at a task with an incoming edge survives a round. *)
Lemma rtc_peel E v u :
  has_incoming E v → rtc (edge_rel E) v u → rtc (edge_rel (peel E)) v u.
Proof.
  intros Hin Hr. induction Hr as [|v w u Hvw Hr IH]; [done|].
  eapply rtc_l.
  - apply elem_of_peel. split; [exact Hvw | exact Hin].
  - apply IH, has_incoming_iff. by exists v.
Qed.

Lemma cycle_peel E x : tc (edge_rel E) x x → tc (edge_rel (peel E)) x x.
Proof.
  intros Hc. pose proof (tc_edge_incoming _ _ _ Hc) as Hin.
  inversion Hc as [? ? Hxx | ? y ? Hxy Hyx]; subst.
  - apply tc_once, elem_of_peel. done.
  - eapply tc_rtc_r.
    + apply tc_once, elem_of_peel. split; [exact Hxy | exact Hin].
    + apply rtc_peel; [|by apply tc_rtc]. apply has_incoming_iff. by exists x.
Qed.

Lemma cycle_iter_peel n E x :
  tc (edge_rel E) x x → tc (edge_rel (Nat.iter n peel E)) x x.
Proof. intros Hc. induction n as [|n IH]; [done|]. simpl. by apply cycle_peel. Qed.

Lemma is_dag_sound E : is_dag E = true → ∀ x, ¬ tc (edge_rel E) x x.
Proof.
  unfold is_dag. intros Hnil%bool_decide_eq_true x Hc.
  apply (cycle_iter_peel (length E)) in Hc. rewrite Hnil in Hc.
  apply tc_edge_incoming, has_incoming_iff in Hc as [w Hw]. inv Hw.
Qed.

(** ** Completeness of the cycle check *)

Lemma filter_length_eq {A} (P : A → Prop) `{∀ x, Decision (P x)} (l : list A) :
  length (filter P l) = length l → filter P l = l.
Proof.
  induction l as [|a l IH]; [done|]. rewrite filter_cons.
  destruct (decide (P a)); simpl; intros Hlen.
  - f_equal. apply IH. lia.
  - pose proof (length_filter P l). lia.
Qed.

Lemma peel_fixpoint E : length (peel E) = length E → peel E = E.
Proof. apply filter_length_eq. Qed.

Lemma iter_peel_fixpoint n E :
  length E ≤ n → peel (Nat.iter n peel E) = Nat.iter n peel E.
Proof.
  revert E. induction n as [|n IH]; intros E Hlen.
  - destruct E; [done | simpl in Hlen; lia].
  - rewrite Nat.iter_succ_r.
    destruct (decide (length (peel E) = length E)) as [Heq|Hne].
    + apply peel_fixpoint in Heq.
      assert (Hall : ∀ k, Nat.iter k peel E = E).
      { induction k as [|k IHk]; [done|]. simpl. by rewrite IHk. }
      rewrite Heq, Hall. done.
    + apply IH. pose proof (length_filter (λ e, has_incoming E e.1) E).
      unfold peel in *. lia.
Qed.

(** A backward walk: every task with an incoming edge has a predecessor that
    again has one, as soon as a round of the check removes nothing. *)
Definition some_predecessor (E : list (Task * Task)) (u : Task) : Task :=
  match filter (λ e, e.2 = u) E with
  | e :: _ => e.1
  | [] => u
  end.

Lemma some_predecessor_edge E u :
  has_incoming E u → (some_predecessor E u, u) ∈ E.
Proof.
  intros [w Hw]%has_incoming_iff. unfold some_predecessor.
  destruct (filter (λ e, e.2 = u) E) as [|[a b] l] eqn:Hf.
  - exfalso. eapply (filter_nil_not_elem_of _ _ (w, u)); [exact Hf | done | done].
  - assert (Hin : (a, b) ∈ filter (λ e, e.2 = u) E) by (rewrite Hf; left).
    apply list_elem_of_filter in Hin as [Hb Hin]. simpl in *. by subst b.
Qed.

Section backward_walk.
Variable E : list (Task * Task).
Hypothesis Hfix : peel E = E.

Lemma fixpoint_origin_incoming u v : (u, v) ∈ E → has_incoming E u.
Proof using Hfix. rewrite <- Hfix at 1. by intros [_ ?]%elem_of_peel. Qed.

Lemma walk_incoming k u :
  has_incoming E u → has_incoming E (Nat.iter k (some_predecessor E) u).
Proof using Hfix.
  intros Hu. induction k as [|k IH]; [done|]. simpl.
  eapply fixpoint_origin_incoming, some_predecessor_edge, IH.
Qed.

Lemma walk_path u i d :
  has_incoming E u →
  tc (edge_rel E) (Nat.iter (S d + i) (some_predecessor E) u)
                  (Nat.iter i (some_predecessor E) u).
Proof using Hfix.
  intros Hu. induction d as [|d IH].
  - simpl. apply tc_once, some_predecessor_edge, walk_incoming, Hu.
  - eapply tc_l; [|exact IH].
    change (S (S d) + i) with (S (S d + i)). simpl.
    apply some_predecessor_edge. apply (walk_incoming (S (d + i))), Hu.
Qed.
End backward_walk.

Lemma not_NoDup_repeat {A} `{EqDecision A} (l : list A) :
  ¬ NoDup l → ∃ i d x, l !! i = Some x ∧ l !! (S d + i) = Some x.
Proof.
  induction l as [|a l IH]; intros Hnd; [destruct Hnd; constructor|].
  destruct (decide (a ∈ l)) as [[j Hj]%list_elem_of_lookup | Hna].
  - exists 0, j, a. split; [done|]. by rewrite Nat.add_0_r.
  - destruct IH as (i & d & x & Hi & Hj).
    { intros Hl. apply Hnd. by constructor. }
    exists (S i), d, x. split; [done|].
    replace (S d + S i) with (S (S d + i)) by lia. done.
Qed.

Lemma fixpoint_cycle E :
  peel E = E → E ≠ [] → ∃ x, tc (edge_rel E) x x.
Proof.
  intros Hfix Hne. destruct E as [|[a b] E'] eqn:HE; [done|]. rewrite <- HE in *.
  assert (Hb : has_incoming E b).
  { apply has_incoming_iff. exists a. rewrite HE. left. }
  set (walk := (λ k, Nat.iter k (some_predecessor E) b) <$> seq 0 (S (length E))).
  assert (Hrep : ¬ NoDup walk).
  { intros Hnd.
    assert (Hsub : walk ⊆+ E.*2).
    { apply NoDup_submseteq; [done|]. intros x [k [-> _]]%list_elem_of_fmap.
      destruct (proj1 (has_incoming_iff _ _) (walk_incoming E Hfix k b Hb)) as [w Hw].
      apply list_elem_of_fmap. by exists (w, Nat.iter k (some_predecessor E) b). }
    apply submseteq_length in Hsub. unfold walk in Hsub.
    rewrite !length_fmap, length_seq in Hsub. lia. }
  apply not_NoDup_repeat in Hrep as (i & d & x & Hi & Hj).
  unfold walk in Hi, Hj. rewrite list_lookup_fmap in Hi, Hj.
  destruct (seq 0 (S (length E)) !! i) as [ki|] eqn:Hki; [|done].
  destruct (seq 0 (S (length E)) !! (S d + i)) as [kj|] eqn:Hkj; [|done].
  apply lookup_seq in Hki as [-> _]. apply lookup_seq in Hkj as [-> _].
  simpl in Hi, Hj. injection Hi as Hi. injection Hj as Hj.
  exists x. pose proof (walk_path E Hfix b i d Hb) as Hp.
  simpl in Hp. rewrite Hi, Hj in Hp. done.
Qed.

Lemma is_dag_complete E : (∀ x, ¬ tc (edge_rel E) x x) → is_dag E = true.
Proof.
  intros Hac. unfold is_dag. apply bool_decide_eq_true.
  pose proof (iter_peel_fixpoint (length E) E (le_n _)) as Hfix.
  destruct (decide (Nat.iter (length E) peel E = [])) as [|Hne]; [done|].
  destruct (fixpoint_cycle _ Hfix Hne) as [x Hx]. exfalso. apply (Hac x).
  apply (tc_congruence id (edge_rel E)) in Hx; [done|].
  intros u v. unfold edge_rel. generalize (length E) as n.
  induction n as [|n IH]; [done|]. simpl. intros [H _]%elem_of_peel. by apply IH.
Qed.

Lemma is_dag_acyclic E : is_dag E = true ↔ ∀ x, ¬ tc (edge_rel E) x x.
Proof. split; [apply is_dag_sound | apply is_dag_complete]. Qed.


Lemma wf_ok_check_sound g : wf_ok_check g = true → wf_ok g.
Proof.
  unfold wf_ok_check. rewrite !andb_true_iff, !bool_decide_eq_true.
  intros [[Hn He] Hc]. split; [done..|].
  intros u v Huv. rewrite Forall_forall in Hc. exact (Hc _ Huv).
Qed.

Lemma disjoint_check_sound l k : disjoint_check l k = true → l ## k.
Proof.
  unfold disjoint_check. rewrite bool_decide_eq_true, Forall_forall.
  intros H x Hl Hk. exact (H x Hl Hk).
Qed.

(** ** Well-formedness is an invariant of the graph operations *)

Lemma add_tasks_wf_ok g ts : wf_ok g → wf_ok (add_tasks g ts).
Proof.
  intros [Hn He Hc]. split; simpl.
  - by apply NoDup_insert_all.
  - done.
  - intros u v [Hu Hv]%Hc. split; apply elem_of_insert_all; by left.
Qed.

Lemma connect_tasks_wf_ok g m :
  wf_ok g →
  (∀ p ss s, (p, ss) ∈ m → s ∈ ss → p ∈ nodes g ∧ s ∈ nodes g) →
  wf_ok (connect_tasks g m).1.
Proof.
  intros [Hn He Hc] Hm. unfold connect_tasks. case_decide; [done|].
  destruct (is_dag _); [|done]. split; simpl.
  - done.
  - by apply NoDup_insert_all.
  - intros u v [Hold|Hnew]%elem_of_insert_all; [by apply Hc|].
    apply list_elem_of_bind in Hnew as [[p ss] [Hin Hp]].
    apply list_elem_of_fmap in Hin as [s [[= -> ->] Hs]]. by eapply Hm.
Qed.

Lemma insert_workflow_wf_ok self other preds connect :
  wf_ok self → wf_ok other →
  (∀ ps p, preds = Some ps → p ∈ ps → p ∈ nodes self) →
  wf_ok (insert_workflow self other preds connect).
Proof.
  intros [Hn1 He1 Hc1] [Hn2 He2 Hc2] Hpreds.
  assert (Hmerged : ∀ u v, (u, v) ∈ insert_all (edges self) (edges other) →
            u ∈ insert_all (nodes self) (nodes other)
            ∧ v ∈ insert_all (nodes self) (nodes other)).
  { intros u v [[Hu Hv]%Hc1 | [Hu Hv]%Hc2]%elem_of_insert_all;
      split; apply elem_of_insert_all; auto. }
  unfold insert_workflow. destruct connect; split; simpl.
  - by apply NoDup_insert_all.
  - by do 2 apply NoDup_insert_all.
  - intros u v [Hold | [Hu Hv]%elem_of_cross_edges]%elem_of_insert_all;
      [by apply Hmerged|].
    split; apply elem_of_insert_all.
    + left. destruct preds as [ps|]; simpl in Hu; [by eapply Hpreds|].
      by apply elem_of_get_leaf_tasks in Hu as [? _].
    + right. by apply elem_of_get_source_tasks in Hv as [? _].
  - by apply NoDup_insert_all.
  - by apply NoDup_insert_all.
  - done.
Qed.

Lemma empty_workflow_wf_ok : wf_ok empty_workflow.
Proof. split; simpl; [constructor.. |]. intros u v H. inv H. Qed.

(** ** Connecting tasks keeps the graph acyclic *)

Lemma connect_tasks_raised g m e :
  (connect_tasks g m).2 = Some e → (connect_tasks g m).1 = g.
Proof.
  unfold connect_tasks. case_decide; [done|].
  destruct (is_dag _); [discriminate | done].
Qed.

Lemma connect_tasks_acyclic g m : acyclic g → acyclic (connect_tasks g m).1.
Proof.
  intros Hg. unfold connect_tasks. case_decide; [done|].
  destruct (is_dag _) eqn:Hdag; [|done].
  simpl. intros x. by apply is_dag_sound.
Qed.

Lemma new_workflow_acyclic ts : acyclic (new_workflow ts).
Proof. intros x [w Hw]%tc_edge_incoming%has_incoming_iff. inv Hw. Qed.

Lemma run_edits_acyclic g os : acyclic g → acyclic (run_edits g os).
Proof.
  unfold run_edits. revert g. induction os as [|o os IH]; intros g Hg; [done|].
  simpl. apply IH. destruct o as [ts|m]; [exact Hg|]. by apply connect_tasks_acyclic.
Qed.

Lemma self_loop_in_mapping m t ss :
  (t, ss) ∈ m → t ∈ ss → Exists is_self_loop (mapping_edges m).
Proof.
  intros Hm Ht. apply Exists_exists. exists (t, t). split; [|done].
  unfold mapping_edges. apply list_elem_of_bind. exists (t, ss). split; [|done].
  apply list_elem_of_fmap. by exists t.
Qed.

(** C7: [connect_tasks] raises [ValueError] when an entry connects a task to
    itself, raises whenever the graph with the requested edges added has a
    cycle, keeps the graph acyclic (so free of self-loops) over any session
    of edits that starts from a fresh workflow, and a call that raises
    leaves the graph as it was. *)
Theorem connect_tasks_rejects_cycles :
  (∀ g m t ss, (t, ss) ∈ m → t ∈ ss → connect_tasks g m = (g, Some ValueError))
  ∧ (∀ g m,
       ¬ acyclic (mkWorkflow (nodes g) (insert_all (edges g) (mapping_edges m))) →
       ∃ e, connect_tasks g m = (g, Some e))
  ∧ (∀ ts os, acyclic (run_edits (new_workflow ts) os)
              ∧ ∀ t, (t, t) ∉ edges (run_edits (new_workflow ts) os))
  ∧ (∀ ts os m e,
       let g := run_edits (new_workflow ts) os in
       (connect_tasks g m).2 = Some e →
       (connect_tasks g m).1 = g ∧ acyclic (connect_tasks g m).1).
Proof.
  split_and!.
  - intros g m t ss Hm Ht. unfold connect_tasks.
    rewrite decide_True; [done|]. by eapply self_loop_in_mapping.
  - intros g m Hcyc. unfold connect_tasks. case_decide; [by eexists|].
    destruct (is_dag _) eqn:Hdag; [|by eexists].
    exfalso. apply Hcyc. intros x. by apply is_dag_sound.
  - intros ts os.
    assert (Hac : acyclic (run_edits (new_workflow ts) os))
      by apply run_edits_acyclic, new_workflow_acyclic.
    split; [done|]. intros t Ht. apply (Hac t). by apply tc_once.
  - intros ts os m e g Hraise. split; [by eapply connect_tasks_raised|].
    apply connect_tasks_acyclic, run_edits_acyclic, new_workflow_acyclic.
Qed.

(** The check does not reject a mapping without reason: the call succeeds
    exactly when no entry is a self-loop and the extended graph is acyclic. *)
Lemma connect_tasks_succeeds_iff g m :
  (connect_tasks g m).2 = None
  ↔ ¬ Exists is_self_loop (mapping_edges m)
    ∧ acyclic (mkWorkflow (nodes g) (insert_all (edges g) (mapping_edges m))).
Proof.
  unfold connect_tasks. case_decide as Hloop.
  - split; [done | tauto].
  - destruct (is_dag _) eqn:Hdag; simpl.
    + split; [|done]. intros _. split; [done|]. intros x. by apply is_dag_sound.
    + split; [done|]. intros [_ Hac]. unfold acyclic in Hac. simpl in Hac.
      apply is_dag_complete in Hac. congruence.
Qed.

Definition wf_diamond : Workflow :=
  (connect_tasks (new_workflow [t1; t2; t3; t4])
                 [(t1, [t2; t3]); (t2, [t4]); (t3, [t4])]).1.

Lemma connect_tasks_rejects_cycles_witness :
  connect_tasks wf_diamond [(t1, [t1])] = (wf_diamond, Some ValueError)
  ∧ (∃ e, connect_tasks wf_diamond [(t4, [t1])] = (wf_diamond, Some e))
  ∧ acyclic (run_edits (new_workflow [t1; t2])
               [ConnectTasks [(t1, [t2])]; ConnectTasks [(t2, [t1])]])
  ∧ (connect_tasks (run_edits (new_workflow [t1; t2]) [ConnectTasks [(t1, [t2])]])
                   [(t2, [t1])]).1
    = run_edits (new_workflow [t1; t2]) [ConnectTasks [(t1, [t2])]].
Proof.
  destruct connect_tasks_rejects_cycles as (Hself & Hcyc & Hseq & Hraise).
  split_and!.
  - apply (Hself wf_diamond [(t1, [t1])] t1 [t1]); left.
  - apply (Hcyc wf_diamond [(t4, [t1])]). intros Hac. apply (Hac t1).
    eapply tc_l; [|eapply tc_l; [|apply tc_once]]; unfold edge_rel.
    + instantiate (1 := t2). vm_compute. left.
    + instantiate (1 := t4). vm_compute. right. right. left.
    + vm_compute. do 4 right. left.
  - apply (Hseq [t1; t2]).
  - eapply (Hraise [t1; t2] [ConnectTasks [(t1, [t2])]] [(t2, [t1])] CycleError).
    vm_compute. reflexivity.
Defined.


(** ** Leaf tasks *)

Lemma connect_tasks_succeeded g m g' :
  connect_tasks g m = (g', None) →
  g' = mkWorkflow (nodes g) (insert_all (edges g) (mapping_edges m))
  ∧ ¬ Exists is_self_loop (mapping_edges m).
Proof.
  unfold connect_tasks. case_decide; [done|].
  destruct (is_dag _); [|done]. intros [= <-]. done.
Qed.

(** C8: [get_leaf_tasks] returns exactly the nodes without an outgoing edge
    (out-degree zero), in the order of the node list, which [add_tasks]
    extends at its end; after connecting [P] to [A] and [B], [P] is no leaf,
    and [A] and [B] are leaves when they are nodes without outgoing edge. *)
Theorem get_leaf_tasks_out_degree_zero :
  (∀ g t, t ∈ get_leaf_tasks g
          ↔ t ∈ nodes g ∧ out_degree g t = 0 ∧ ∀ v, (t, v) ∉ edges g)
  ∧ (∀ g, get_leaf_tasks g `sublist_of` nodes g)
  ∧ (∀ g ts, NoDup ts → (∀ t, t ∈ ts → t ∉ nodes g) →
             nodes (add_tasks g ts) = nodes g ++ ts)
  ∧ (∀ g P A B g',
       connect_tasks g [(P, [A; B])] = (g', None) →
       (P ∉ get_leaf_tasks g')
       ∧ (A ∈ nodes g → out_degree g A = 0 → A ∈ get_leaf_tasks g')
       ∧ (B ∈ nodes g → out_degree g B = 0 → B ∈ get_leaf_tasks g')
       ∧ (A ∈ nodes g' → out_degree g' A = 0 → A ∈ get_leaf_tasks g')
       ∧ (B ∈ nodes g' → out_degree g' B = 0 → B ∈ get_leaf_tasks g')).
Proof.
  split_and!.
  - intros g t. rewrite elem_of_get_leaf_tasks, out_degree_0. tauto.
  - intros g. apply sublist_filter.
  - intros g ts Hnd Hfresh. simpl. by apply insert_all_fresh.
  - intros g P A B g' [-> Hloop]%connect_tasks_succeeded.
    assert (HPA : P ≠ A).
    { intros ->. apply Hloop, Exists_exists. exists (A, A). split; [left|done]. }
    assert (HPB : P ≠ B).
    { intros ->. apply Hloop, Exists_exists. exists (B, B). split; [right; left|done]. }
    assert (Hnew : ∀ X, X ≠ P → X ∈ nodes g → out_degree g X = 0 →
      X ∈ get_leaf_tasks
            (mkWorkflow (nodes g) (insert_all (edges g) (mapping_edges [(P, [A; B])])))).
    { intros X HX Hn Hout. apply elem_of_get_leaf_tasks. split; [done|].
      intros v [Hold|Hnew]%elem_of_insert_all.
      - by apply (proj1 (out_degree_0 g X) Hout v).
      - apply list_elem_of_bind in Hnew as [[p ss] [Hin Hm]].
        apply list_elem_of_singleton in Hm as [= -> ->].
        apply list_elem_of_fmap in Hin as [s [[= ->] _]]. done. }
    split_and!.
    + intros [_ Hno]%elem_of_get_leaf_tasks. apply (Hno A).
      apply elem_of_insert_all. right. vm_compute. left.
    + by apply Hnew.
    + by apply Hnew.
    + intros Hn Hout. apply list_elem_of_filter. done.
    + intros Hn Hout. apply list_elem_of_filter. done.
Qed.

Lemma get_leaf_tasks_out_degree_zero_witness :
  let wf := new_workflow [t1; t2; t3] in
  let wf1 := (connect_tasks wf [(t1, [t2; t3])]).1 in
  (t1 ∉ get_leaf_tasks wf1) ∧ t2 ∈ get_leaf_tasks wf1 ∧ t3 ∈ get_leaf_tasks wf1
  ∧ nodes (add_tasks wf1 [t4]) = nodes wf1 ++ [t4].
Proof.
  destruct get_leaf_tasks_out_degree_zero as (_ & _ & Hadd & Hconn).
  destruct (Hconn (new_workflow [t1; t2; t3]) t1 t2 t3
              (connect_tasks (new_workflow [t1; t2; t3]) [(t1, [t2; t3])]).1)
    as (HP & HA & HB & _); [vm_compute; reflexivity|].
  split_and!.
  - exact HP.
  - apply HA; [vm_compute; right; left | vm_compute; reflexivity].
  - apply HB; [vm_compute; do 2 right; left | vm_compute; reflexivity].
  - apply Hadd.
    + apply NoDup_singleton.
    + intros t ->%list_elem_of_singleton.
      apply (bool_decide_unpack _). vm_compute. exact I.
Defined.


(** ** Merge algebra *)

(** C6: on disjoint well-formed workflows, the sequential merge has
    [|E(self)| + |E(other)| + |leaves(self)| * |sources(other)|] edges and the
    predecessors of every source task of [other] are the former leaf tasks
    of [self]; the parallel merge has [|E(self)| + |E(other)|] edges and no
    edge between a task of [self] and a task of [other]. *)
Theorem merge_algebra (self other : Workflow) :
  wf_ok self → wf_ok other → nodes self ## nodes other →
  length (edges (insert_workflow self other None true))
    = length (edges self) + length (edges other)
      + length (get_leaf_tasks self) * length (get_source_tasks other)
  ∧ (∀ s, s ∈ get_source_tasks other →
          predecessors (insert_workflow self other None true) s = get_leaf_tasks self)
  ∧ length (edges (insert_workflow self other None false))
    = length (edges self) + length (edges other)
  ∧ (∀ u v, u ∈ nodes self → v ∈ nodes other →
            ((u, v) ∉ edges (insert_workflow self other None false))
            ∧ ((v, u) ∉ edges (insert_workflow self other None false))).
Proof.
  intros Hself Hother Hdisj. split_and!.
  - rewrite sequential_edges by done.
    rewrite !length_app, length_cross_edges. lia.
  - intros s Hs. by apply sequential_predecessors.
  - rewrite parallel_edges by done. by rewrite length_app.
  - intros u v Hu Hv. by apply parallel_no_cross.
Qed.

Definition wf_sequential : Workflow :=
  (connect_tasks (new_workflow [t1; t2; t3]) [(t1, [t2; t3])]).1.

Definition wf_t4 : Workflow := new_workflow [t4].

Lemma merge_algebra_witness :
  length (edges (insert_workflow wf_sequential wf_t4 None true)) = 2 + 0 + 2 * 1
  ∧ predecessors (insert_workflow wf_sequential wf_t4 None true) t4 = [t2; t3]
  ∧ length (edges (insert_workflow wf_sequential wf_t4 None false)) = 2 + 0
  ∧ ((t2, t4) ∉ edges (insert_workflow wf_sequential wf_t4 None false)).
Proof.
  destruct (merge_algebra wf_sequential wf_t4) as (Hseq & Hpred & Hpar & Hno).
  - apply wf_ok_check_sound. vm_compute. reflexivity.
  - apply wf_ok_check_sound. vm_compute. reflexivity.
  - apply disjoint_check_sound. vm_compute. reflexivity.
  - split_and!.
    + exact Hseq.
    + apply (Hpred t4). vm_compute. left.
    + exact Hpar.
    + apply (Hno t2 t4); vm_compute; [right; left | left].
Defined.

(** ** Inserting a workflow without predecessors *)








Example wf_effects_addition_graph :
  edges (wf_effects_addition [mkTask 1 "('CL', 'WGT', 'exp', '*')"]
           (new_workflow [mkTask 2 "run0"]) (mkTask 3 "gather"))
  = [(mkTask 1 "('CL', 'WGT', 'exp', '*')", mkTask 2 "run0");
     (mkTask 2 "run0", mkTask 3 "gather")].
Proof. vm_compute. reflexivity. Qed.

(** With two effects, the insertion "wires every source node of other to
    follow every given predecessor": both fit tasks follow both
    construction tasks, and the gather task follows the fit tasks. *)
Example wf_effects_addition_two_effects :
  let task1 := mkTask 1 "('CL', 'WGT', 'exp', '*')" in
  let task2 := mkTask 2 "('V', 'WGT', 'exp', '*')" in
  let run0 := mkTask 3 "run0" in
  let run1 := mkTask 4 "run1" in
  let task_gather := mkTask 5 "gather" in
  let wf := wf_effects_addition [task1; task2] (new_workflow [run0; run1]) task_gather in
  nodes wf = [task1; task2; run0; run1; task_gather]
  ∧ edges wf = [(task1, run0); (task1, run1); (task2, run0); (task2, run1);
                (run0, task_gather); (run1, task_gather)]
  ∧ get_leaf_tasks wf = [task_gather].
Proof. vm_compute. done. Qed.



End Workflows.

(* ===================================================================== *)
(** * Covariate search: [pharmpy/tools/covsearch/tool.py] *)
(* ===================================================================== *)

Module Covsearch.

Definition NAME_WF : string := "covariates".

(** An [EffectLiteral] is the tuple (parameter, covariate, fp, operation). *)
Definition EffectLiteral : Type := string * string * string * string.

Definition lit_parameter (e : EffectLiteral) : string := e.1.1.1.  (* effect[0] *)
Definition lit_covariate (e : EffectLiteral) : string := e.1.1.2.  (* effect[1] *)
Definition lit_fp (e : EffectLiteral) : string := e.1.2.
Definition lit_operation (e : EffectLiteral) : string := e.2.

(** [Effect] with its subclasses [AddEffect] and [RemoveEffect]. *)
Inductive Effect :=
  | AddEffect (parameter covariate fp operation : string)
  | RemoveEffect (parameter covariate fp operation : string).

Definition parameter (e : Effect) : string :=
  match e with AddEffect p _ _ _ | RemoveEffect p _ _ _ => p end.
Definition covariate (e : Effect) : string :=
  match e with AddEffect _ c _ _ | RemoveEffect _ c _ _ => c end.
Definition fp (e : Effect) : string :=
  match e with AddEffect _ _ f _ | RemoveEffect _ _ f _ => f end.
Definition operation (e : Effect) : string :=
  match e with AddEffect _ _ _ o | RemoveEffect _ _ _ o => o end.

(** [AddEffect( *effect )] *)
Definition add_effect_of (e : EffectLiteral) : Effect :=
  AddEffect (lit_parameter e) (lit_covariate e) (lit_fp e) (lit_operation e).

(** [Step] with its subclasses [ForwardStep] and [BackwardStep]. *)
Inductive Step :=
  | ForwardStep (alpha : float) (effect : Effect)
  | BackwardStep (alpha : float) (effect : Effect).

Definition alpha (s : Step) : float :=
  match s with ForwardStep a _ | BackwardStep a _ => a end.
Definition effect (s : Step) : Effect :=
  match s with ForwardStep _ e | BackwardStep _ e => e end.
(** [isinstance(step, BackwardStep)] *)
Definition is_backward (s : Step) : bool :=
  match s with ForwardStep _ _ => false | BackwardStep _ _ => true end.

Record ModelfitResults := mkResults { ofv : float }.

(** The attributes of a [Model] that the search reads or writes;
    [model_id] is the identity of the object ([is]). Statements, parameters
    and dataset are not represented: [update_initial_estimates] and
    [add_covariate_effect] change only those. An absent or empty
    description is [""] (both are false in [description or name]). *)
Record Model := mkModel {
  model_id : nat;
  name : string;
  description : string;
  parent_model : option string;
  modelfit_results : option ModelfitResults
}.

Definition is_ (a b : Model) : Prop := model_id a = model_id b.

#[global] Instance is_dec a b : Decision (is_ a b).
Proof. unfold is_. apply _. Defined.

Record Candidate := mkCandidate { model : Model; steps : list Step }.

(** Modelled from the spec: [copy_model] of [pharmpy.modeling] (absent),
    "copy(model, name) -> model": a new object under the given name. *)
Definition copy_model (new_id : nat) (m : Model) (new_name : string) : Model :=
  mkModel new_id new_name (description m) (parent_model m) (modelfit_results m).

(** [task_add_covariate_effect]; [new_id] is the identity of the copy. *)
Definition task_add_covariate_effect (new_id : nat) (m : Model)
    (e : EffectLiteral) (effect_index : nat) : Model :=
  let model_with_added_effect :=
    copy_model new_id m (name m +:+ "-" +:+ pretty effect_index) in
  mkModel (model_id model_with_added_effect) (name model_with_added_effect)
    ("add_covariate_effect(<"
       +:+ (if decide (description m = "") then name m else description m)
       +:+ ">, "
       +:+ String.concat ", "
             [lit_parameter e; lit_covariate e; lit_fp e; lit_operation e]
       +:+ ")")
    (Some (name m))
    (modelfit_results model_with_added_effect).

Record SearchState := mkState {
  candidate_effects : list EffectLiteral;
  best_candidate_so_far : Candidate;
  all_candidates_so_far : list Candidate;
  next_id : nat;              (* identities below it are taken *)
  submitted : list string     (* names passed to [call_workflow] so far *)
}.

Inductive Exception := StopIteration | IndexError.

Inductive RoundResult :=
  | RoundReturn (all : list Candidate) (log : list string)
  | RoundRaise (e : Exception) (log : list string)
  | RoundContinue (s : SearchState).

(** The result of a run, with the workflow names it submitted; [Diverged]
    is the end of the fuel under [count(1)]. *)
Inductive Outcome :=
  | Returned (candidates : list Candidate)
  | Raised (e : Exception)
  | Diverged.

(** ** The steps summary: [_make_df_steps] *)

(** A row of the steps table. The columns [delta_df] (parameter counts),
    [directory] (database path) and [covariate_effects] (always nan) are not
    represented. *)
Record StepsRow := mkRow {
  row_step : nat;
  row_parameter : string;
  row_covariate : string;
  row_extended_state : string;
  row_reduced_ofv : float;
  row_extended_ofv : float;
  row_ofv_drop : float;
  row_pvalue : float;
  row_goal_pvalue : float;
  row_is_backward : bool;
  row_extended_significant : bool;
  row_selected : bool;
  row_model : string
}.

Inductive RowError := KeyError | AttributeError | StepIndexError | AssertionError.

(** [{candidate.model.name: candidate.model for candidate in candidates}] *)
Definition models_dict_of (candidates : list Candidate) : gmap string Model :=
  foldl (λ d c, <[name (model c) := model c]> d) ∅ candidates.

(** [Counter(candidate.model.parent_model for candidate in candidates)];
    a key is a name or [None]. *)
Definition children_count_of (candidates : list Candidate) : gmap (option string) nat :=
  foldl (λ cnt c, <[parent_model (model c) := S (default 0 (cnt !! parent_model (model c)))]> cnt)
        ∅ candidates.

(** [children_count[key]]: a [Counter] answers 0 for a missing key. *)
Definition count_of (cnt : gmap (option string) nat) (key : string) : nat :=
  default 0 (cnt !! Some key).

Section steps_summary.

(** [lrt_p_value] of [pharmpy.modeling.lrt] is outside the sources. *)
Variable lrt_p_value : Model → Model → float.

Definition _marke_df_steps_row (models_dict : gmap string Model)
    (children_count : gmap (option string) nat) (best_model : Model)
    (candidate : Candidate) : RowError + StepsRow :=
  let model_ := model candidate in
  match parent_model model_ ≫= (λ key, models_dict !! key) with
  | None => inl KeyError
  | Some parent =>
      match modelfit_results parent, modelfit_results model_ with
      | None, _ | _, None => inl AttributeError
      | Some parent_results, Some results =>
          let reduced_ofv := ofv parent_results in
          let extended_ofv := ofv results in
          let ofv_drop := (reduced_ofv - extended_ofv)%float in
          match last (steps candidate) with
          | None => inl StepIndexError
          | Some last_step =>
              let last_effect := effect last_step in
              let p_value := lrt_p_value parent model_ in
              let selected :=
                bool_decide (1 ≤ count_of children_count (name model_))
                || bool_decide (is_ model_ best_model) in
              let extended_significant := PrimFloat.leb p_value (alpha last_step) in
              if negb selected || extended_significant then
                inr (mkRow (length (steps candidate))
                       (parameter last_effect) (covariate last_effect)
                       (operation last_effect +:+ " " +:+ fp last_effect)
                       reduced_ofv extended_ofv ofv_drop
                       p_value (alpha last_step)
                       (is_backward last_step)
                       extended_significant selected
                       (name model_))
              else inl AssertionError
          end
      end
  end.

(** The records are produced in order; the first exception ends the call. *)
Fixpoint collect_rows (rows : list (RowError + StepsRow)) : RowError + list StepsRow :=
  match rows with
  | [] => inr []
  | inl e :: _ => inl e
  | inr r :: rest =>
      match collect_rows rest with
      | inl e => inl e
      | inr rs => inr (r :: rs)
      end
  end.

(** The frame of [pd.DataFrame.from_records(data, index=[...])], where
    [data] is a generator of dicts. With a first record, the frame has one
    row per record, in the order of the generator; the fields named in
    [index] make the row index and the other fields are the columns.
    Without a record, pandas answers [cls(index=index, columns=columns)]:
    the frame has the labels of [index] as its rows, and no column. *)
Inductive StepsTable :=
  | Records (rows : list StepsRow)
  | IndexOnly (labels : list string).

Definition from_records (data : list StepsRow) (index : list string) : StepsTable :=
  match data with
  | [] => IndexOnly index
  | _ :: _ => Records data
  end.

(** [len(df)]: the number of rows of the frame. *)
Definition frame_length (df : StepsTable) : nat :=
  match df with
  | Records rows => length rows
  | IndexOnly labels => length labels
  end.

Definition _make_df_steps (best_model : Model) (candidates : list Candidate)
  : RowError + StepsTable :=
  let models_dict := models_dict_of candidates in
  let children_count := children_count_of candidates in
  let data :=
    collect_rows
      ((λ candidate, _marke_df_steps_row models_dict children_count best_model candidate)
         <$> filter (λ candidate, steps candidate ≠ []) candidates) in
  match data with
  | inl e => inl e
  | inr data =>
      inr (from_records data ["step"; "parameter"; "covariate"; "extended_state"])
  end.

End steps_summary.

Section search.

(** The fit of a model and the likelihood-ratio ranking are collaborators
    outside the sources ([pharmpy.tools.modelfit], [pharmpy.modeling.lrt]). *)
Variable fit : Model → option ModelfitResults.
Variable lrt_best_of_many : Model → list Model → float → Model.
Variable lrt_p_value : Model → Model → float.

Definition fit_model (m : Model) : Model :=
  mkModel (model_id m) (name m) (description m) (parent_model m) (fit m).

(** Modelled from the spec: [call_workflow(wf_effects_addition(model,
    candidate_effects), name)]; the execution engine and the fit workflow are
    absent. "For each remaining candidate modification, one branch = copy
    current best model under a fresh name → reset initial parameter
    estimates → apply the modification → fit", "gathered by a final fan-in
    task producing the ordered tuple of fit models". *)
Definition call_wf_effects_addition (first_id : nat) (m : Model)
    (effects : list EffectLiteral) : list Model :=
  imap (λ i e, fit_model (task_add_covariate_effect (first_id + i) m e (S i))) effects.

Definition wf_name (step : nat) : string :=
  NAME_WF +:+ "-effects_addition-" +:+ pretty step.

(** The candidates one round appends to [all_candidates_so_far]. *)
Definition round_candidates (p_forward : float) (s : SearchState) : list Candidate :=
  let best := best_candidate_so_far s in
  zip_with
    (λ m e, mkCandidate m (steps best ++ [ForwardStep p_forward (add_effect_of e)]))
    (call_wf_effects_addition (next_id s) (model best) (candidate_effects s))
    (candidate_effects s).

(** The body of the [for] loop after the emptiness test. *)
Definition round (p_forward : float) (step : nat) (s : SearchState) : RoundResult :=
  let best := best_candidate_so_far s in
  let log := submitted s ++ [wf_name step] in
  let new_candidate_models :=
    call_wf_effects_addition (next_id s) (model best) (candidate_effects s) in
  let all := all_candidates_so_far s ++ round_candidates p_forward s in
  let parent := model best in
  let best_model_so_far := lrt_best_of_many parent new_candidate_models p_forward in
  if decide (is_ best_model_so_far parent) then RoundReturn all log
  else
    match list_find (λ c, is_ (model c) best_model_so_far) all with
    | None => RoundRaise StopIteration log
    | Some (_, winner) =>
        match last (steps winner) with
        | None => RoundRaise IndexError log
        | Some last_step =>
            let added_effect := effect last_step in
            RoundContinue
              (mkState
                 (filter (λ e, lit_parameter e ≠ parameter added_effect
                               ∨ lit_covariate e ≠ covariate added_effect)
                         (candidate_effects s))
                 winner all
                 (next_id s + length (candidate_effects s))
                 log)
        end
    end.

(** The [for] loop over [steps]: [n] iterations are left, of
    [range(1, max_steps + 1)] or, when [unbounded], of [count(1)] cut at the
    fuel. *)
Fixpoint search_loop (unbounded : bool) (p_forward : float) (n step : nat)
    (s : SearchState) : Outcome * list string :=
  match n with
  | 0 =>
      if unbounded then (Diverged, submitted s)
      else (Returned (all_candidates_so_far s), submitted s)
  | S n' =>
      match candidate_effects s with
      | [] => (Returned (all_candidates_so_far s), submitted s)
      | _ :: _ =>
          match round p_forward step s with
          | RoundReturn all log => (Returned all, log)
          | RoundRaise e log => (Raised e, log)
          | RoundContinue s' => search_loop unbounded p_forward n' (S step) s'
          end
      end
  end.

Definition initial_state (effects : list EffectLiteral) (m : Model) : SearchState :=
  mkState effects (mkCandidate m []) [mkCandidate m []] (S (model_id m)) [].

Definition task_greedy_forward_search (fuel : nat) (effects : list EffectLiteral)
    (p_forward : float) (max_steps : Z) (m : Model) : Outcome * list string :=
  if (0 <=? max_steps)%Z
  then search_loop false p_forward (Z.to_nat max_steps) 1 (initial_state effects m)
  else search_loop true p_forward fuel 1 (initial_state effects m).

(** The ranking returns one of the objects it was given: "select the single
    best-improving candidate, or, if none improves significantly, the parent
    itself". *)
Definition lrt_returns_argument : Prop :=
  ∀ parent models a,
    lrt_best_of_many parent models a = parent ∨ lrt_best_of_many parent models a ∈ models.

(** Identities in use are below the allocator, and the best candidate is one
    of the candidates. *)
Record state_ok (s : SearchState) : Prop := {
  ok_ids : ∀ c, c ∈ all_candidates_so_far s → model_id (model c) < next_id s;
  ok_best : best_candidate_so_far s ∈ all_candidates_so_far s
}.

(** The model and the candidate that round [s] builds for the effect [e]
    at position [i] of the pool. *)
Definition new_model (s : SearchState) (i : nat) (e : EffectLiteral) : Model :=
  fit_model (task_add_covariate_effect (next_id s + i)
               (model (best_candidate_so_far s)) e (S i)).

Definition new_candidate (p_forward : float) (s : SearchState) (i : nat)
    (e : EffectLiteral) : Candidate :=
  mkCandidate (new_model s i e)
    (steps (best_candidate_so_far s) ++ [ForwardStep p_forward (add_effect_of e)]).

(** The pool after an effect on ([prm], [cov]) was added. *)
Definition remaining_effects (prm cov : string) (effects : list EffectLiteral)
  : list EffectLiteral :=
  filter (λ e, lit_parameter e ≠ prm ∨ lit_covariate e ≠ cov) effects.

(** [rounds p k s bs k' s']: from step [k] in state [s], rounds that each
    select a winner lead to step [k'] in state [s'], and [bs] are the
    batches of candidates they created, oldest first. *)
Inductive rounds (p : float)
  : nat → SearchState → list (list Candidate) → nat → SearchState → Prop :=
  | rounds_nil k s : rounds p k s [] k s
  | rounds_snoc k s bs k' s' s'' :
      rounds p k s bs k' s' →
      candidate_effects s' ≠ [] →
      round p k' s' = RoundContinue s'' →
      rounds p k s (bs ++ [round_candidates p s']) (S k') s''.

(** [winner_rounds p k s ss k' s']: the same rounds, with the states [ss]
    in which they started, oldest first. *)
Inductive winner_rounds (p : float)
  : nat → SearchState → list SearchState → nat → SearchState → Prop :=
  | winner_rounds_nil k s : winner_rounds p k s [] k s
  | winner_rounds_snoc k s ss k' s' s'' :
      winner_rounds p k s ss k' s' →
      candidate_effects s' ≠ [] →
      round p k' s' = RoundContinue s'' →
      winner_rounds p k s (ss ++ [s']) (S k') s''.

(** [created p s b]: [b] are the candidates created in the round that
    starts in state [s], one per effect of the pool and in its order: the
    models are the models that the ranking of this round is given, and the
    steps are the steps of the best candidate and a forward step that adds
    the effect. *)
Definition created (p : float) (s : SearchState) (b : list Candidate) : Prop :=
  model <$> b
  = call_wf_effects_addition (next_id s) (model (best_candidate_so_far s))
      (candidate_effects s)
  ∧ steps <$> b
    = (λ e, steps (best_candidate_so_far s) ++ [ForwardStep p (add_effect_of e)])
        <$> candidate_effects s.

(** Provenance of a list of candidates that starts from the model [m]. *)
Record history_ok (m : Model) (cands : list Candidate) : Prop := {
  hist_head : cands !! 0 = Some (mkCandidate m []);
  hist_start : ∀ i c, cands !! i = Some c → (steps c = [] ↔ i = 0);
  hist_parent : ∀ i c,
    cands !! i = Some c → steps c ≠ [] →
    ∃ j c', j < i ∧ cands !! j = Some c'
            ∧ parent_model (model c) = Some (name (model c'));
  hist_forward : ∀ c,
    c ∈ cands → Forall (λ st, is_backward st = false) (steps c)
}.

(** Names: [name_extends n n'] when [n'] is [n], a dash and something
    more, as the names of the models built from the model [n] are. *)
Fixpoint has_dash (s : string) : bool :=
  match s with
  | EmptyString => false
  | String c s' => bool_decide (c = "-"%char) || has_dash s'
  end.

Definition name_extends (n n' : string) : Prop := ∃ t, n' = n +:+ "-" +:+ t.

Definition names_of (cands : list Candidate) : list string :=
  (λ c, name (model c)) <$> cands.

(** Names in use are pairwise different, and none extends the name of the
    best candidate: the names of the next round are new. *)
Record names_ok (s : SearchState) : Prop := {
  names_nodup : NoDup (names_of (all_candidates_so_far s));
  names_fresh : ∀ c, c ∈ all_candidates_so_far s →
    ¬ name_extends (name (model (best_candidate_so_far s))) (name (model c))
}.

(** A candidate is significant when its p-value against the candidate that
    its [parent_model] names is at most alpha. *)
Definition significant (p : float) (cands : list Candidate) (c : Candidate) : Prop :=
  ∃ pb, pb ∈ cands ∧ parent_model (model c) = Some (name (model pb))
        ∧ PrimFloat.leb (lrt_p_value (model pb) (model c)) p = true.

(** The ranking and the p-value agree: a model other than the parent is
    selected only if it "improves significantly", that is with a p-value
    against the parent of at most alpha. *)
Definition lrt_selects_significant : Prop :=
  ∀ parent models a,
    ¬ is_ (lrt_best_of_many parent models a) parent →
    PrimFloat.leb (lrt_p_value parent (lrt_best_of_many parent models a)) a = true.

(** What the steps summary needs of a list of candidates. *)
Record summary_ok (p : float) (cands : list Candidate) : Prop := {
  sum_names : NoDup (names_of cands);
  sum_alpha : ∀ c, c ∈ cands → steps c ≠ [] → alpha <$> last (steps c) = Some p;
  sum_parent : ∀ c, c ∈ cands → steps c ≠ [] →
    ∃ b, b ∈ cands ∧ parent_model (model c) = Some (name (model b));
  sum_sig : ∀ c b,
    c ∈ cands → steps c ≠ [] → b ∈ cands →
    parent_model (model c) = Some (name (model b)) →
    steps b = [] ∨ significant p cands b
}.

(** ** One round *)

Lemma zip_with_imap_l {A B C} (g : B → A → C) (f : nat → A → B) (l : list A) :
  zip_with g (imap f l) l = imap (λ i e, g (f i e) e) l.
Proof.
  revert f. induction l as [|x l IH]; intros f; [done|].
  rewrite !imap_cons. simpl. f_equal. apply IH.
Qed.

Lemma round_candidates_imap p s :
  round_candidates p s = imap (new_candidate p s) (candidate_effects s).
Proof. unfold round_candidates, call_wf_effects_addition. by rewrite zip_with_imap_l. Qed.

Lemma length_round_candidates p s :
  length (round_candidates p s) = length (candidate_effects s).
Proof. by rewrite round_candidates_imap, length_imap. Qed.

Lemma elem_of_round_candidates p s c :
  c ∈ round_candidates p s
  ↔ ∃ i e, candidate_effects s !! i = Some e ∧ c = new_candidate p s i e.
Proof.
  rewrite round_candidates_imap, list_elem_of_lookup. split.
  - intros [i Hi]. rewrite list_lookup_imap in Hi.
    destruct (candidate_effects s !! i) as [e|] eqn:He; [|done].
    injection Hi as <-. by exists i, e.
  - intros (i & e & He & ->). exists i. by rewrite list_lookup_imap, He.
Qed.

Lemma elem_of_new_models s m :
  m ∈ call_wf_effects_addition (next_id s) (model (best_candidate_so_far s))
        (candidate_effects s)
  ↔ ∃ i e, candidate_effects s !! i = Some e ∧ m = new_model s i e.
Proof.
  unfold call_wf_effects_addition. rewrite list_elem_of_lookup. split.
  - intros [i Hi]. rewrite list_lookup_imap in Hi.
    destruct (candidate_effects s !! i) as [e|] eqn:He; [|done].
    injection Hi as <-. by exists i, e.
  - intros (i & e & He & ->). exists i. by rewrite list_lookup_imap, He.
Qed.

(** What a round that goes on leaves behind, whatever the ranking returns. *)
Lemma round_continue_shape p k s s' :
  round p k s = RoundContinue s' →
  ∃ winner last_step,
    winner ∈ all_candidates_so_far s ++ round_candidates p s
    ∧ is_ (model winner)
          (lrt_best_of_many (model (best_candidate_so_far s))
             (call_wf_effects_addition (next_id s) (model (best_candidate_so_far s))
                (candidate_effects s)) p)
    ∧ last (steps winner) = Some last_step
    ∧ s' = mkState
             (remaining_effects (parameter (effect last_step))
                (covariate (effect last_step)) (candidate_effects s))
             winner
             (all_candidates_so_far s ++ round_candidates p s)
             (next_id s + length (candidate_effects s))
             (submitted s ++ [wf_name k]).
Proof.
  unfold round. case_decide as Hparent; [done|].
  destruct (list_find _ _) as [[i winner]|] eqn:Hfind; [|done].
  destruct (last (steps winner)) as [last_step|] eqn:Hlast; [|done].
  intros [= <-]. exists winner, last_step.
  apply list_find_Some in Hfind as (Hi & His & _).
  split_and!; [by eapply list_elem_of_lookup_2 | done | done | done].
Qed.

Lemma round_continue_ok p k s s' :
  state_ok s → round p k s = RoundContinue s' → state_ok s'.
Proof.
  intros [Hids Hbest] (w & st & Hw & _ & _ & ->)%round_continue_shape.
  split; simpl; [|done].
  intros c [Hc | (i & e & He & ->)%elem_of_round_candidates]%elem_of_app.
  - specialize (Hids c Hc). lia.
  - simpl. apply lookup_lt_Some in He. lia.
Qed.

(** With a ranking that returns one of its arguments, the winner is the
    candidate built in this round for one effect of the pool. *)
Lemma round_winner p s bm w :
  state_ok s →
  bm ∈ call_wf_effects_addition (next_id s) (model (best_candidate_so_far s))
         (candidate_effects s) →
  w ∈ all_candidates_so_far s ++ round_candidates p s →
  is_ (model w) bm →
  ∃ j e, candidate_effects s !! j = Some e ∧ bm = new_model s j e
         ∧ w = new_candidate p s j e.
Proof.
  intros [Hids _] (j & e & He & ->)%elem_of_new_models Hw His.
  exists j, e. split_and!; [done..|].
  unfold is_ in His. simpl in His.
  apply elem_of_app in Hw as [Hw | (j' & e' & He' & ->)%elem_of_round_candidates].
  - specialize (Hids w Hw). lia.
  - simpl in His. assert (j' = j) as -> by lia. congruence.
Qed.

Lemma round_continue_inv p k s s' :
  lrt_returns_argument → state_ok s → round p k s = RoundContinue s' →
  ∃ j e,
    candidate_effects s !! j = Some e
    ∧ s' = mkState
             (remaining_effects (lit_parameter e) (lit_covariate e) (candidate_effects s))
             (new_candidate p s j e)
             (all_candidates_so_far s ++ round_candidates p s)
             (next_id s + length (candidate_effects s))
             (submitted s ++ [wf_name k]).
Proof.
  intros Hlrt Hok Hround.
  pose proof Hround as (w & st & Hw & His & Hlast & ->)%round_continue_shape.
  unfold round in Hround. case_decide as Hparent; [done|]. clear Hround.
  destruct (Hlrt (model (best_candidate_so_far s))
              (call_wf_effects_addition (next_id s) (model (best_candidate_so_far s))
                 (candidate_effects s)) p) as [Heq|Hin].
  { exfalso. apply Hparent. by rewrite Heq. }
  destruct (round_winner p s _ w Hok Hin Hw His) as (j & e & He & _ & ->).
  exists j, e. split; [done|].
  simpl in Hlast. rewrite last_snoc in Hlast. injection Hlast as <-. done.
Qed.

Lemma round_never_raises p k s e log :
  lrt_returns_argument → state_ok s → round p k s ≠ RoundRaise e log.
Proof.
  intros Hlrt Hok. unfold round. case_decide as Hparent; [done|].
  destruct (Hlrt (model (best_candidate_so_far s))
              (call_wf_effects_addition (next_id s) (model (best_candidate_so_far s))
                 (candidate_effects s)) p) as [Heq|Hin].
  { exfalso. apply Hparent. by rewrite Heq. }
  destruct (list_find _ _) as [[i w]|] eqn:Hfind.
  - apply list_find_Some in Hfind as (Hi & His & _).
    apply list_elem_of_lookup_2 in Hi.
    destruct (round_winner p s _ w Hok Hin Hi His) as (j & e' & He & _ & ->).
    simpl. by rewrite last_snoc.
  - exfalso. apply elem_of_new_models in Hin as (j & e' & He & Hbm).
    apply list_find_None in Hfind. rewrite Forall_forall in Hfind.
    apply (Hfind (new_candidate p s j e')).
    + apply elem_of_app. right. apply elem_of_round_candidates. by exists j, e'.
    + simpl. by rewrite Hbm.
Qed.

Lemma round_shrinks_pool p k s s' :
  lrt_returns_argument → state_ok s → round p k s = RoundContinue s' →
  length (candidate_effects s') < length (candidate_effects s).
Proof.
  intros Hlrt Hok (j & e & He & ->)%round_continue_inv; [|done..]. simpl.
  apply (length_filter_lt _ _ e); [by eapply list_elem_of_lookup_2|]. tauto.
Qed.

Lemma round_return_inv p k s all log :
  round p k s = RoundReturn all log →
  all = all_candidates_so_far s ++ round_candidates p s
  ∧ log = submitted s ++ [wf_name k]
  ∧ is_ (lrt_best_of_many (model (best_candidate_so_far s))
           (call_wf_effects_addition (next_id s) (model (best_candidate_so_far s))
              (candidate_effects s)) p)
        (model (best_candidate_so_far s)).
Proof.
  unfold round. case_decide as Hparent.
  - intros [= <- <-]. done.
  - destruct (list_find _ _) as [[i w]|]; [|done].
    destruct (last (steps w)); done.
Qed.

(** ** Termination and the number of rounds

    A round is a workflow submitted to [call_workflow]; the run returns the
    names it submitted, so their number is the number of rounds. *)

Lemma search_loop_returns u p n k s :
  lrt_returns_argument → state_ok s →
  (u = true → length (candidate_effects s) < n) →
  ∃ cands log,
    search_loop u p n k s = (Returned cands, log)
    ∧ length log ≤ length (submitted s) + length (candidate_effects s) `min` n.
Proof.
  intros Hlrt. revert k s. induction n as [|n IH]; intros k s Hok Hfuel; simpl.
  - destruct u.
    + specialize (Hfuel eq_refl). lia.
    + eexists _, _. split; [done|]. lia.
  - destruct (candidate_effects s) as [|e0 pool] eqn:Hpool.
    { eexists _, _. split; [done|]. lia. }
    destruct (round p k s) as [all log|e log|s'] eqn:Hround.
    + apply round_return_inv in Hround as (_ & -> & _).
      eexists _, _. split; [done|]. rewrite length_app. simpl. lia.
    + by apply round_never_raises in Hround.
    + pose proof (round_shrinks_pool _ _ _ _ Hlrt Hok Hround) as Hlt.
      pose proof (round_continue_ok _ _ _ _ Hok Hround) as Hok'.
      apply round_continue_shape in Hround as (w & st & _ & _ & _ & Hs').
      rewrite Hpool in Hlt. simpl in Hlt.
      destruct (IH (S k) s' Hok') as (cands & log & Hrun & Hlen).
      { intros Hu. specialize (Hfuel Hu). rewrite ?Hpool in Hfuel.
        simpl in Hfuel. lia. }
      exists cands, log. split; [done|].
      rewrite Hs' in Hlen, Hlt. simpl in Hlen, Hlt.
      rewrite length_app in Hlen. simpl in Hlen. rewrite ?Hpool. simpl. lia.
Qed.

Lemma initial_state_ok effects m : state_ok (initial_state effects m).
Proof.
  split; simpl.
  - intros c ->%list_elem_of_singleton. simpl. lia.
  - left.
Qed.

(** The fuel only cuts [count(1)]: a run that did not exhaust it is the
    same under any larger fuel. *)
Lemma search_loop_more_fuel p n n' k s o log :
  search_loop true p n k s = (o, log) → o ≠ Diverged → n ≤ n' →
  search_loop true p n' k s = (o, log).
Proof.
  revert n' k s. induction n as [|n IH]; intros n' k s; simpl.
  - intros [= <- <-]. done.
  - intros Hrun Hnd Hle. destruct n' as [|n']; [lia|]. simpl.
    destruct (candidate_effects s); [done|].
    destruct (round p k s); [done..|]. apply IH; [done..|lia].
Qed.

(** C1: with a ranking that returns the parent or one of the new models,
    a run with [max_steps >= 0] returns after at most
    [min(|pool|, max_steps)] rounds; a round that selects a winner leaves a
    strictly smaller pool; and an unbounded run ([max_steps < 0]) returns
    after at most [|pool|] rounds, with one and the same result for every
    fuel above [|pool|]. *)
Theorem search_terminates :
  lrt_returns_argument →
  (∀ fuel effects p max_steps m,
     (0 ≤ max_steps)%Z →
     ∃ cands log,
       task_greedy_forward_search fuel effects p max_steps m = (Returned cands, log)
       ∧ length log ≤ length effects `min` Z.to_nat max_steps)
  ∧ (∀ p k s s',
       state_ok s → round p k s = RoundContinue s' →
       length (candidate_effects s') < length (candidate_effects s))
  ∧ (∀ effects p max_steps m,
       (max_steps < 0)%Z →
       ∃ cands log,
         (∀ fuel, length effects < fuel →
            task_greedy_forward_search fuel effects p max_steps m
            = (Returned cands, log))
         ∧ length log ≤ length effects).
Proof.
  intros Hlrt. split_and!.
  - intros fuel effects p max_steps m Hpos. unfold task_greedy_forward_search.
    rewrite (proj2 (Z.leb_le 0 max_steps) Hpos).
    destruct (search_loop_returns false p (Z.to_nat max_steps) 1
                (initial_state effects m) Hlrt (initial_state_ok _ _))
      as (cands & log & Hrun & Hlen); [done|].
    exists cands, log. split; [done|]. simpl in Hlen. lia.
  - intros p k s s' Hok Hround. by eapply round_shrinks_pool.
  - intros effects p max_steps m Hneg. unfold task_greedy_forward_search.
    rewrite (proj2 (Z.leb_gt 0 max_steps) Hneg).
    destruct (search_loop_returns true p (S (length effects)) 1
                (initial_state effects m) Hlrt (initial_state_ok _ _))
      as (cands & log & Hrun & Hlen); [simpl; lia|].
    exists cands, log. split; [|simpl in Hlen; lia].
    intros fuel Hfuel. eapply search_loop_more_fuel; [exact Hrun | done | lia].
Qed.

(** ** The pool after a winner *)

Lemma round_candidates_created p s : created p s (round_candidates p s).
Proof.
  unfold created. rewrite round_candidates_imap, !fmap_imap. split.
  - done.
  - apply list_eq. intros i. rewrite list_lookup_imap, list_lookup_fmap.
    by destruct (candidate_effects s !! i).
Qed.

Lemma created_last_step p s b c st :
  created p s b → c ∈ b → last (steps c) = Some st →
  ∃ e, e ∈ candidate_effects s ∧ st = ForwardStep p (add_effect_of e).
Proof.
  intros [_ Hsteps] Hc Hlast.
  assert (Hin : steps c ∈ steps <$> b) by (apply list_elem_of_fmap; by exists c).
  rewrite Hsteps in Hin. apply list_elem_of_fmap in Hin as (e & He & Hin).
  exists e. split; [done|]. rewrite He, last_snoc in Hlast. by injection Hlast as <-.
Qed.

(** Whatever a round answers, what it adds to the candidates is what it
    created. *)
Lemma round_appends_created p k s all :
  (∃ log, round p k s = RoundReturn all log)
  ∨ (∃ s', round p k s = RoundContinue s' ∧ all = all_candidates_so_far s') →
  ∃ b, all = all_candidates_so_far s ++ b ∧ created p s b.
Proof.
  intros [[log Hret] | (s' & Hcont & ->)]; exists (round_candidates p s).
  - apply round_return_inv in Hret as (-> & _). split; [done|].
    apply round_candidates_created.
  - apply round_continue_shape in Hcont as (w & st & _ & _ & _ & ->). simpl.
    split; [done|]. apply round_candidates_created.
Qed.

Lemma winner_rounds_pool p k s ss k' s' :
  winner_rounds p k s ss k' s' →
  candidate_effects s' `sublist_of` candidate_effects s.
Proof.
  induction 1 as [|k s ss k' s' s'' _ IH _ Hround]; [done|].
  apply round_continue_shape in Hround as (w & st & _ & _ & _ & ->). simpl.
  etrans; [apply sublist_filter | done].
Qed.

(** What a search returns from a state on: the candidates of the state,
    then candidates whose last step is a forward step adding an effect of
    the pool of that state. *)
Lemma search_loop_later_candidates u p n k s all log :
  search_loop u p n k s = (Returned all, log) →
  ∃ later,
    all = all_candidates_so_far s ++ later
    ∧ ∀ c, c ∈ later →
        ∃ e, e ∈ candidate_effects s
             ∧ last (steps c) = Some (ForwardStep p (add_effect_of e)).
Proof.
  revert k s. induction n as [|n IH]; intros k s; simpl.
  - destruct u; [done|]. intros [= <- _]. exists []. split; [by rewrite app_nil_r|].
    intros c Hc. by apply elem_of_nil in Hc.
  - destruct (candidate_effects s) as [|e0 pool] eqn:Hpool.
    { intros [= <- _]. exists []. split; [by rewrite app_nil_r|].
      intros c Hc. by apply elem_of_nil in Hc. }
    assert (Hnew : ∀ c, c ∈ round_candidates p s →
              ∃ e, e ∈ e0 :: pool
                   ∧ last (steps c) = Some (ForwardStep p (add_effect_of e))).
    { intros c (i & e & He & ->)%elem_of_round_candidates. exists e.
      rewrite Hpool in He. split; [by eapply list_elem_of_lookup_2|].
      simpl. apply last_snoc. }
    destruct (round p k s) as [all' log'|e log'|s'] eqn:Hround.
    + intros [= <- <-]. apply round_return_inv in Hround as [-> _].
      by exists (round_candidates p s).
    + done.
    + intros Hrun. destruct (IH _ _ Hrun) as (later & -> & Hlater).
      apply round_continue_shape in Hround as (w & st & _ & _ & _ & ->). simpl in *.
      exists (round_candidates p s ++ later). split; [by rewrite app_assoc|].
      intros c [Hc | Hc]%elem_of_app; [by apply Hnew|].
      destruct (Hlater c Hc) as (e & He & Hlast). exists e. split; [|done].
      rewrite <- Hpool. unfold remaining_effects in He.
      by apply list_elem_of_filter in He as [_ He].
Qed.

(** C3: after a round that selects a winner, whose last step added the
    effect [E], an effect is in the new pool exactly when it was in the pool
    and differs from [E] in parameter or in covariate; the order of the pool
    is kept, and an effect on [E]'s parameter and covariate is gone whatever
    its fp and operation. The loop goes on with this pool: the rest of the
    search is the search from the new state, the pool of every later round
    is a part of it, and no candidate created in a later round, and so no
    candidate that the search returns after those of this round, adds an
    effect on [E]'s parameter and covariate. *)
Theorem winner_filters_pool p k s s' :
  round p k s = RoundContinue s' →
  ∃ last_step,
    last (steps (best_candidate_so_far s')) = Some last_step
    ∧ (∀ e, e ∈ candidate_effects s'
            ↔ e ∈ candidate_effects s
              ∧ ¬ (lit_parameter e = parameter (effect last_step)
                   ∧ lit_covariate e = covariate (effect last_step)))
    ∧ candidate_effects s' `sublist_of` candidate_effects s
    ∧ (∀ e, e ∈ candidate_effects s →
            (e ∉ candidate_effects s'
             ↔ lit_parameter e = parameter (effect last_step)
               ∧ lit_covariate e = covariate (effect last_step)))
    ∧ (∀ prm cov f1 o1 f2 o2,
         (prm, cov, f1, o1) ∈ candidate_effects s →
         effect last_step = AddEffect prm cov f2 o2 →
         (prm, cov, f1, o1) ∉ candidate_effects s')
    ∧ (candidate_effects s ≠ [] →
       ∀ u n, search_loop u p (S n) k s = search_loop u p n (S k) s')
    ∧ (∀ ss k'' s'',
         winner_rounds p (S k) s' ss k'' s'' →
         candidate_effects s'' `sublist_of` candidate_effects s'
         ∧ (∀ e, e ∈ candidate_effects s'' →
                 e ∈ candidate_effects s
                 ∧ ¬ (lit_parameter e = parameter (effect last_step)
                      ∧ lit_covariate e = covariate (effect last_step)))
         ∧ ∀ all,
             (∃ log, round p k'' s'' = RoundReturn all log)
             ∨ (∃ s3, round p k'' s'' = RoundContinue s3
                      ∧ all = all_candidates_so_far s3) →
             ∃ b, all = all_candidates_so_far s'' ++ b
                  ∧ created p s'' b
                  ∧ ∀ c st, c ∈ b → last (steps c) = Some st →
                            ¬ (parameter (effect st) = parameter (effect last_step)
                               ∧ covariate (effect st)
                                 = covariate (effect last_step)))
    ∧ (∀ u n all log,
         search_loop u p n (S k) s' = (Returned all, log) →
         ∃ later,
           all = all_candidates_so_far s' ++ later
           ∧ ∀ c, c ∈ later →
               ∃ e, e ∈ candidate_effects s'
                    ∧ last (steps c) = Some (ForwardStep p (add_effect_of e))
                    ∧ ¬ (lit_parameter e = parameter (effect last_step)
                         ∧ lit_covariate e = covariate (effect last_step))).
Proof.
  intros Hround.
  pose proof Hround as (w & st & _ & _ & Hlast & Hs')%round_continue_shape.
  exists st.
  assert (Hiff : ∀ e, e ∈ candidate_effects s'
            ↔ e ∈ candidate_effects s
              ∧ ¬ (lit_parameter e = parameter (effect st)
                   ∧ lit_covariate e = covariate (effect st))).
  { intros e. rewrite Hs'. simpl. unfold remaining_effects.
    rewrite list_elem_of_filter.
    destruct (decide (lit_parameter e = parameter (effect st)));
      destruct (decide (lit_covariate e = covariate (effect st))); tauto. }
  split_and!.
  - by rewrite Hs'.
  - exact Hiff.
  - rewrite Hs'. apply sublist_filter.
  - intros e He. rewrite Hiff.
    destruct (decide (lit_parameter e = parameter (effect st)));
      destruct (decide (lit_covariate e = covariate (effect st))); tauto.
  - intros prm cov f1 o1 f2 o2 Hin Heff. rewrite Hiff, Heff. simpl.
    unfold lit_parameter, lit_covariate. simpl. tauto.
  - intros Hpool u n. simpl. rewrite Hround. by destruct (candidate_effects s).
  - intros ss k'' s'' Hlater.
    pose proof (winner_rounds_pool _ _ _ _ _ _ Hlater) as Hsub.
    assert (Hpool : ∀ e, e ∈ candidate_effects s'' →
              e ∈ candidate_effects s
              ∧ ¬ (lit_parameter e = parameter (effect st)
                   ∧ lit_covariate e = covariate (effect st))).
    { intros e He. apply Hiff. by eapply sublist_subseteq. }
    split_and!; [done | done |].
    intros all Hall. destruct (round_appends_created _ _ _ _ Hall) as (b & -> & Hb).
    exists b. split_and!; [done..|].
    intros c st' Hc Hst'.
    destruct (created_last_step _ _ _ _ _ Hb Hc Hst') as (e & He & ->).
    destruct (Hpool e He) as [_ Hne]. exact Hne.
  - intros u n all log Hrun.
    destruct (search_loop_later_candidates _ _ _ _ _ _ _ Hrun)
      as (later & -> & Hlater).
    exists later. split; [done|]. intros c Hc.
    destruct (Hlater c Hc) as (e & He & Hstep). exists e.
    split_and!; [done | done |]. by apply Hiff in He as [_ Hne].
Qed.

(** ** Return with the full history *)

Lemma rounds_all p k s bs k' s' :
  rounds p k s bs k' s' →
  all_candidates_so_far s' = all_candidates_so_far s ++ concat bs.
Proof.
  induction 1 as [|k s bs k' s' s'' _ IH _ Hround]; simpl.
  - by rewrite app_nil_r.
  - apply round_continue_shape in Hround as (w & st & _ & _ & _ & ->). simpl.
    rewrite IH, concat_app. simpl. by rewrite app_nil_r, app_assoc.
Qed.

Lemma rounds_loop p k s bs k' s' :
  rounds p k s bs k' s' →
  ∀ u n, search_loop u p (length bs + n) k s = search_loop u p n k' s'.
Proof.
  induction 1 as [|k s bs k' s' s'' _ IH Hpool Hround]; intros u n; [done|].
  rewrite length_app. simpl.
  replace (length bs + 1 + n) with (length bs + S n) by lia.
  rewrite IH. simpl. destruct (candidate_effects s'); [done|]. by rewrite Hround.
Qed.

Lemma rounds_submitted p k s bs k' s' :
  rounds p k s bs k' s' →
  k' = k + length bs
  ∧ submitted s' = submitted s ++ (wf_name <$> seq k (length bs)).
Proof.
  induction 1 as [|k s bs k' s' s'' _ [-> IH] _ Hround]; simpl.
  - split; [lia | by rewrite app_nil_r].
  - apply round_continue_shape in Hround as (w & st & _ & _ & _ & ->). simpl.
    rewrite length_app. simpl. split; [lia|].
    rewrite IH, seq_app, fmap_app, app_assoc. done.
Qed.

Lemma round_parent_returns p k s :
  is_ (lrt_best_of_many (model (best_candidate_so_far s))
         (call_wf_effects_addition (next_id s) (model (best_candidate_so_far s))
            (candidate_effects s)) p)
      (model (best_candidate_so_far s)) →
  round p k s = RoundReturn (all_candidates_so_far s ++ round_candidates p s)
                            (submitted s ++ [wf_name k]).
Proof. intros Hparent. unfold round. by rewrite decide_True. Qed.

Lemma winner_rounds_batches p k s ss k' s' :
  winner_rounds p k s ss k' s' →
  rounds p k s (round_candidates p <$> ss) k' s'.
Proof.
  induction 1 as [|k s ss k' s' s'' _ IH Hpool Hround]; [constructor|].
  rewrite fmap_app. simpl. by econstructor.
Qed.

(** C2: in any round (after rounds that selected winners and started in the
    states [ss]) in which the ranking returns the parent model itself, the
    loop returns in that round, and the list returned is the starting
    candidate, then the candidates created in every earlier round, then
    those created in the round just rejected: every model that the ranking
    was given in any of these rounds is the model of a returned candidate. *)
Theorem no_improvement_returns_history effects p m ss k s :
  winner_rounds p 1 (initial_state effects m) ss k s →
  candidate_effects s ≠ [] →
  is_ (lrt_best_of_many (model (best_candidate_so_far s))
         (call_wf_effects_addition (next_id s) (model (best_candidate_so_far s))
            (candidate_effects s)) p)
      (model (best_candidate_so_far s)) →
  ∃ bs b,
    Forall2 (created p) ss bs
    ∧ created p s b
    ∧ (∀ u n, search_loop u p (S n) k s
              = (Returned (mkCandidate m [] :: concat bs ++ b),
                 submitted s ++ [wf_name k]))
    ∧ (∀ fuel max_steps,
         (Z.of_nat (length ss) < max_steps)%Z
         ∨ ((max_steps < 0)%Z ∧ length ss < fuel) →
         task_greedy_forward_search fuel effects p max_steps m
         = (Returned (mkCandidate m [] :: concat bs ++ b),
            wf_name <$> seq 1 (S (length ss))))
    ∧ (∀ s0 ranked,
         s0 ∈ ss ++ [s] →
         ranked ∈ call_wf_effects_addition (next_id s0)
                    (model (best_candidate_so_far s0)) (candidate_effects s0) →
         ∃ c, c ∈ mkCandidate m [] :: concat bs ++ b ∧ model c = ranked).
Proof.
  intros Hwinners Hpool Hparent.
  pose proof (winner_rounds_batches _ _ _ _ _ _ Hwinners) as Hrounds.
  set (bs := round_candidates p <$> ss) in *.
  assert (Hlen : length bs = length ss) by apply length_fmap.
  assert (Hbs : Forall2 (created p) ss bs).
  { apply Forall2_fmap_r, Forall_Forall2_diag, Forall_forall.
    intros s0 _. apply round_candidates_created. }
  assert (Hnow : ∀ u n, search_loop u p (S n) k s
          = (Returned (all_candidates_so_far s ++ round_candidates p s),
             submitted s ++ [wf_name k])).
  { intros u n. simpl. rewrite (round_parent_returns p k s Hparent).
    by destruct (candidate_effects s). }
  pose proof (rounds_all _ _ _ _ _ _ Hrounds) as Hall. simpl in Hall.
  pose proof (rounds_submitted _ _ _ _ _ _ Hrounds) as [Hk Hlog]. simpl in Hlog.
  exists bs, (round_candidates p s).
  split_and!; [done | apply round_candidates_created | | |].
  - intros u n. by rewrite Hnow, Hall.
  - intros fuel max_steps Hsteps. unfold task_greedy_forward_search.
    assert (Hres : (Returned (all_candidates_so_far s ++ round_candidates p s),
                    submitted s ++ [wf_name k])
            = (Returned (mkCandidate m [] :: concat bs ++ round_candidates p s),
               wf_name <$> seq 1 (S (length ss)))).
    { rewrite Hall, Hlog, Hk, Hlen, seq_S, fmap_app. done. }
    destruct (0 <=? max_steps)%Z eqn:Hsign.
    + apply Z.leb_le in Hsign.
      replace (Z.to_nat max_steps)
        with (length bs + S (Z.to_nat max_steps - S (length bs))) by lia.
      by rewrite (rounds_loop _ _ _ _ _ _ Hrounds), Hnow.
    + apply Z.leb_gt in Hsign.
      replace fuel with (length bs + S (fuel - S (length bs))) by lia.
      by rewrite (rounds_loop _ _ _ _ _ _ Hrounds), Hnow.
  - intros s0 ranked Hs0 Hranked.
    assert (Hbatch : ∃ b0, created p s0 b0
                           ∧ ∀ c, c ∈ b0 → c ∈ concat bs ++ round_candidates p s).
    { apply elem_of_app in Hs0 as [Hs0 | ->%list_elem_of_singleton].
      - exists (round_candidates p s0). split; [apply round_candidates_created|].
        intros c Hc. apply elem_of_app. left.
        apply list_elem_of_In, in_concat. exists (round_candidates p s0).
        split; [|by apply list_elem_of_In].
        apply list_elem_of_In, list_elem_of_fmap. by exists s0.
      - exists (round_candidates p s). split; [apply round_candidates_created|].
        intros c Hc. apply elem_of_app. by right. }
    destruct Hbatch as (b0 & [Hmodels _] & Hin).
    rewrite <- Hmodels in Hranked.
    apply list_elem_of_fmap in Hranked as (c & -> & Hc).
    exists c. split; [right; by apply Hin | done].
Qed.

(** ** Provenance of the returned candidates *)

Lemma initial_history m : history_ok m [mkCandidate m []].
Proof.
  split.
  - done.
  - intros [|i] c; simpl; [intros [= <-]; done | intros H; inv H].
  - intros [|i] c; simpl; [intros [= <-]; done | intros H; inv H].
  - intros c ->%list_elem_of_singleton. constructor.
Qed.

Lemma history_extend m p s :
  history_ok m (all_candidates_so_far s) →
  best_candidate_so_far s ∈ all_candidates_so_far s →
  history_ok m (all_candidates_so_far s ++ round_candidates p s).
Proof.
  intros [Hhead Hstart Hparent Hfwd] Hbest.
  assert (Hlen : 0 < length (all_candidates_so_far s)) by by eapply lookup_lt_Some.
  split.
  - by apply lookup_app_l_Some.
  - intros i c [Hold | [Hge Hnew]]%lookup_app_Some; [by apply Hstart|].
    apply list_elem_of_lookup_2, elem_of_round_candidates in Hnew
      as (i' & e & _ & ->). simpl.
    split; [|lia]. intros Hnil. by destruct (steps (best_candidate_so_far s)).
  - intros i c [Hold | [Hge Hnew]]%lookup_app_Some Hsteps.
    + destruct (Hparent i c Hold Hsteps) as (j & c' & Hj & Hc' & Hname).
      exists j, c'. split_and!; [done | by apply lookup_app_l_Some | done].
    + apply list_elem_of_lookup_2, elem_of_round_candidates in Hnew
        as (i' & e & _ & ->).
      apply list_elem_of_lookup in Hbest as [j Hj].
      exists j, (best_candidate_so_far s). split_and!.
      * apply lookup_lt_Some in Hj. lia.
      * by apply lookup_app_l_Some.
      * done.
  - intros c [Hold | (i' & e & _ & ->)%elem_of_round_candidates]%elem_of_app.
    + by apply Hfwd.
    + simpl. apply Forall_app. split; [by apply Hfwd|]. by constructor.
Qed.

Lemma search_loop_history u p n k s m cands log :
  history_ok m (all_candidates_so_far s) →
  best_candidate_so_far s ∈ all_candidates_so_far s →
  search_loop u p n k s = (Returned cands, log) →
  history_ok m cands.
Proof.
  revert k s. induction n as [|n IH]; intros k s Hhist Hbest; simpl.
  - destruct u; [done|]. by intros [= <- _].
  - destruct (candidate_effects s) as [|e0 pool] eqn:Hpool; [by intros [= <- _]|].
    destruct (round p k s) as [all log'|e log'|s'] eqn:Hround.
    + intros [= <- _]. apply round_return_inv in Hround as (-> & _).
      by apply history_extend.
    + done.
    + apply round_continue_shape in Hround as (w & st & Hw & _ & _ & ->).
      apply IH; simpl; [by apply history_extend | done].
Qed.


(** ** The names of the candidates are pairwise different *)

Lemma string_app_cons c (s t : string) : String c s +:+ t = String c (s +:+ t).
Proof. reflexivity. Qed.

Lemma string_app_assoc (s t u : string) : (s +:+ t) +:+ u = s +:+ (t +:+ u).
Proof.
  induction s as [|c s IH]; [done|]. rewrite !string_app_cons. by rewrite IH.
Qed.

Lemma string_length_app (s t : string) :
  String.length (s +:+ t) = String.length s + String.length t.
Proof.
  induction s as [|c s IH]; [done|]. rewrite string_app_cons. simpl. by rewrite IH.
Qed.

Lemma has_dash_app (s t : string) : has_dash (s +:+ t) = has_dash s || has_dash t.
Proof.
  induction s as [|c s IH]; [done|]. rewrite string_app_cons. simpl.
  by rewrite IH, orb_assoc.
Qed.

Lemma has_dash_pretty_N_go x s : has_dash (pretty_N_go x s) = has_dash s.
Proof.
  revert s. induction (N.lt_wf_0 x) as [x _ IH]; intros s.
  assert (x = 0 ∨ 0 < x)%N as [->|Hpos] by lia.
  - by rewrite pretty_N_go_0.
  - rewrite pretty_N_go_step by done. rewrite IH by (by apply N.div_lt).
    simpl. unfold pretty_N_char. by repeat case_match.
Qed.

Lemma has_dash_pretty_nat (n : nat) : has_dash (pretty n) = false.
Proof.
  unfold pretty, pretty_nat, pretty, pretty_N. case_decide; [done|].
  by rewrite has_dash_pretty_N_go.
Qed.

Lemma name_extends_irrefl n : ¬ name_extends n n.
Proof.
  intros [t Ht]. apply (f_equal String.length) in Ht.
  rewrite !string_length_app in Ht. simpl in Ht. lia.
Qed.

Lemma new_candidate_name p s i e :
  name (model (new_candidate p s i e))
  = name (model (best_candidate_so_far s)) +:+ "-" +:+ pretty (S i).
Proof. done. Qed.

Lemma round_candidates_names_nodup p s :
  NoDup (names_of (round_candidates p s)).
Proof.
  unfold names_of. rewrite round_candidates_imap. apply NoDup_alt.
  intros i j n Hi Hj. rewrite list_lookup_fmap, list_lookup_imap in Hi, Hj.
  destruct (candidate_effects s !! i) as [ei|]; [|done].
  destruct (candidate_effects s !! j) as [ej|]; [|done].
  simpl in Hi, Hj. injection Hi as <-. injection Hj as Hj.
  apply (inj (String.app _)), (inj (String.app _)), (inj pretty) in Hj. lia.
Qed.

Lemma initial_names_ok effects m : names_ok (initial_state effects m).
Proof.
  split; simpl.
  - apply NoDup_singleton.
  - intros c ->%list_elem_of_singleton. simpl. apply name_extends_irrefl.
Qed.

Lemma round_names_nodup p s :
  names_ok s →
  NoDup (names_of (all_candidates_so_far s ++ round_candidates p s)).
Proof.
  intros [Hnd Hfresh]. unfold names_of. rewrite fmap_app. apply NoDup_app.
  split_and!; [done | | apply round_candidates_names_nodup].
  intros n [c [-> Hc]]%list_elem_of_fmap
    [c' [Hn (i & e & _ & ->)%elem_of_round_candidates]]%list_elem_of_fmap.
  apply (Hfresh c Hc). rewrite Hn, new_candidate_name. by eexists.
Qed.

Lemma round_continue_names_ok p k s s' :
  lrt_returns_argument → state_ok s → names_ok s →
  round p k s = RoundContinue s' → names_ok s'.
Proof.
  intros Hlrt Hok Hnames (j & e & He & ->)%round_continue_inv; [|done..].
  split; simpl.
  - by apply round_names_nodup.
  - intros c Hc Hext. rewrite ?new_candidate_name in Hext.
    apply elem_of_app in Hc as [Hc | (i & e' & _ & ->)%elem_of_round_candidates].
    + apply (names_fresh _ Hnames c Hc).
      destruct Hext as [t Ht]. exists (pretty (S j) +:+ "-" +:+ t).
      rewrite Ht, !string_app_assoc. done.
    + rewrite ?new_candidate_name in Hext. destruct Hext as [t Ht].
      rewrite !string_app_assoc in Ht.
      apply (inj (String.app _)), (inj (String.app _)) in Ht.
      apply (f_equal has_dash) in Ht.
      rewrite !has_dash_app, !has_dash_pretty_nat in Ht. done.
Qed.

(** ** When the assertion of the steps summary holds *)

Lemma names_of_inj cands c1 c2 :
  NoDup (names_of cands) → c1 ∈ cands → c2 ∈ cands →
  name (model c1) = name (model c2) → c1 = c2.
Proof.
  intros Hnd [i Hi]%list_elem_of_lookup [j Hj]%list_elem_of_lookup Hname.
  assert (i = j) as ->; [|congruence].
  apply (proj1 (NoDup_alt _) Hnd i j (name (model c1))); unfold names_of;
    rewrite list_lookup_fmap; [by rewrite Hi | by rewrite Hj, Hname].
Qed.

Lemma significant_mono p cands cands' c :
  cands ⊆ cands' → significant p cands c → significant p cands' c.
Proof. intros Hsub (pb & Hpb & Hname & Hp). exists pb. auto. Qed.

Lemma round_continue_winner p k s s' :
  lrt_returns_argument → state_ok s → round p k s = RoundContinue s' →
  ∃ j e,
    candidate_effects s !! j = Some e
    ∧ best_candidate_so_far s' = new_candidate p s j e
    ∧ all_candidates_so_far s' = all_candidates_so_far s ++ round_candidates p s
    ∧ lrt_best_of_many (model (best_candidate_so_far s))
        (call_wf_effects_addition (next_id s) (model (best_candidate_so_far s))
           (candidate_effects s)) p
      = new_model s j e
    ∧ ¬ is_ (new_model s j e) (model (best_candidate_so_far s)).
Proof.
  intros Hlrt Hok Hround.
  pose proof Hround as (w & st & Hw & His & Hlast & ->)%round_continue_shape.
  unfold round in Hround. case_decide as Hparent; [done|]. clear Hround.
  destruct (Hlrt (model (best_candidate_so_far s))
              (call_wf_effects_addition (next_id s) (model (best_candidate_so_far s))
                 (candidate_effects s)) p) as [Heq|Hin].
  { exfalso. apply Hparent. by rewrite Heq. }
  destruct (round_winner p s _ w Hok Hin Hw His) as (j & e & He & Hbm & ->).
  exists j, e. simpl. split_and!; [done..|]. by rewrite <- Hbm.
Qed.

Lemma summary_extend p s :
  summary_ok p (all_candidates_so_far s) → names_ok s →
  best_candidate_so_far s ∈ all_candidates_so_far s →
  steps (best_candidate_so_far s) = []
  ∨ significant p (all_candidates_so_far s) (best_candidate_so_far s) →
  summary_ok p (all_candidates_so_far s ++ round_candidates p s).
Proof.
  intros [Hnames Halpha Hparent Hsig] Hnok Hbest Hbsig.
  pose proof (round_names_nodup p s Hnok) as Hnd.
  assert (Hsub : all_candidates_so_far s
                 ⊆ all_candidates_so_far s ++ round_candidates p s).
  { intros c Hc. apply elem_of_app. by left. }
  split.
  - done.
  - intros c [Hc | (i & e & _ & ->)%elem_of_round_candidates]%elem_of_app Hsteps.
    + by apply Halpha.
    + simpl. by rewrite last_snoc.
  - intros c [Hc | (i & e & _ & ->)%elem_of_round_candidates]%elem_of_app Hsteps.
    + destruct (Hparent c Hc Hsteps) as (b & Hb & Hname). exists b. auto.
    + exists (best_candidate_so_far s). auto.
  - intros c b Hc Hsteps Hb Hname.
    apply elem_of_app in Hc as [Hc | (i & e & _ & ->)%elem_of_round_candidates].
    + destruct (Hparent c Hc Hsteps) as (b0 & Hb0 & Hname0).
      assert (b = b0) as ->.
      { apply (names_of_inj _ _ _ Hnd Hb (Hsub _ Hb0)). congruence. }
      destruct (Hsig c b0 Hc Hsteps Hb0 Hname0) as [?|?]; [by left|].
      right. by eapply significant_mono.
    + assert (b = best_candidate_so_far s) as ->.
      { apply (names_of_inj _ _ _ Hnd Hb (Hsub _ Hbest)).
        simpl in Hname. congruence. }
      destruct Hbsig as [?|?]; [by left|]. right. by eapply significant_mono.
Qed.

Lemma search_loop_summary u p n k s cands log :
  lrt_returns_argument → lrt_selects_significant →
  state_ok s → names_ok s → summary_ok p (all_candidates_so_far s) →
  steps (best_candidate_so_far s) = []
  ∨ significant p (all_candidates_so_far s) (best_candidate_so_far s) →
  search_loop u p n k s = (Returned cands, log) →
  summary_ok p cands.
Proof.
  intros Hlrt Hsel. revert k s.
  induction n as [|n IH]; intros k s Hok Hnok Hsum Hbsig; simpl.
  - destruct u; [done|]. by intros [= <- _].
  - destruct (candidate_effects s) as [|e0 pool] eqn:Hpool; [by intros [= <- _]|].
    destruct (round p k s) as [all log'|e log'|s'] eqn:Hround.
    + intros [= <- _]. apply round_return_inv in Hround as (-> & _).
      apply summary_extend; [done.. | apply Hok | done].
    + done.
    + pose proof (round_continue_ok _ _ _ _ Hok Hround) as Hok'.
      pose proof (round_continue_names_ok _ _ _ _ Hlrt Hok Hnok Hround) as Hnok'.
      destruct (round_continue_winner _ _ _ _ Hlrt Hok Hround)
        as (j & e & He & Hbest' & Hall' & Hbm & Hnot).
      apply IH; [done | done | |].
      * rewrite Hall'. apply summary_extend; [done.. | apply Hok | done].
      * right. rewrite Hbest', Hall'. exists (best_candidate_so_far s).
        split_and!.
        -- apply elem_of_app. left. apply Hok.
        -- done.
        -- change (model (new_candidate p s j e)) with (new_model s j e).
           rewrite <- Hbm. apply Hsel. by rewrite Hbm.
Qed.

Lemma initial_summary_ok p effects m :
  summary_ok p (all_candidates_so_far (initial_state effects m)).
Proof.
  split; simpl.
  - apply NoDup_singleton.
  - by intros c ->%list_elem_of_singleton.
  - by intros c ->%list_elem_of_singleton.
  - by intros c b ->%list_elem_of_singleton.
Qed.

Lemma models_dict_lookup cands c :
  NoDup (names_of cands) → c ∈ cands →
  models_dict_of cands !! name (model c) = Some (model c).
Proof.
  unfold models_dict_of. generalize (∅ : gmap string Model) as d.
  induction cands as [|a cands IH]; intros d Hnd Hc; [inv Hc|].
  simpl in *. apply NoDup_cons in Hnd as [Ha Hnd].
  apply elem_of_cons in Hc as [->|Hc]; [|by apply IH].
  clear IH. revert d. induction cands as [|b cands IH]; intros d; simpl.
  - apply lookup_insert_eq.
  - apply not_elem_of_cons in Ha as [Hab Ha]. apply NoDup_cons in Hnd as [_ Hnd].
    rewrite insert_insert_ne by done. by apply IH.
Qed.

Lemma children_count_pos cands n :
  1 ≤ count_of (children_count_of cands) n →
  ∃ c, c ∈ cands ∧ parent_model (model c) = Some n.
Proof.
  unfold count_of, children_count_of.
  assert (H : ∀ cnt : gmap (option string) nat,
    1 ≤ default 0
          (foldl (λ cnt c,
                    <[parent_model (model c)
                      := S (default 0 (cnt !! parent_model (model c)))]> cnt)
                 cnt cands !! Some n) →
    1 ≤ default 0 (cnt !! Some n)
    ∨ ∃ c, c ∈ cands ∧ parent_model (model c) = Some n).
  { induction cands as [|a cands IH]; intros cnt Hpos; simpl in *; [by left|].
    destruct (IH _ Hpos) as [Hins | (c & Hc & Hn)].
    - destruct (decide (parent_model (model a) = Some n)) as [Ha|Ha].
      + right. exists a. split; [left | done].
      + left. by rewrite lookup_insert_ne in Hins.
    - right. exists c. split; [by right | done]. }
  intros Hpos. destruct (H ∅ Hpos) as [Hempty|?]; [|done].
  rewrite lookup_empty in Hempty. simpl in Hempty. lia.
Qed.

(** With a ranking that selects only significant models, a start model
    whose [parent_model] names no candidate that was built, and a final best
    model that is the start model or significant, no row of the steps
    summary fails the assertion. *)
Lemma selected_rows_are_significant fuel effects p max_steps m cands log best_model :
  lrt_returns_argument → lrt_selects_significant →
  task_greedy_forward_search fuel effects p max_steps m = (Returned cands, log) →
  (∀ c, c ∈ cands → steps c ≠ [] → parent_model m ≠ Some (name (model c))) →
  (∀ c, c ∈ cands → is_ (model c) best_model →
        steps c = [] ∨ significant p cands c) →
  ∀ c, c ∈ cands → steps c ≠ [] →
    _marke_df_steps_row lrt_p_value (models_dict_of cands) (children_count_of cands)
      best_model c ≠ inl AssertionError.
Proof.
  intros Hlrt Hsel Hrun Hstart Hbest c Hc Hsteps.
  assert (Hsum : summary_ok p cands ∧ history_ok m cands).
  { unfold task_greedy_forward_search in Hrun.
    destruct (0 <=? max_steps)%Z;
      (split;
       [ eapply search_loop_summary; [done | done | | | | | exact Hrun];
         [apply initial_state_ok | apply initial_names_ok
          | apply initial_summary_ok | by left]
       | eapply search_loop_history; [| | exact Hrun]; simpl;
         [apply initial_history | left] ]). }
  destruct Hsum as [[Hnames Halpha Hparent Hsig] [Hhead Hempty _ _]].
  destruct (Hparent c Hc Hsteps) as (b & Hb & Hpname).
  unfold _marke_df_steps_row. rewrite Hpname. simpl.
  rewrite (models_dict_lookup cands b Hnames Hb).
  destruct (modelfit_results (model b)); [|done].
  destruct (modelfit_results (model c)); [|done].
  pose proof (Halpha c Hc Hsteps) as Hlast.
  destruct (last (steps c)) as [st|]; [|done]. simpl in Hlast. injection Hlast as Hst.
  assert (Hgoal : steps c = [] ∨ significant p cands c →
                  PrimFloat.leb (lrt_p_value (model b) (model c)) (alpha st) = true).
  { intros [?|(pb & Hpb & Hpbname & Hp)]; [done|].
    assert (pb = b) as ->.
    { apply (names_of_inj cands); [done..|]. congruence. }
    by rewrite Hst. }
  destruct (bool_decide (1 ≤ count_of (children_count_of cands) (name (model c))))
    eqn:Hcount; simpl.
  - apply bool_decide_eq_true in Hcount.
    apply children_count_pos in Hcount as (c' & Hc' & Hc'name).
    destruct (decide (steps c' = [])) as [Hnil|Hne].
    + exfalso. apply list_elem_of_lookup in Hc' as [i Hi].
      pose proof (proj1 (Hempty i c' Hi) Hnil) as ->.
      rewrite Hhead in Hi. injection Hi as <-. simpl in Hc'name.
      by apply (Hstart c Hc Hsteps).
    + rewrite Hgoal; [done|]. by apply (Hsig c' c).
  - destruct (bool_decide (is_ (model c) best_model)) eqn:Hisbest; simpl; [|done].
    apply bool_decide_eq_true in Hisbest. rewrite Hgoal; [done|]. by apply Hbest.
Qed.

Lemma collect_rows_error rows e : collect_rows rows = inl e → inl e ∈ rows.
Proof.
  induction rows as [|[e'|r] rows IH]; simpl; [done| |].
  - intros [= ->]. left.
  - destruct (collect_rows rows); [|done]. intros [= ->]. right. by apply IH.
Qed.

Lemma make_df_steps_error best_model cands e :
  _make_df_steps lrt_p_value best_model cands = inl e →
  inl e ∈ (λ c, _marke_df_steps_row lrt_p_value (models_dict_of cands)
                  (children_count_of cands) best_model c)
            <$> filter (λ c, steps c ≠ []) cands.
Proof.
  unfold _make_df_steps. intros Herr. apply collect_rows_error.
  by destruct (collect_rows _) as [e'|data]; [injection Herr as ->|].
Qed.

Lemma make_df_steps_assertion_holds fuel effects p max_steps m cands log best_model :
  lrt_returns_argument → lrt_selects_significant →
  task_greedy_forward_search fuel effects p max_steps m = (Returned cands, log) →
  (∀ c, c ∈ cands → steps c ≠ [] → parent_model m ≠ Some (name (model c))) →
  (∀ c, c ∈ cands → is_ (model c) best_model →
        steps c = [] ∨ significant p cands c) →
  _make_df_steps lrt_p_value best_model cands ≠ inl AssertionError.
Proof.
  intros Hlrt Hsel Hrun Hstart Hbest Herr.
  apply make_df_steps_error, list_elem_of_fmap in Herr as [c [Hrow Hc]].
  apply list_elem_of_filter in Hc as [Hsteps Hc].
  by eapply (selected_rows_are_significant fuel effects p max_steps m cands log).
Qed.

(** ** Invariants of the loop, in general *)

(** A property of the state that every round with a winner keeps gives a
    property of every list the loop returns. *)
Lemma search_loop_invariant (p : float) (I : SearchState → Prop)
    (Q : list Candidate → Prop) :
  (∀ s, I s → Q (all_candidates_so_far s)) →
  (∀ s, I s → Q (all_candidates_so_far s ++ round_candidates p s)) →
  (∀ k s s', I s → round p k s = RoundContinue s' → I s') →
  ∀ u n k s cands log,
    I s → search_loop u p n k s = (Returned cands, log) → Q cands.
Proof.
  intros Hall Hret Hcont u n. induction n as [|n IH]; intros k s cands log HI; simpl.
  - destruct u; [done|]. intros [= <- _]. by apply Hall.
  - destruct (candidate_effects s) as [|e0 pool] eqn:Hpool.
    { intros [= <- _]. by apply Hall. }
    destruct (round p k s) as [all log'|e log'|s'] eqn:Hround.
    + intros [= <- _]. apply round_return_inv in Hround as (-> & _). by apply Hret.
    + done.
    + apply IH. by eapply Hcont.
Qed.

Lemma search_invariant (p : float) (I : SearchState → Prop)
    (Q : list Candidate → Prop) fuel effects max_steps m cands log :
  (∀ s, I s → Q (all_candidates_so_far s)) →
  (∀ s, I s → Q (all_candidates_so_far s ++ round_candidates p s)) →
  (∀ k s s', I s → round p k s = RoundContinue s' → I s') →
  I (initial_state effects m) →
  task_greedy_forward_search fuel effects p max_steps m = (Returned cands, log) →
  Q cands.
Proof.
  intros Hall Hret Hcont Hinit Hrun. unfold task_greedy_forward_search in Hrun.
  destruct (0 <=? max_steps)%Z;
    by eapply (search_loop_invariant p I Q Hall Hret Hcont _ _ _ _ _ _ Hinit).
Qed.

(** ** Names and identities of the returned candidates *)

Definition ids_of (cands : list Candidate) : list nat :=
  (λ c, model_id (model c)) <$> cands.

Lemma round_ids_nodup p s :
  state_ok s → NoDup (ids_of (all_candidates_so_far s)) →
  NoDup (ids_of (all_candidates_so_far s ++ round_candidates p s)).
Proof.
  intros [Hids _] Hnd. unfold ids_of. rewrite fmap_app. apply NoDup_app.
  split_and!; [done | |].
  - intros n [c [-> Hc]]%list_elem_of_fmap
      [c' [Hn (i & e & _ & ->)%elem_of_round_candidates]]%list_elem_of_fmap.
    specialize (Hids c Hc). simpl in Hn. lia.
  - rewrite round_candidates_imap. apply NoDup_alt.
    intros i j n Hi Hj. rewrite list_lookup_fmap, list_lookup_imap in Hi, Hj.
    destruct (candidate_effects s !! i) as [ei|]; [|done].
    destruct (candidate_effects s !! j) as [ej|]; [|done].
    simpl in Hi, Hj. injection Hi as <-. injection Hj as Hj. lia.
Qed.

Lemma search_names_nodup fuel effects p max_steps m cands log :
  lrt_returns_argument →
  task_greedy_forward_search fuel effects p max_steps m = (Returned cands, log) →
  NoDup (names_of cands) ∧ NoDup (ids_of cands).
Proof.
  intros Hlrt Hrun.
  apply (search_invariant p
           (λ s, state_ok s ∧ names_ok s ∧ NoDup (ids_of (all_candidates_so_far s)))
           (λ l, NoDup (names_of l) ∧ NoDup (ids_of l))
           fuel effects max_steps m cands log); [| | | |done].
  - intros s (_ & Hn & Hi). split; [apply Hn | done].
  - intros s (Hok & Hn & Hi). split; [by apply round_names_nodup|].
    by apply round_ids_nodup.
  - intros k s s' (Hok & Hn & Hi) Hround. split_and!.
    + by eapply round_continue_ok.
    + by eapply round_continue_names_ok.
    + apply round_continue_shape in Hround as (w & st & _ & _ & _ & ->). simpl.
      by apply round_ids_nodup.
  - split_and!; [apply initial_state_ok | apply initial_names_ok|].
    apply NoDup_singleton.
Qed.

(** X1: with a ranking that returns the parent or one of the new models,
    the models of the returned candidates have pairwise different names and
    are pairwise different objects, so the name-keyed [models_dict] of the
    steps summary loses no model. *)
Theorem returned_names_distinct fuel effects p max_steps m cands log :
  lrt_returns_argument →
  task_greedy_forward_search fuel effects p max_steps m = (Returned cands, log) →
  NoDup (names_of cands) ∧ NoDup (ids_of cands)
  ∧ ∀ c, c ∈ cands → models_dict_of cands !! name (model c) = Some (model c).
Proof.
  intros Hlrt Hrun.
  destruct (search_names_nodup _ _ _ _ _ _ _ Hlrt Hrun) as [Hnames Hids].
  split_and!; [done..|].
  intros c Hc. by apply models_dict_lookup.
Qed.

(** ** Every candidate is its parent plus one forward step *)

(** [built_from p effects b c]: the candidate [c] is the candidate [b]
    extended by one [ForwardStep] at [p] that adds an effect [e] of
    [effects], and its model is the fitted result of
    [task_add_covariate_effect] on the model of [b], for [e] and an index
    [k] between 1 and the number of effects. *)
Definition built_from (p : float) (effects : list EffectLiteral)
    (b c : Candidate) : Prop :=
  ∃ e k,
    e ∈ effects ∧ 1 ≤ k ≤ length effects
    ∧ steps c = steps b ++ [ForwardStep p (add_effect_of e)]
    ∧ model c = fit_model (task_add_covariate_effect (model_id (model c)) (model b) e k).

Definition chain_ok (p : float) (effects : list EffectLiteral)
    (cands : list Candidate) : Prop :=
  ∀ i c, cands !! i = Some c → steps c ≠ [] →
    ∃ j b, j < i ∧ cands !! j = Some b ∧ built_from p effects b c.

Lemma chain_extend p effects s :
  candidate_effects s `sublist_of` effects →
  best_candidate_so_far s ∈ all_candidates_so_far s →
  chain_ok p effects (all_candidates_so_far s) →
  chain_ok p effects (all_candidates_so_far s ++ round_candidates p s).
Proof.
  intros Hsub Hbest Hchain i c [Hold | [Hge Hnew]]%lookup_app_Some Hsteps.
  - destruct (Hchain i c Hold Hsteps) as (j & b & Hj & Hb & Hbuilt).
    exists j, b. split_and!; [done | by apply lookup_app_l_Some | done].
  - rewrite round_candidates_imap, list_lookup_imap in Hnew.
    destruct (candidate_effects s !! (i - length (all_candidates_so_far s)))
      as [e|] eqn:He; [|done].
    injection Hnew as <-.
    apply list_elem_of_lookup in Hbest as [j Hj].
    exists j, (best_candidate_so_far s). split_and!.
    + apply lookup_lt_Some in Hj. lia.
    + by apply lookup_app_l_Some.
    + exists e, (S (i - length (all_candidates_so_far s))). split_and!.
      * eapply sublist_subseteq; [done|]. by eapply list_elem_of_lookup_2.
      * lia.
      * apply lookup_lt_Some in He. apply sublist_length in Hsub. lia.
      * done.
      * done.
Qed.

(** X2: whatever the fit and the ranking do, every returned candidate with
    steps stands after a candidate of the list from which it was built: its
    steps are that candidate's steps plus one [ForwardStep] at [p_forward]
    adding an effect of the input list, and its model is the fitted copy
    made by [task_add_covariate_effect], named after the parent's name, a
    dash and an index between 1 and the number of effects. *)
Theorem returned_candidates_chain fuel effects p max_steps m cands log :
  task_greedy_forward_search fuel effects p max_steps m = (Returned cands, log) →
  ∀ i c, cands !! i = Some c → steps c ≠ [] →
    ∃ j b e k,
      j < i ∧ cands !! j = Some b
      ∧ e ∈ effects ∧ 1 ≤ k ≤ length effects
      ∧ steps c = steps b ++ [ForwardStep p (add_effect_of e)]
      ∧ name (model c) = name (model b) +:+ "-" +:+ pretty k
      ∧ parent_model (model c) = Some (name (model b))
      ∧ description (model c)
        = "add_covariate_effect(<"
            +:+ (if decide (description (model b) = "")
                 then name (model b) else description (model b))
            +:+ ">, " +:+ lit_parameter e +:+ ", " +:+ lit_covariate e
            +:+ ", " +:+ lit_fp e +:+ ", " +:+ lit_operation e +:+ ")".
Proof.
  intros Hrun i c Hi Hsteps.
  assert (Hchain : chain_ok p effects cands).
  { apply (search_invariant p
             (λ s, candidate_effects s `sublist_of` effects
                   ∧ best_candidate_so_far s ∈ all_candidates_so_far s
                   ∧ chain_ok p effects (all_candidates_so_far s))
             (chain_ok p effects) fuel effects max_steps m cands log); [| | | |done].
    - by intros s (_ & _ & ?).
    - intros s (? & ? & ?). by apply chain_extend.
    - intros k s s' (Hsub & Hbest & Hc)
        (w & st & Hw & _ & _ & ->)%round_continue_shape. simpl. split_and!.
      + etrans; [apply sublist_filter | done].
      + done.
      + by apply chain_extend.
    - simpl. split_and!; [done | left |].
      intros [|j] c'; simpl; [by intros [= <-] | intros H; inv H]. }
  destruct (Hchain i c Hi Hsteps) as (j & b & Hj & Hb & e & k & He & Hk & Hst & Hm).
  exists j, b, e, k.
  split; [done|]. split; [done|]. split; [done|]. split; [done|].
  split; [done|]. split_and!; rewrite Hm; [done | done |].
  simpl. by rewrite !string_app_assoc.
Qed.

(** ** No parameter-covariate pair is added twice *)

Definition step_pair (st : Step) : string * string :=
  (parameter (effect st), covariate (effect st)).

Definition lit_pair (e : EffectLiteral) : string * string :=
  (lit_parameter e, lit_covariate e).

Record steps_ok (p : float) (effects : list EffectLiteral) (c : Candidate) : Prop := {
  steps_forward : ∀ st, st ∈ steps c →
    ∃ e, e ∈ effects ∧ st = ForwardStep p (add_effect_of e);
  steps_pairs : NoDup (step_pair <$> steps c)
}.

(** The pool holds no effect on a pair that a candidate already carries
    before its last step, nor on a pair of the best candidate. *)
Record pool_ok (p : float) (effects : list EffectLiteral)
    (cands : list Candidate) (pool : list EffectLiteral) : Prop := {
  pool_sub : pool ⊆ effects;
  pool_steps : ∀ c, c ∈ cands → steps_ok p effects c;
  pool_init : ∀ c l st, c ∈ cands → steps c = l ++ [st] →
    ∀ e, e ∈ pool → lit_pair e ∉ step_pair <$> l
}.

Lemma pool_ok_extend p effects s :
  pool_ok p effects (all_candidates_so_far s) (candidate_effects s) →
  best_candidate_so_far s ∈ all_candidates_so_far s →
  (∀ e, e ∈ candidate_effects s →
        lit_pair e ∉ step_pair <$> steps (best_candidate_so_far s)) →
  pool_ok p effects (all_candidates_so_far s ++ round_candidates p s)
    (candidate_effects s).
Proof.
  intros [Hsub Hsteps Hinit] Hbest Hfree. split; [done | |].
  - intros c [Hc | (i & e & He & ->)%elem_of_round_candidates]%elem_of_app;
      [by apply Hsteps|].
    apply list_elem_of_lookup_2 in He.
    destruct (Hsteps _ Hbest) as [Hfwd Hnd]. split; simpl.
    + intros st [Hst | ->%list_elem_of_singleton]%elem_of_app; [by apply Hfwd|].
      exists e. split; [by apply Hsub | done].
    + rewrite fmap_app. apply NoDup_app. split_and!; [done | | apply NoDup_singleton].
      intros pr Hpr ->%list_elem_of_singleton. by apply (Hfree e He).
  - intros c l st [Hc | (i & e0 & He0 & ->)%elem_of_round_candidates]%elem_of_app
      Hsplit e He; [by eapply Hinit|].
    simpl in Hsplit. apply app_inj_tail in Hsplit as [<- _]. by apply Hfree.
Qed.

Lemma pool_ok_shrink p effects cands pool pool' :
  pool' ⊆ pool → pool_ok p effects cands pool → pool_ok p effects cands pool'.
Proof.
  intros Hsub [Hs Hsteps Hinit]. split; [by etrans | done |].
  intros c l st Hc Hsplit e He. eapply Hinit; [done.. | by apply Hsub].
Qed.

Lemma search_steps_ok fuel effects p max_steps m cands log :
  task_greedy_forward_search fuel effects p max_steps m = (Returned cands, log) →
  ∀ c, c ∈ cands → steps_ok p effects c.
Proof.
  intros Hrun.
  apply (search_invariant p
    (λ s, pool_ok p effects (all_candidates_so_far s) (candidate_effects s)
          ∧ best_candidate_so_far s ∈ all_candidates_so_far s
          ∧ ∀ e, e ∈ candidate_effects s →
                 lit_pair e ∉ step_pair <$> steps (best_candidate_so_far s))
    (λ l, ∀ c, c ∈ l → steps_ok p effects c)
    fuel effects max_steps m cands log); [| | | |done].
  - intros s ([_ Hsteps _] & _). done.
  - intros s (Hpool & Hbest & Hfree).
    by destruct (pool_ok_extend p effects s Hpool Hbest Hfree).
  - intros k s s' (Hpool & Hbest & Hfree)
      (w & st & Hw & _ & Hlast & ->)%round_continue_shape. simpl.
    pose proof (pool_ok_extend p effects s Hpool Hbest Hfree) as Hext.
    assert (Hsub : remaining_effects (parameter (effect st)) (covariate (effect st))
                     (candidate_effects s) ⊆ candidate_effects s).
    { intros e [_ He]%list_elem_of_filter. done. }
    split_and!; [by eapply pool_ok_shrink | done |].
    intros e [Hne He]%list_elem_of_filter.
    apply last_Some in Hlast as [l Hl]. rewrite Hl, fmap_app.
    intros [Hin | Heq%list_elem_of_singleton]%elem_of_app.
    + by apply (pool_init _ _ _ _ Hext w l st Hw Hl e He).
    + unfold lit_pair, step_pair in Heq. injection Heq as Hp Hc.
      by destruct Hne as [Hne | Hne]; apply Hne.
  - simpl. split_and!; [|left|].
    + split; [done | |].
      * intros c ->%list_elem_of_singleton. split; simpl; [|constructor].
        intros st Hst. by apply elem_of_nil in Hst.
      * intros c l st ->%list_elem_of_singleton Hnil. simpl in Hnil.
        by destruct l.
    + intros e _ Hin. by apply elem_of_nil in Hin.
Qed.

(** X3: whatever the fit and the ranking do, every step of a returned
    candidate is a [ForwardStep] at [p_forward] that adds an effect of the
    input list, and no two steps of one candidate are on the same
    (parameter, covariate) pair; a candidate has at most as many steps as
    there are effects. *)
Theorem returned_steps_distinct_pairs fuel effects p max_steps m cands log :
  task_greedy_forward_search fuel effects p max_steps m = (Returned cands, log) →
  ∀ c, c ∈ cands →
    (∀ st, st ∈ steps c → ∃ e, e ∈ effects ∧ st = ForwardStep p (add_effect_of e))
    ∧ NoDup (step_pair <$> steps c)
    ∧ length (steps c) ≤ length effects.
Proof.
  intros Hrun c Hc.
  destruct (search_steps_ok _ _ _ _ _ _ _ Hrun c Hc) as [Hfwd Hnd].
  split_and!; [done..|].
  rewrite <- (length_fmap step_pair), <- (length_fmap lit_pair effects).
  apply submseteq_length, NoDup_submseteq; [done|].
  intros pr [st [-> Hst]]%list_elem_of_fmap.
  destruct (Hfwd st Hst) as (e & He & ->). apply list_elem_of_fmap. by exists e.
Qed.

(** ** How many models a search fits *)

Lemma search_loop_count u p n k s cands log :
  search_loop u p n k s = (Returned cands, log) →
  ∃ r, length log = length (submitted s) + r
       ∧ length (all_candidates_so_far s) ≤ length cands
       ∧ length cands
         ≤ length (all_candidates_so_far s) + r * length (candidate_effects s).
Proof.
  revert k s. induction n as [|n IH]; intros k s; simpl.
  - destruct u; [done|]. intros [= <- <-]. exists 0. lia.
  - destruct (candidate_effects s) as [|e0 pool] eqn:Hpool.
    { intros [= <- <-]. exists 0. lia. }
    destruct (round p k s) as [all log'|e log'|s'] eqn:Hround.
    + intros [= <- <-]. apply round_return_inv in Hround as (-> & -> & _).
      exists 1. rewrite !length_app, length_round_candidates, Hpool. simpl. lia.
    + done.
    + intros Hrun. destruct (IH _ _ Hrun) as (r & Hlog & Hlo & Hhi).
      apply round_continue_shape in Hround as (w & st & _ & _ & _ & ->).
      simpl in *. rewrite !length_app, length_round_candidates in *. simpl in *.
      pose proof (length_filter
        (λ e, lit_parameter e ≠ parameter (effect st)
              ∨ lit_covariate e ≠ covariate (effect st)) (candidate_effects s)) as Hf.
      unfold remaining_effects in Hhi. rewrite Hpool in *. simpl in *.
      exists (S r). split; [lia|]. split; [lia|]. nia.
Qed.

Lemma search_loop_count_triangle u p n k s cands log :
  lrt_returns_argument → state_ok s →
  search_loop u p n k s = (Returned cands, log) →
  2 * length cands
  ≤ 2 * length (all_candidates_so_far s)
    + length (candidate_effects s) * (length (candidate_effects s) + 1).
Proof.
  intros Hlrt. revert k s. induction n as [|n IH]; intros k s Hok; simpl.
  - destruct u; [done|]. intros [= <- _]. lia.
  - destruct (candidate_effects s) as [|e0 pool] eqn:Hpool.
    { intros [= <- _]. simpl. lia. }
    destruct (round p k s) as [all log'|e log'|s'] eqn:Hround.
    + intros [= <- _]. apply round_return_inv in Hround as (-> & _).
      rewrite !length_app, length_round_candidates, Hpool. simpl. nia.
    + done.
    + intros Hrun.
      pose proof (round_shrinks_pool _ _ _ _ Hlrt Hok Hround) as Hlt.
      pose proof (round_continue_ok _ _ _ _ Hok Hround) as Hok'.
      specialize (IH _ _ Hok' Hrun).
      apply round_continue_shape in Hround as (w & st & _ & _ & _ & ->).
      simpl in *. rewrite !length_app, length_round_candidates in *.
      rewrite Hpool in *. simpl in *. nia.
Qed.

(** X4: a returned list holds the start candidate and at most
    [rounds * |effects|] candidates more, one per model built and fitted;
    with a ranking that returns the parent or one of the new models, at
    most [|effects| * (|effects| + 1) / 2] models are built in all. *)
Theorem fitted_models_bound fuel effects p max_steps m cands log :
  task_greedy_forward_search fuel effects p max_steps m = (Returned cands, log) →
  1 ≤ length cands ≤ 1 + length log * length effects
  ∧ (lrt_returns_argument →
     2 * (length cands - 1) ≤ length effects * (length effects + 1)).
Proof.
  intros Hrun. unfold task_greedy_forward_search in Hrun. split.
  - destruct (0 <=? max_steps)%Z;
      apply search_loop_count in Hrun as (r & Hlog & Hlo & Hhi);
      simpl in *; split; [lia | nia | lia | nia].
  - intros Hlrt.
    destruct (0 <=? max_steps)%Z;
      apply search_loop_count_triangle in Hrun;
      try done; try apply initial_state_ok; simpl in *; lia.
Qed.

(** ** The cap on the number of steps *)

Lemma search_loop_extends u p n k s cands log :
  search_loop u p n k s = (Returned cands, log) →
  all_candidates_so_far s `prefix_of` cands ∧ submitted s `prefix_of` log.
Proof.
  revert k s. induction n as [|n IH]; intros k s; simpl.
  - destruct u; [done|]. by intros [= <- <-].
  - destruct (candidate_effects s) as [|e0 pool]; [by intros [= <- <-]|].
    destruct (round p k s) as [all log'|e log'|s'] eqn:Hround.
    + intros [= <- <-]. apply round_return_inv in Hround as (-> & -> & _).
      split; apply prefix_app_r; done.
    + done.
    + intros [Hc Hl]%IH.
      apply round_continue_shape in Hround as (w & st & _ & _ & _ & ->).
      simpl in *. split; (etrans; [|done]); by apply prefix_app_r.
Qed.

Lemma search_loop_cap_prefix p n d k s c1 l1 c2 l2 :
  search_loop false p n k s = (Returned c1, l1) →
  search_loop false p (n + d) k s = (Returned c2, l2) →
  c1 `prefix_of` c2 ∧ l1 `prefix_of` l2.
Proof.
  revert k s. induction n as [|n IH]; intros k s; simpl.
  - intros [= <- <-]. apply search_loop_extends.
  - destruct (candidate_effects s) as [|e0 pool].
    { intros [= <- <-] [= <- <-]. done. }
    destruct (round p k s) as [all log'|e log'|s'] eqn:Hround.
    + intros [= <- <-] [= <- <-]. done.
    + done.
    + apply IH.
Qed.

(** X5: raising the cap only appends: the candidates and the workflows of
    a run under [max_steps = a] are a prefix of those under a larger cap
    [b], whatever the fit and the ranking do. *)
Theorem larger_cap_extends fuel fuel' effects p (a b : Z) m c1 l1 c2 l2 :
  (0 ≤ a ≤ b)%Z →
  task_greedy_forward_search fuel effects p a m = (Returned c1, l1) →
  task_greedy_forward_search fuel' effects p b m = (Returned c2, l2) →
  c1 `prefix_of` c2 ∧ l1 `prefix_of` l2.
Proof.
  intros Hab. unfold task_greedy_forward_search.
  rewrite (proj2 (Z.leb_le 0 a)), (proj2 (Z.leb_le 0 b)) by lia.
  replace (Z.to_nat b) with (Z.to_nat a + (Z.to_nat b - Z.to_nat a)) by lia.
  apply search_loop_cap_prefix.
Qed.

Lemma search_loop_mode p n n' k s :
  lrt_returns_argument → state_ok s →
  length (candidate_effects s) ≤ n → length (candidate_effects s) < n' →
  search_loop false p n k s = search_loop true p n' k s.
Proof.
  intros Hlrt. revert n' k s.
  induction n as [|n IH]; intros n' k s Hok Hn Hn'.
  - destruct (candidate_effects s) eqn:Hpool; [|simpl in Hn; lia].
    destruct n' as [|n']; [simpl in Hn'; lia|]. simpl. by rewrite Hpool.
  - destruct n' as [|n']; [lia|]. simpl.
    destruct (candidate_effects s) as [|e0 pool] eqn:Hpool; [done|].
    destruct (round p k s) as [all log'|e log'|s'] eqn:Hround; [done..|].
    pose proof (round_shrinks_pool _ _ _ _ Hlrt Hok Hround) as Hlt.
    rewrite Hpool in Hlt.
    apply IH; [by eapply round_continue_ok | lia | lia].
Qed.

(** X6: with a ranking that returns the parent or one of the new models,
    a cap of at least the number of effects never binds: the run is the
    run without cap ([max_steps] negative). *)
Theorem cap_above_pool_never_binds fuel effects p (max_steps unbounded : Z) m :
  lrt_returns_argument →
  (Z.of_nat (length effects) ≤ max_steps)%Z → (unbounded < 0)%Z →
  length effects < fuel →
  task_greedy_forward_search fuel effects p max_steps m
  = task_greedy_forward_search fuel effects p unbounded m.
Proof.
  intros Hlrt Hcap Hneg Hfuel. unfold task_greedy_forward_search.
  rewrite (proj2 (Z.leb_le 0 max_steps)), (proj2 (Z.leb_gt 0 unbounded)) by lia.
  apply search_loop_mode; [done | apply initial_state_ok | simpl; lia | done].
Qed.

(** ** The steps summary of a search *)

Lemma search_history fuel effects p max_steps m cands log :
  task_greedy_forward_search fuel effects p max_steps m = (Returned cands, log) →
  history_ok m cands.
Proof.
  intros Hrun. unfold task_greedy_forward_search in Hrun.
  destruct (0 <=? max_steps)%Z;
    (eapply search_loop_history; [| |exact Hrun]; simpl;
     [apply initial_history | left]).
Qed.

(** Every model but the start model comes out of the fit. *)
Lemma search_models_fitted fuel effects p max_steps m cands log :
  task_greedy_forward_search fuel effects p max_steps m = (Returned cands, log) →
  ∀ c, c ∈ cands →
    c = mkCandidate m [] ∨ ∃ x, modelfit_results (model c) = fit x.
Proof.
  apply (search_invariant p
           (λ s, ∀ c, c ∈ all_candidates_so_far s →
                      c = mkCandidate m [] ∨ ∃ x, modelfit_results (model c) = fit x)
           (λ l, ∀ c, c ∈ l →
                      c = mkCandidate m [] ∨ ∃ x, modelfit_results (model c) = fit x)).
  - done.
  - intros s Hall c [Hc | (i & e & _ & ->)%elem_of_round_candidates]%elem_of_app;
      [by apply Hall|].
    right. by eexists.
  - intros k s s' Hall (w & st & _ & _ & _ & ->)%round_continue_shape c. simpl.
    intros [Hc | (i & e & _ & ->)%elem_of_round_candidates]%elem_of_app;
      [by apply Hall|].
    right. by eexists.
  - intros c ->%list_elem_of_singleton. by left.
Qed.

Lemma collect_rows_inr rows rs : collect_rows rows = inr rs → rows = inr <$> rs.
Proof.
  revert rs. induction rows as [|[e|r] rows IH]; intros rs; simpl.
  - by intros [= <-].
  - done.
  - destruct (collect_rows rows) as [e|rs']; [done|].
    intros [= <-]. simpl. f_equal. by apply IH.
Qed.

Lemma collect_rows_no_error rows :
  (∀ e, inl e ∉ rows) → ∃ rs, collect_rows rows = inr rs.
Proof.
  induction rows as [|[e|r] rows IH]; intros Hno; simpl.
  - by eexists.
  - destruct (Hno e). left.
  - destruct IH as [rs ->]; [|by eexists].
    intros e He. apply (Hno e). by right.
Qed.

Lemma filter_Forall_id {A} (P : A → Prop) `{∀ x, Decision (P x)} (l : list A) :
  Forall P l → filter P l = l.
Proof.
  induction 1 as [|x l Hx _ IH]; [done|].
  rewrite filter_cons_True by done. by rewrite IH.
Qed.

(** The candidates with steps are all but the first. *)
Lemma history_filter_steps m cands :
  history_ok m cands → filter (λ c, steps c ≠ []) cands = drop 1 cands.
Proof.
  intros [Hhead Hstart _ _]. destruct cands as [|c0 rest]; [done|].
  injection Hhead as ->. rewrite filter_cons_False by (simpl; auto). simpl.
  rewrite drop_0. apply filter_Forall_id, Forall_lookup. intros i c Hc Hnil.
  by apply (Hstart (S i) c Hc) in Hnil.
Qed.

Lemma models_dict_elem cands n x :
  models_dict_of cands !! n = Some x → ∃ c, c ∈ cands ∧ model c = x.
Proof.
  unfold models_dict_of.
  assert (H : ∀ d : gmap string Model,
    foldl (λ d c, <[name (model c) := model c]> d) d cands !! n = Some x →
    d !! n = Some x ∨ ∃ c, c ∈ cands ∧ model c = x).
  { induction cands as [|a cands IH]; intros d Hd; simpl in *; [by left|].
    destruct (IH _ Hd) as [Hins | (c & Hc & Hx)].
    - destruct (decide (name (model a) = n)) as [<-|Hne].
      + rewrite lookup_insert_eq in Hins. injection Hins as <-.
        right. exists a. split; [left | done].
      + rewrite lookup_insert_ne in Hins by done. by left.
    - right. exists c. split; [by right | done]. }
  intros Hd. by destruct (H ∅ Hd) as [Hempty|?].
Qed.

Lemma models_dict_is_Some cands b :
  b ∈ cands → is_Some (models_dict_of cands !! name (model b)).
Proof.
  unfold models_dict_of.
  assert (H : ∀ d : gmap string Model,
    is_Some (d !! name (model b)) ∨ b ∈ cands →
    is_Some (foldl (λ d c, <[name (model c) := model c]> d) d cands
               !! name (model b))).
  { induction cands as [|a cands IH]; intros d [Hd|Hb]; simpl.
    - done.
    - by apply elem_of_nil in Hb.
    - apply IH. left. destruct (decide (name (model a) = name (model b))) as [->|Hne].
      + rewrite lookup_insert_eq. by eexists.
      + by rewrite lookup_insert_ne.
    - apply IH. apply elem_of_cons in Hb as [->|Hb]; [left | by right].
      rewrite lookup_insert_eq. by eexists. }
  intros Hb. apply H. by right.
Qed.

(** What one row computation that raises says about the candidates. *)
Lemma steps_row_error m cands best_model c e :
  history_ok m cands → c ∈ cands → steps c ≠ [] →
  _marke_df_steps_row lrt_p_value (models_dict_of cands) (children_count_of cands)
    best_model c = inl e →
  e = AssertionError
  ∨ e = AttributeError ∧ ∃ c', c' ∈ cands ∧ modelfit_results (model c') = None.
Proof.
  intros [_ _ Hparent _] Hc Hsteps. unfold _marke_df_steps_row.
  apply list_elem_of_lookup in Hc as Hi. destruct Hi as [i Hi].
  destruct (Hparent i c Hi Hsteps) as (j & b & _ & Hb & ->). simpl.
  apply list_elem_of_lookup_2 in Hb.
  destruct (models_dict_is_Some cands b Hb) as [parent Hlook]. rewrite Hlook.
  apply models_dict_elem in Hlook as (pc & Hpc & <-).
  destruct (modelfit_results (model pc)) eqn:Hpres; last first.
  { intros [= <-]. right. split; [done|]. by exists pc. }
  destruct (modelfit_results (model c)) eqn:Hres; last first.
  { intros [= <-]. right. split; [done|]. by exists c. }
  destruct (last (steps c)) eqn:Hlast;
    [|by apply last_None in Hlast].
  case_match; [done|]. intros [= <-]. by left.
Qed.

(** X7: on the candidates a search returned, [_make_df_steps] never fails
    on the dictionary lookup [models_dict[model.parent_model]] nor on
    [candidate.steps[-1]]; it fails on [modelfit_results.ofv] only if the
    model of some candidate has no results. With the start model fitted, a
    fit that always gives results, a ranking that returns the parent or a
    significant new model, a start model whose [parent_model] names no
    candidate, and a best model that is the start model or significant, it
    returns the table. *)
Theorem make_df_steps_errors fuel effects p max_steps m cands log best_model :
  task_greedy_forward_search fuel effects p max_steps m = (Returned cands, log) →
  _make_df_steps lrt_p_value best_model cands ≠ inl KeyError
  ∧ _make_df_steps lrt_p_value best_model cands ≠ inl StepIndexError
  ∧ (_make_df_steps lrt_p_value best_model cands = inl AttributeError →
     ∃ c, c ∈ cands ∧ modelfit_results (model c) = None)
  ∧ (lrt_returns_argument → lrt_selects_significant →
     is_Some (modelfit_results m) → (∀ x, is_Some (fit x)) →
     (∀ c, c ∈ cands → steps c ≠ [] → parent_model m ≠ Some (name (model c))) →
     (∀ c, c ∈ cands → is_ (model c) best_model →
           steps c = [] ∨ significant p cands c) →
     ∃ rows, _make_df_steps lrt_p_value best_model cands = inr rows).
Proof.
  intros Hrun. pose proof (search_history _ _ _ _ _ _ _ Hrun) as Hhist.
  assert (Herr : ∀ e, _make_df_steps lrt_p_value best_model cands = inl e →
    e = AssertionError
    ∨ e = AttributeError ∧ ∃ c', c' ∈ cands ∧ modelfit_results (model c') = None).
  { intros e He.
    apply make_df_steps_error, list_elem_of_fmap in He as [c [Hrow Hc]].
    apply list_elem_of_filter in Hc as [Hsteps Hc].
    by eapply steps_row_error. }
  split_and!.
  - intros He. by destruct (Herr _ He) as [?|[? _]].
  - intros He. by destruct (Herr _ He) as [?|[? _]].
  - intros He. by destruct (Herr _ He) as [?|[_ ?]].
  - intros Hlrt Hsel Hm Hfit Hstart Hbest.
    destruct (_make_df_steps lrt_p_value best_model cands) as [e|rows] eqn:Hdf;
      [|by eexists].
    exfalso. destruct (Herr _ eq_refl) as [->|[-> (c & Hc & Hnone)]].
    + by eapply (make_df_steps_assertion_holds fuel effects p max_steps m cands log).
    + destruct (search_models_fitted _ _ _ _ _ _ _ Hrun c Hc) as [->|[x Hx]].
      * simpl in Hnone. rewrite Hnone in Hm. by destruct Hm.
      * rewrite Hx in Hnone. destruct (Hfit x) as [? Hsome]. congruence.
Qed.

(** X8: when [_make_df_steps] returns on the candidates of a search, the
    frame is built from one record per candidate but the start candidate,
    in the order of the list. When the search returned the start candidate
    only, there is no record and the frame has the four labels of [index]
    as rows and no column; otherwise the rows of the frame are the records.
    The record of a candidate carries its model name, the number of its
    steps as step number, the parameter, covariate and state of the effect
    it added last, [p_forward] as goal p-value, [is_backward] false, and
    [selected] only together with [extended_significant]. With a ranking
    that returns the parent or one of the new models, the reduced OFV and
    the p-value are those of the candidate it was built from, which stands
    before it in the list. *)
Theorem make_df_steps_rows fuel effects p max_steps m cands log best_model table :
  task_greedy_forward_search fuel effects p max_steps m = (Returned cands, log) →
  _make_df_steps lrt_p_value best_model cands = inr table →
  ∃ rows,
    table = from_records rows ["step"; "parameter"; "covariate"; "extended_state"]
    ∧ length rows = length cands - 1
    ∧ (length cands = 1 →
       table = IndexOnly ["step"; "parameter"; "covariate"; "extended_state"]
       ∧ frame_length table = 4)
    ∧ (1 < length cands →
       table = Records rows ∧ frame_length table = length cands - 1)
    ∧ ∀ i r, rows !! i = Some r →
      ∃ c e,
        cands !! S i = Some c
        ∧ row_model r = name (model c)
        ∧ row_step r = length (steps c) ∧ 1 ≤ row_step r
        ∧ e ∈ effects
        ∧ last (steps c) = Some (ForwardStep p (add_effect_of e))
        ∧ row_parameter r = lit_parameter e
        ∧ row_covariate r = lit_covariate e
        ∧ row_extended_state r = lit_operation e +:+ " " +:+ lit_fp e
        ∧ row_goal_pvalue r = p
        ∧ row_is_backward r = false
        ∧ (row_selected r = true → row_extended_significant r = true)
        ∧ (lrt_returns_argument →
           ∃ j b reduced extended,
             j ≤ i ∧ cands !! j = Some b
             ∧ parent_model (model c) = Some (name (model b))
             ∧ modelfit_results (model b) = Some reduced
             ∧ modelfit_results (model c) = Some extended
             ∧ row_reduced_ofv r = ofv reduced
             ∧ row_extended_ofv r = ofv extended
             ∧ row_pvalue r = lrt_p_value (model b) (model c)
             ∧ row_extended_significant r = PrimFloat.leb (row_pvalue r) p).
Proof.
  intros Hrun Htable. pose proof (search_history _ _ _ _ _ _ _ Hrun) as Hhist.
  unfold _make_df_steps in Htable.
  destruct (collect_rows _) as [e|rows] eqn:Hdf in Htable; [done|].
  injection Htable as <-. apply collect_rows_inr in Hdf.
  rewrite (history_filter_steps m cands Hhist) in Hdf.
  assert (Hlen : length rows = length cands - 1).
  { apply (f_equal length) in Hdf. rewrite !length_fmap, length_drop in Hdf. lia. }
  exists rows. split_and!; [done | done | | |].
  - intros Hone. destruct rows; [done | simpl in Hlen; lia].
  - intros Hmore. destruct rows; [simpl in Hlen; lia | done].
  - intros i r Hr.
    apply (f_equal (λ l, l !! i)) in Hdf.
    rewrite !list_lookup_fmap, lookup_drop, Hr in Hdf. simpl in Hdf.
    destruct (cands !! S i) as [c|] eqn:Hc; [|done]. simpl in Hdf.
    injection Hdf as Hrow.
    destruct Hhist as [_ Hstart Hparent _].
    assert (Hsteps : steps c ≠ []).
    { intros Hnil. by apply (Hstart (S i) c Hc) in Hnil. }
    pose proof (list_elem_of_lookup_2 _ _ _ Hc) as Hin.
    destruct (search_steps_ok _ _ _ _ _ _ _ Hrun c Hin) as [Hfwd _].
    destruct (Hparent (S i) c Hc Hsteps) as (j & b & Hj & Hb & Hpname).
    unfold _marke_df_steps_row in Hrow. rewrite Hpname in Hrow. simpl in Hrow.
    destruct (models_dict_of cands !! name (model b)) as [parent|] eqn:Hlook; [|done].
    destruct (modelfit_results parent) as [reduced|] eqn:Hpres; [|done].
    destruct (modelfit_results (model c)) as [extended|] eqn:Hres; [|done].
    destruct (last (steps c)) as [st|] eqn:Hlast; [|done].
    assert (Hst : st ∈ steps c).
    { apply last_Some in Hlast as [l ->]. apply elem_of_app. right. left. }
    destruct (Hfwd st Hst) as (e & He & ->). simpl in Hrow.
    destruct (bool_decide (1 ≤ count_of (children_count_of cands) (name (model c)))
              || bool_decide (is_ (model c) best_model)) eqn:Hsel;
      simpl in Hrow.
    + destruct (PrimFloat.leb (lrt_p_value parent (model c)) p) eqn:Hleb; [|done].
      injection Hrow as <-. exists c, e. simpl.
      split_and!; try done.
      * destruct (steps c); [done | simpl; lia].
      * intros Hlrt.
        destruct (search_names_nodup _ _ _ _ _ _ _ Hlrt Hrun) as [Hnames _].
        rewrite (models_dict_lookup cands b Hnames) in Hlook
          by by eapply list_elem_of_lookup_2.
        injection Hlook as <-.
        exists j, b, reduced, extended. split_and!; try done. lia.
    + injection Hrow as <-. exists c, e. simpl.
      split_and!; try done.
      * destruct (steps c); [done | simpl; lia].
      * intros Hlrt.
        destruct (search_names_nodup _ _ _ _ _ _ _ Hlrt Hrun) as [Hnames _].
        rewrite (models_dict_lookup cands b Hnames) in Hlook
          by by eapply list_elem_of_lookup_2.
        injection Hlook as <-.
        exists j, b, reduced, extended. split_and!; try done. lia.
Qed.

End search.

(** ** A search on concrete data *)

Definition example_fit (m : Model) : option ModelfitResults := Some (mkResults 90).

(** A ranking that prefers the first new model over the input model and
    otherwise keeps the parent. *)
Definition example_lrt (parent : Model) (models : list Model) (a : float) : Model :=
  if decide (parent_model parent = None) then default parent (head models) else parent.

Definition example_model : Model := mkModel 0 "run1" "" None (Some (mkResults 100)).

Definition example_effects : list EffectLiteral :=
  [("CL", "WGT", "exp", "*"); ("CL", "WGT", "pow", "*"); ("CL", "APGR", "exp", "*");
   ("V", "WGT", "exp", "*")].

(** The default [p_forward = 0.05], as the binary64 value Python reads. *)
Definition example_alpha : float := 0.05.

Definition example_run : Outcome * list string :=
  task_greedy_forward_search example_fit example_lrt 5 example_effects example_alpha (-1)
    example_model.

Definition example_candidates : list Candidate :=
  match example_run.1 with Returned cands => cands | _ => [] end.

Definition example_state1 : SearchState :=
  match round example_fit example_lrt example_alpha 1
          (initial_state example_effects example_model) with
  | RoundContinue s => s
  | _ => initial_state example_effects example_model
  end.

Definition example_candidate5 : Candidate :=
  default (mkCandidate example_model []) (example_candidates !! 5).

(** A start model that carries a [parent_model] of its own, copied from a
    model named like the first candidate the search will create. *)
Definition assertion_model : Model :=
  mkModel 0 "run1" "" (Some "run1-1") (Some (mkResults 100)).

Definition assertion_fit (m : Model) : option ModelfitResults := Some (mkResults 99.5).

(** No candidate improves significantly: the ranking keeps the parent. *)
Definition assertion_lrt (parent : Model) (models : list Model) (a : float) : Model :=
  parent.

Definition assertion_p_value (parent child : Model) : float := 0.48.

Definition assertion_candidates : list Candidate :=
  match (task_greedy_forward_search assertion_fit assertion_lrt 2
           [("CL", "WGT", "exp", "*")] example_alpha (-1) assertion_model).1 with
  | Returned cands => cands
  | _ => []
  end.

Example example_run_names :
  (λ c, name (model c)) <$> example_candidates
  = ["run1"; "run1-1"; "run1-2"; "run1-3"; "run1-4"; "run1-1-1"; "run1-1-2"]
  ∧ example_run.2 = ["covariates-effects_addition-1"; "covariates-effects_addition-2"]
  ∧ candidate_effects example_state1
    = [("CL", "APGR", "exp", "*"); ("V", "WGT", "exp", "*")].
Proof. vm_compute. done. Qed.

Lemma example_lrt_returns_argument : lrt_returns_argument example_lrt.
Proof.
  intros parent models a. unfold example_lrt. case_decide; [|by left].
  destruct models as [|m0 models]; simpl; [by left | right; left].
Qed.

(** On the example run, with a p-value of 0.01 for the winner "run1-1" and
    of 0.48 for every other candidate, and "run1-1" as the final best model,
    the assertion holds on every row: only the winner is selected, and it
    is significant. *)
Example make_df_steps_example_rows :
  let p_value (parent child : Model) : float :=
    if decide (name child = "run1-1") then 0.01%float else 0.48%float in
  match _make_df_steps p_value (model (default (mkCandidate example_model [])
                                         (example_candidates !! 1)))
          example_candidates with
  | inr (Records rows) =>
      Some ((λ r, (row_model r, row_step r, row_selected r, row_extended_significant r))
              <$> rows)
  | _ => None
  end
  = Some [("run1-1", 1, true, true); ("run1-2", 1, false, false);
          ("run1-3", 1, false, false); ("run1-4", 1, false, false);
          ("run1-1-1", 2, false, false); ("run1-1-2", 2, false, false)].
Proof. vm_compute. reflexivity. Qed.

(** A ranking that tests the first new model with the p-value, and the
    p-values of the example: 0.01 for "run1-1", 0.48 otherwise. *)
Definition example_p_value (parent child : Model) : float :=
  if decide (name child = "run1-1") then 0.01%float else 0.48%float.

Definition significance_lrt (parent : Model) (models : list Model) (a : float) : Model :=
  match models with
  | m0 :: _ => if PrimFloat.leb (example_p_value parent m0) a then m0 else parent
  | [] => parent
  end.

Definition significance_run : Outcome * list string :=
  task_greedy_forward_search example_fit significance_lrt 5 example_effects
    example_alpha (-1) example_model.

Definition significance_candidates : list Candidate :=
  match significance_run.1 with Returned cands => cands | _ => [] end.

Definition significance_best : Candidate :=
  default (mkCandidate example_model []) (significance_candidates !! 1).

Lemma significance_lrt_contract :
  lrt_returns_argument significance_lrt
  ∧ lrt_selects_significant significance_lrt example_p_value.
Proof.
  split.
  - intros parent [|m0 models] a; simpl; [by left|].
    destruct (PrimFloat.leb _ _); [right; left | by left].
  - intros parent [|m0 models] a; simpl; [done|].
    destruct (PrimFloat.leb _ _) eqn:Hleb; done.
Qed.

(** The hypotheses of [make_df_steps_assertion_holds] are met by the example:
    the start model has no [parent_model], the final best model "run1-1" is
    significant against "run1". *)
Example make_df_steps_assertion_holds_example :
  _make_df_steps example_p_value (model significance_best) significance_candidates
  ≠ inl AssertionError.
Proof.
  destruct significance_lrt_contract as [Hret Hsel].
  apply (make_df_steps_assertion_holds example_fit significance_lrt example_p_value
           5 example_effects example_alpha (-1) example_model
           significance_candidates significance_run.2);
    [done | done | vm_compute; reflexivity | done |].
  intros c Hc His.
  assert (Hcases : c = significance_best ∨ ¬ is_ (model c) (model significance_best)).
  { apply list_elem_of_In in Hc. vm_compute in Hc.
    repeat (destruct Hc as [<-|Hc]; [first [by left | right; vm_compute; lia]|]).
    done. }
  destruct Hcases as [->|?]; [|done].
  right. exists (mkCandidate example_model []). split_and!.
  - apply (list_elem_of_lookup_2 _ 0). vm_compute. reflexivity.
  - vm_compute. reflexivity.
  - vm_compute. reflexivity.
Qed.

Lemma search_terminates_witness :
  (∃ cands log,
     task_greedy_forward_search example_fit example_lrt 0 example_effects
       example_alpha 1 example_model = (Returned cands, log)
     ∧ length log ≤ length example_effects `min` Z.to_nat 1)
  ∧ length (candidate_effects example_state1)
    < length (candidate_effects (initial_state example_effects example_model))
  ∧ (∃ cands log,
       (∀ fuel, length example_effects < fuel →
          task_greedy_forward_search example_fit example_lrt fuel example_effects
            example_alpha (-1) example_model = (Returned cands, log))
       ∧ length log ≤ length example_effects).
Proof.
  destruct (search_terminates example_fit example_lrt example_lrt_returns_argument)
    as (Hbounded & Hshrink & Hunbounded).
  split_and!.
  - apply Hbounded. lia.
  - apply (Hshrink example_alpha 1 _ example_state1);
      [apply initial_state_ok | vm_compute; reflexivity].
  - apply Hunbounded. lia.
Defined.

Lemma no_improvement_returns_history_witness :
  ∃ bs b,
    Forall2 (created example_fit example_alpha)
      [initial_state example_effects example_model] bs
    ∧ created example_fit example_alpha example_state1 b
    ∧ task_greedy_forward_search example_fit example_lrt 0 example_effects
        example_alpha 2 example_model
      = (Returned (mkCandidate example_model [] :: concat bs ++ b),
         wf_name <$> seq 1 2).
Proof.
  destruct (no_improvement_returns_history example_fit example_lrt
              example_effects example_alpha example_model
              [initial_state example_effects example_model] 2 example_state1)
    as (bs & b & Hbs & Hb & _ & Hrun & _).
  - apply (winner_rounds_snoc example_fit example_lrt example_alpha 1 _ [] 1
             (initial_state example_effects example_model) example_state1).
    + apply winner_rounds_nil.
    + done.
    + vm_compute. reflexivity.
  - vm_compute. discriminate.
  - vm_compute. reflexivity.
  - exists bs, b. split_and!; [exact Hbs | exact Hb |].
    apply (Hrun 0 2%Z). left. simpl. lia.
Defined.

Lemma winner_filters_pool_witness :
  ∃ last_step,
    last (steps (best_candidate_so_far example_state1)) = Some last_step
    ∧ effect last_step = AddEffect "CL" "WGT" "exp" "*"
    ∧ (("CL", "WGT", "pow", "*") ∉ candidate_effects example_state1)
    ∧ ("CL", "APGR", "exp", "*") ∈ candidate_effects example_state1
    ∧ ("V", "WGT", "exp", "*") ∈ candidate_effects example_state1
    ∧ search_loop example_fit example_lrt true example_alpha 5 1
        (initial_state example_effects example_model)
      = search_loop example_fit example_lrt true example_alpha 4 2 example_state1
    ∧ ∃ later,
        example_candidates = all_candidates_so_far example_state1 ++ later
        ∧ later ≠ []
        ∧ ∀ c, c ∈ later →
            ∃ e, last (steps c) = Some (ForwardStep example_alpha (add_effect_of e))
                 ∧ ¬ (lit_parameter e = "CL" ∧ lit_covariate e = "WGT").
Proof.
  destruct (winner_filters_pool example_fit example_lrt example_alpha 1
              (initial_state example_effects example_model) example_state1)
    as (st & Hlast & Hiff & _ & _ & Hpair & Hloop & _ & Hsearch);
    [vm_compute; reflexivity|].
  exists st. split; [exact Hlast|].
  assert (Hst : effect st = AddEffect "CL" "WGT" "exp" "*").
  { vm_compute in Hlast. injection Hlast as <-. reflexivity. }
  split; [exact Hst|]. split_and!.
  - apply (Hpair "CL" "WGT" "pow" "*" "exp" "*"); [|exact Hst].
    simpl. right. left.
  - apply Hiff. rewrite Hst. split; [simpl; do 2 right; left|].
    intros [_ Hcov]. vm_compute in Hcov. discriminate.
  - apply Hiff. rewrite Hst. split; [simpl; do 3 right; left|].
    intros [Hprm _]. vm_compute in Hprm. discriminate.
  - apply (Hloop ltac:(done) true 4).
  - destruct (Hsearch true 4 example_candidates example_run.2)
      as (later & Heq & Hlater); [vm_compute; reflexivity|].
    exists later. split_and!.
    + exact Heq.
    + intros ->. rewrite app_nil_r in Heq. vm_compute in Heq. discriminate.
    + intros c Hc. destruct (Hlater c Hc) as (e & _ & Hstep & Hne).
      exists e. split; [exact Hstep|]. rewrite Hst in Hne. exact Hne.
Defined.



(** C10 at a start model whose own [parent_model] is the name the first
    candidate gets: the search creates the one candidate "run1-1", the
    ranking keeps the parent, [children_count["run1-1"]] is 1 because of
    the start model's attribute, the row is marked selected although its
    p-value 0.48 is above alpha 0.05, and the assertion fails whatever
    [best_model] is. *)
Theorem make_df_steps_assertion_fails :
  task_greedy_forward_search assertion_fit assertion_lrt 2
    [("CL", "WGT", "exp", "*")] example_alpha (-1) assertion_model
  = (Returned assertion_candidates, ["covariates-effects_addition-1"])
  ∧ (λ c, name (model c)) <$> assertion_candidates = ["run1"; "run1-1"]
  ∧ count_of (children_count_of assertion_candidates) "run1-1" = 1
  ∧ ∀ best_model,
      _make_df_steps assertion_p_value best_model assertion_candidates
      = inl AssertionError.
Proof.
  split_and!; [vm_compute; reflexivity..|].
  intros best_model. vm_compute. reflexivity.
Qed.

(** The same run from a start model without [parent_model] passes the
    assertion: the row is neither selected nor significant. *)
Example make_df_steps_unselected_row :
  let start := mkModel 0 "run1" "" None (Some (mkResults 100)) in
  let cands :=
    match (task_greedy_forward_search assertion_fit assertion_lrt 2
             [("CL", "WGT", "exp", "*")] example_alpha (-1) start).1 with
    | Returned cands => cands
    | _ => []
    end in
  match _make_df_steps assertion_p_value start cands with
  | inr (Records rows) =>
      Some ((λ r, (row_model r, row_selected r, row_extended_significant r)) <$> rows)
  | _ => None
  end = Some [("run1-1", false, false)].
Proof. vm_compute. reflexivity. Qed.

(** ** The further properties on the example run *)

Definition returned_of (run : Outcome * list string) : list Candidate :=
  match run.1 with Returned cands => cands | _ => [] end.

Definition capped_run (max_steps : Z) : Outcome * list string :=
  task_greedy_forward_search example_fit example_lrt 5 example_effects example_alpha
    max_steps example_model.

(** A search that may take no step returns the start candidate only, and
    the frame of its steps has the four index labels as rows. *)
Example make_df_steps_no_record :
  ((capped_run 0).1 = Returned [mkCandidate example_model []])
  ∧ _make_df_steps example_p_value example_model [mkCandidate example_model []]
    = inr (IndexOnly ["step"; "parameter"; "covariate"; "extended_state"]).
Proof. split; vm_compute; reflexivity. Qed.

Definition significance_table : StepsTable :=
  match _make_df_steps example_p_value (model significance_best)
          significance_candidates with
  | inr table => table
  | inl _ => Records []
  end.

Lemma significance_best_is_significant c :
  c ∈ significance_candidates → is_ (model c) (model significance_best) →
  steps c = []
  ∨ significant example_p_value example_alpha significance_candidates c.
Proof.
  intros Hc His.
  assert (Hcases : c = significance_best ∨ ¬ is_ (model c) (model significance_best)).
  { apply list_elem_of_In in Hc. vm_compute in Hc.
    repeat (destruct Hc as [<-|Hc]; [first [by left | right; vm_compute; lia]|]).
    done. }
  destruct Hcases as [->|?]; [|done].
  right. exists (mkCandidate example_model []). split_and!.
  - apply (list_elem_of_lookup_2 _ 0). vm_compute. reflexivity.
  - vm_compute. reflexivity.
  - vm_compute. reflexivity.
Qed.

Lemma returned_names_distinct_witness :
  NoDup (names_of example_candidates) ∧ NoDup (ids_of example_candidates)
  ∧ models_dict_of example_candidates !! name (model example_candidate5)
    = Some (model example_candidate5).
Proof.
  destruct (returned_names_distinct example_fit example_lrt 5 example_effects
              example_alpha (-1) example_model example_candidates example_run.2)
    as (Hnames & Hids & Hdict);
    [apply example_lrt_returns_argument | vm_compute; reflexivity|].
  split_and!; [exact Hnames | exact Hids |].
  apply Hdict. apply (list_elem_of_lookup_2 _ 5). vm_compute. reflexivity.
Defined.

Lemma returned_candidates_chain_witness :
  ∃ j b e k,
    j < 5 ∧ example_candidates !! j = Some b
    ∧ e ∈ example_effects ∧ 1 ≤ k ≤ length example_effects
    ∧ steps example_candidate5 = steps b ++ [ForwardStep example_alpha (add_effect_of e)]
    ∧ name (model example_candidate5) = name (model b) +:+ "-" +:+ pretty k
    ∧ parent_model (model example_candidate5) = Some (name (model b))
    ∧ description (model example_candidate5)
      = "add_covariate_effect(<"
          +:+ (if decide (description (model b) = "")
               then name (model b) else description (model b))
          +:+ ">, " +:+ lit_parameter e +:+ ", " +:+ lit_covariate e
          +:+ ", " +:+ lit_fp e +:+ ", " +:+ lit_operation e +:+ ")".
Proof.
  apply (returned_candidates_chain example_fit example_lrt 5 example_effects
           example_alpha (-1) example_model example_candidates example_run.2).
  - vm_compute. reflexivity.
  - vm_compute. reflexivity.
  - vm_compute. discriminate.
Defined.

Lemma returned_steps_distinct_pairs_witness :
  (∀ st, st ∈ steps example_candidate5 →
         ∃ e, e ∈ example_effects ∧ st = ForwardStep example_alpha (add_effect_of e))
  ∧ NoDup (step_pair <$> steps example_candidate5)
  ∧ length (steps example_candidate5) ≤ length example_effects.
Proof.
  apply (returned_steps_distinct_pairs example_fit example_lrt 5 example_effects
           example_alpha (-1) example_model example_candidates example_run.2).
  - vm_compute. reflexivity.
  - apply (list_elem_of_lookup_2 _ 5). vm_compute. reflexivity.
Defined.

Lemma fitted_models_bound_witness :
  1 ≤ length example_candidates
    ≤ 1 + length example_run.2 * length example_effects
  ∧ (lrt_returns_argument example_lrt →
     2 * (length example_candidates - 1)
     ≤ length example_effects * (length example_effects + 1)).
Proof.
  apply (fitted_models_bound example_fit example_lrt 5 example_effects
           example_alpha (-1) example_model example_candidates example_run.2).
  vm_compute. reflexivity.
Defined.

Lemma larger_cap_extends_witness :
  returned_of (capped_run 1) `prefix_of` returned_of (capped_run 2)
  ∧ (capped_run 1).2 `prefix_of` (capped_run 2).2.
Proof.
  apply (larger_cap_extends example_fit example_lrt 5 5 example_effects
           example_alpha 1 2 example_model).
  - lia.
  - vm_compute. reflexivity.
  - vm_compute. reflexivity.
Defined.

Lemma cap_above_pool_never_binds_witness : capped_run 4 = capped_run (-1).
Proof.
  apply (cap_above_pool_never_binds example_fit example_lrt 5 example_effects
           example_alpha 4 (-1) example_model).
  - apply example_lrt_returns_argument.
  - simpl. lia.
  - lia.
  - simpl. lia.
Defined.

Lemma make_df_steps_errors_witness :
  _make_df_steps example_p_value (model significance_best) significance_candidates
    ≠ inl KeyError
  ∧ _make_df_steps example_p_value (model significance_best) significance_candidates
    ≠ inl StepIndexError
  ∧ ∃ rows,
      _make_df_steps example_p_value (model significance_best) significance_candidates
      = inr rows.
Proof.
  destruct (make_df_steps_errors example_fit significance_lrt example_p_value
              5 example_effects example_alpha (-1) example_model
              significance_candidates significance_run.2 (model significance_best))
    as (Hkey & Hindex & _ & Hrows); [vm_compute; reflexivity|].
  split_and!; [exact Hkey | exact Hindex |].
  destruct significance_lrt_contract as [Hret Hsel].
  apply Hrows; [exact Hret | exact Hsel | by eexists | by eexists | done |].
  apply significance_best_is_significant.
Defined.

Lemma make_df_steps_rows_witness :
  ∃ rows,
    significance_table = Records rows
    ∧ frame_length significance_table = length significance_candidates - 1
    ∧ ∃ r c e,
        rows !! 0 = Some r ∧ significance_candidates !! 1 = Some c
        ∧ row_model r = name (model c)
        ∧ row_step r = length (steps c)
        ∧ e ∈ example_effects
        ∧ row_parameter r = lit_parameter e ∧ row_covariate r = lit_covariate e
        ∧ row_goal_pvalue r = example_alpha
        ∧ row_is_backward r = false.
Proof.
  destruct (make_df_steps_rows example_fit significance_lrt example_p_value
              5 example_effects example_alpha (-1) example_model
              significance_candidates significance_run.2 (model significance_best)
              significance_table)
    as (rows & _ & Hlen & _ & Hmore & Hrows);
    [vm_compute; reflexivity | vm_compute; reflexivity|].
  destruct Hmore as [Htable Hframe]; [vm_compute; lia|].
  exists rows. split_and!; [exact Htable | exact Hframe |].
  destruct (rows !! 0) as [r|] eqn:Hr.
  - destruct (Hrows 0 r Hr)
      as (c & e & Hc & Hmodel & Hstep & _ & He & _ & Hprm & Hcov & _ & Hgoal & Hback & _).
    exists r, c, e. split_and!; done.
  - exfalso. apply lookup_ge_None in Hr.
    assert (Hsix : length significance_candidates - 1 = 6)
      by (vm_compute; reflexivity).
    lia.
Defined.

End Covsearch.

(* ===================================================================== *)
(** * A broken ext-file: [pharmpy/plugins/nonmem/results.py] *)
(* ===================================================================== *)

Module NonmemResults.

(** The parts of a model that the reader looks at. *)
(** [Parameter]: name, initial estimate and fix flag. *)
Record ModelParameter := mkParameter {
  param_name : string;
  init : float;
  fix_ : bool
}.

Record EstimationStep := mkEstimationStep { cov : bool }.

Record Model := mkModel {
  name : string;
  parameters : list ModelParameter;
  estimation_steps : list EstimationStep
}.

(** A path as directory prefix, stem and suffix; [with_suffix] and [str]. *)
Record Path := mkPath { directory : string; stem : string; suffix : string }.

Definition with_suffix (p : Path) (ext : string) : Path :=
  mkPath (directory p) (stem p) ext.

Definition path_str (p : Path) : string := directory p +:+ stem p +:+ suffix p.

(** [pd.Series(value, name=..., index=[...])], in index order. *)
Record Series := mkSeries { series_name : string; series_items : list (string * float) }.

Definition constant_series (value : float) (name_ : string) (index : list string) : Series :=
  mkSeries name_ ((λ k, (k, value)) <$> index).

(** The attributes of a [NONMEMModelfitResults] object that the broken-file
    path sets; [None] is an attribute not set yet, and [standard_errors]
    distinguishes "not set" from "set to None". *)
Record NONMEMModelfitResults := mkResult {
  model_name : option string;
  res_model : option Model;
  table_number : option nat;
  parameter_estimates : option Series;
  ofv : option float;
  standard_errors : option (option Series)
}.

(** [NONMEMModelfitResults(chain)], before any attribute is assigned. *)
Definition new_result : NONMEMModelfitResults :=
  mkResult None None None None None None.

Inductive LogEntry := LogError (message : string) | LogWarning (message : string).

(** A [NONMEMChainedModelfitResults]: path, model, log and the list of
    result objects it holds. *)
Record Chain := mkChain {
  chain_path : Path;
  chain_model : option Model;
  chain_log : list LogEntry;
  chain_results : list NONMEMModelfitResults
}.

Inductive Exception := AttributeError | IndexError | OSError | OtherError.

(** What [NONMEMTableFile(path)] does. *)
Inductive TableFileOutcome (Tables : Type) :=
  | TablesRead (tables : Tables)
  | RaisesValueError
  | RaisesOther (e : Exception).
Arguments TablesRead {Tables} tables.
Arguments RaisesValueError {Tables}.
Arguments RaisesOther {Tables} e.

(** [list(d.keys())] for the dict built from the given keys in order: each
    key once, at its first position. *)
Definition dict_keys (ks : list string) : list string :=
  foldl (λ acc k, if decide (k ∈ acc) then acc else acc ++ [k]) [] ks.

(** [self.model.parameters.nonfixed.inits.keys()] *)
Definition nonfixed_names (m : Model) : list string :=
  dict_keys (param_name <$> filter (λ p, fix_ p = false) (parameters m)).

(** [_fill_empty_results], with the model [self.model] of the chain. *)
Definition _fill_empty_results (m : Model) (result_obj : NONMEMModelfitResults)
    (is_covariance_step : bool) : NONMEMModelfitResults :=
  let pe := constant_series nan "estimates" (nonfixed_names m) in
  let se :=
    if is_covariance_step then Some (constant_series nan "SE" (nonfixed_names m))
    else None in
  mkResult (model_name result_obj) (res_model result_obj) (table_number result_obj)
    (Some pe) (Some nan) (Some se).

Section reader.

(** The table-file parser and the reading of a well-formed ext-file (lines
    119 to 198 of results.py) rest on pandas and on the table classes, which
    are outside the sources; both are given. *)
Variable Tables : Type.
Variable NONMEMTableFile : Path → TableFileOutcome Tables.
Variable read_ext_tables : Chain → Tables → Exception + Chain.

Definition log_error (self : Chain) (message : string) : Chain :=
  mkChain (chain_path self) (chain_model self)
    (chain_log self ++ [LogError message]) (chain_results self).

Definition append (self : Chain) (result_obj : NONMEMModelfitResults) : Chain :=
  mkChain (chain_path self) (chain_model self) (chain_log self)
    (chain_results self ++ [result_obj]).

(** [_read_ext_table]: the result is the chain after the call, or the
    exception that leaves it. *)
Definition _read_ext_table (self : Chain) : Exception + Chain :=
  match NONMEMTableFile (with_suffix (chain_path self) ".ext") with
  | RaisesValueError =>
      (* The ext-file is illegal *)
      let self :=
        log_error self
          ("Broken ext-file " +:+ path_str (with_suffix (chain_path self) ".ext")) in
      let result_obj :=
        mkResult (Some (stem (chain_path self))) (chain_model self)
          (table_number new_result) (parameter_estimates new_result)
          (ofv new_result) (standard_errors new_result) in
      match chain_model self with
      | None => inl AttributeError
      | Some m =>
          match estimation_steps m with
          | [] => inl IndexError
          | first_step :: _ =>
              let is_covariance_step := cov first_step in
              let result_obj := _fill_empty_results m result_obj is_covariance_step in
              let result_obj :=
                mkResult (model_name result_obj) (res_model result_obj) (Some 1)
                  (parameter_estimates result_obj) (ofv result_obj)
                  (standard_errors result_obj) in
              inr (append self result_obj)
          end
      end
  | RaisesOther e => inl e
  | TablesRead ext_tables => read_ext_tables self ext_tables
  end.

(** ** The result object of a broken ext-file *)

Lemma elem_of_dict_keys ks k : k ∈ dict_keys ks ↔ k ∈ ks.
Proof.
  unfold dict_keys.
  assert (H : ∀ acc, k ∈ foldl (λ acc k, if decide (k ∈ acc) then acc else acc ++ [k]) acc ks
                     ↔ k ∈ acc ∨ k ∈ ks).
  { induction ks as [|a ks IH]; intros acc; simpl.
    - split; [by left | intros [?|H]; [done | inv H]].
    - rewrite IH, elem_of_cons. case_decide as Ha.
      + split; [intros [?|?]; auto | intros [?|[->|?]]; auto].
      + rewrite elem_of_app, list_elem_of_singleton. tauto. }
  rewrite H. split; [intros [H'|?]; [inv H' | done] | by right].
Qed.

Lemma elem_of_nonfixed_names m k :
  k ∈ nonfixed_names m ↔ ∃ p, p ∈ parameters m ∧ fix_ p = false ∧ param_name p = k.
Proof.
  unfold nonfixed_names. rewrite elem_of_dict_keys, list_elem_of_fmap. split.
  - intros [p [-> [Hfix Hp]%list_elem_of_filter]]. by exists p.
  - intros (p & Hp & Hfix & <-). exists p. split; [done|].
    by apply list_elem_of_filter.
Qed.

Lemma elem_of_constant_series v nm index k x :
  (k, x) ∈ series_items (constant_series v nm index) ↔ k ∈ index ∧ x = v.
Proof.
  simpl. rewrite list_elem_of_fmap. split.
  - intros [k' [[= -> ->] Hk]]. done.
  - intros [Hk ->]. by exists k.
Qed.

(** C9, amended: when the parser raises [ValueError] on the ext-file of a
    chain with a model that has an estimation step, [_read_ext_table] raises
    nothing; it appends one error entry to the log and one result object to
    the chain, whose parameter estimates are a series "estimates" with NaN
    for exactly the non-fixed parameters, whose ofv is NaN, and whose
    standard errors are the NaN series "SE" if the first estimation step
    asked for the covariance step and [None] otherwise, whatever the later
    steps ask for. *)
Theorem broken_ext_file_gives_nan_results self m first_step steps :
  NONMEMTableFile (with_suffix (chain_path self) ".ext") = RaisesValueError →
  chain_model self = Some m →
  estimation_steps m = first_step :: steps →
  ∃ result_obj pe,
    _read_ext_table self
    = inr (mkChain (chain_path self) (chain_model self)
             (chain_log self
              ++ [LogError ("Broken ext-file "
                            +:+ path_str (with_suffix (chain_path self) ".ext"))])
             (chain_results self ++ [result_obj]))
    ∧ model_name result_obj = Some (stem (chain_path self))
    ∧ table_number result_obj = Some 1
    ∧ parameter_estimates result_obj = Some pe
    ∧ series_name pe = "estimates"
    ∧ (∀ p, p ∈ parameters m → fix_ p = false →
            (param_name p, nan) ∈ series_items pe)
    ∧ (∀ k x, (k, x) ∈ series_items pe →
              x = nan ∧ ∃ p, p ∈ parameters m ∧ fix_ p = false ∧ param_name p = k)
    ∧ ofv result_obj = Some nan
    ∧ standard_errors result_obj
      = Some (if cov first_step
              then Some (constant_series nan "SE" (nonfixed_names m))
              else None).
Proof.
  intros Hbroken Hmodel Hsteps. unfold _read_ext_table, append, log_error.
  rewrite Hbroken. simpl. rewrite Hmodel, Hsteps.
  eexists _, _. split; [reflexivity|]. simpl. split_and!; try done.
  - intros p Hp Hfix. apply (elem_of_constant_series nan "estimates").
    split; [|done]. apply elem_of_nonfixed_names. by exists p.
  - intros k x [Hk ->]%(elem_of_constant_series nan "estimates").
    split; [done|]. by apply elem_of_nonfixed_names.
Qed.

(** Without a model, or with a model without estimation step, the same
    path ends in another exception. *)
Lemma broken_ext_file_needs_model self :
  NONMEMTableFile (with_suffix (chain_path self) ".ext") = RaisesValueError →
  (chain_model self = None → _read_ext_table self = inl AttributeError)
  ∧ (∀ m, chain_model self = Some m → estimation_steps m = [] →
          _read_ext_table self = inl IndexError).
Proof.
  intros Hbroken. unfold _read_ext_table. rewrite Hbroken. simpl. split.
  - by intros ->.
  - by intros m -> ->.
Qed.

End reader.

(** A run "pheno_real" with a fixed and two estimated parameters. *)
Definition example_model : Model :=
  mkModel "pheno_real"
    [mkParameter "THETA(1)" 0.0047 false; mkParameter "THETA(2)" 1 true;
     mkParameter "OMEGA(1,1)" 0.03 false]
    [mkEstimationStep true].

Definition example_chain : Chain :=
  mkChain (mkPath "models/" "pheno_real" ".mod") (Some example_model) [] [].

Definition broken_file (p : Path) : TableFileOutcome unit := RaisesValueError.

Definition no_tables (self : Chain) (ts : unit) : Exception + Chain := inr self.

Definition example_result : NONMEMModelfitResults :=
  mkResult (Some "pheno_real") (Some example_model) (Some 1)
    (Some (mkSeries "estimates" [("THETA(1)", nan); ("OMEGA(1,1)", nan)]))
    (Some nan)
    (Some (Some (mkSeries "SE" [("THETA(1)", nan); ("OMEGA(1,1)", nan)]))).

Example broken_ext_file_example :
  _read_ext_table unit broken_file no_tables example_chain
  = inr (mkChain (mkPath "models/" "pheno_real" ".mod") (Some example_model)
           [LogError "Broken ext-file models/pheno_real.ext"] [example_result]).
Proof. vm_compute. reflexivity. Qed.

(** C9, as stated, fails at two inputs. A chain made without a model (the
    default [model=None] of the constructor) and with a broken ext-file
    leaves [_read_ext_table] by the [AttributeError] of
    [self.model.estimation_steps]: no result object is produced. And for a
    model whose second estimation step asks for the covariance step while
    the first does not, a covariance step was requested but the standard
    errors are [None]: the result object stands for table 1, and only the
    first step is looked at. *)
Lemma broken_ext_file_first_step_only :
  _read_ext_table unit broken_file no_tables
    (mkChain (mkPath "models/" "pheno_real" ".mod") None [] [])
  = inl AttributeError
  ∧ let m :=
      mkModel "pheno_real" (parameters example_model)
        [mkEstimationStep false; mkEstimationStep true] in
    (∃ step, step ∈ estimation_steps m ∧ cov step = true)
    ∧ ∃ result_obj,
        _read_ext_table unit broken_file no_tables
          (mkChain (mkPath "models/" "pheno_real" ".mod") (Some m) [] [])
        = inr (mkChain (mkPath "models/" "pheno_real" ".mod") (Some m)
                 [LogError "Broken ext-file models/pheno_real.ext"] [result_obj])
        ∧ ofv result_obj = Some nan
        ∧ standard_errors result_obj = Some None.
Proof.
  split; [vm_compute; reflexivity|]. intros m. split.
  - exists (mkEstimationStep true). split; [right; left | done].
  - eexists. split_and!; [vm_compute; reflexivity | done | done].
Qed.

Lemma broken_ext_file_gives_nan_results_witness :
  ∃ result_obj pe,
    _read_ext_table unit broken_file no_tables example_chain
    = inr (mkChain (chain_path example_chain) (chain_model example_chain)
             (chain_log example_chain
              ++ [LogError ("Broken ext-file "
                            +:+ path_str (with_suffix (chain_path example_chain) ".ext"))])
             (chain_results example_chain ++ [result_obj]))
    ∧ model_name result_obj = Some (stem (chain_path example_chain))
    ∧ table_number result_obj = Some 1
    ∧ parameter_estimates result_obj = Some pe
    ∧ series_name pe = "estimates"
    ∧ (∀ p, p ∈ parameters example_model → fix_ p = false →
            (param_name p, nan) ∈ series_items pe)
    ∧ (∀ k x, (k, x) ∈ series_items pe →
              x = nan
              ∧ ∃ p, p ∈ parameters example_model ∧ fix_ p = false ∧ param_name p = k)
    ∧ ofv result_obj = Some nan
    ∧ standard_errors result_obj
      = Some (if cov (mkEstimationStep true)
              then Some (constant_series nan "SE" (nonfixed_names example_model))
              else None).
Proof.
  apply (broken_ext_file_gives_nan_results unit broken_file no_tables
           example_chain example_model (mkEstimationStep true) []);
    reflexivity.
Defined.

End NonmemResults.

(* ===================================================================== *)
(** * NONMEM results: the tables of the ext-file and the matrices *)
(* ===================================================================== *)

Module NonmemTables.

Module R := NonmemResults.

(** The exceptions that leave the functions below. *)
Inductive Error :=
  | ValueError | UnboundLocalError | AttributeError | IndexError | OSError
  | OtherError.

(** A row of the data frame of an ext table: the columns [ITERATION] and
    [OBJ]. *)
Record ExtRow := mkExtRow { ITERATION : Z; OBJ : float }.

(** What the readers look at in a table of the ext-file (the table classes
    are outside the sources): [table.number], [table.subproblem], the
    property [table.data_frame], which raises [ValueError] on a broken table
    ([None] here), and the property [table.final_ofv]. *)
Record ExtTable := mkExtTable {
  number : nat;
  subproblem : nat;
  data_frame : option (list ExtRow);
  final_ofv : Error + float
}.

(** What [NONMEMTableFile(path)] does: the tables of the file, or an
    exception. *)
Inductive TableFile :=
  | TablesRead (tables : list ExtTable)
  | Raises (e : Error).

(** The negation of [subproblem and table.subproblem != subproblem], the
    test under which both loops skip a table; [subproblem] is [None] or an
    integer, and 0 is falsy. *)
Definition selected (subproblem_ : option nat) (table : ExtTable) : bool :=
  match subproblem_ with
  | None => true
  | Some n => negb (bool_decide (n ≠ 0) && bool_decide (subproblem table ≠ n))
  end.

(** The local variables of [parse_ext]; [final_ofv] is unbound ([None])
    until a table was read. *)
Record ExtLocals := mkLocals {
  step : list nat;
  iteration : list Z;
  ofv : list float;
  final_ofv_ : option float
}.

(** [pd.Series(ofv, name='OFV', index=[step, iteration])]: the three lists
    have the same length. *)
Definition OfvIterations : Type := list (nat * Z * float).

Definition ofv_series (l : ExtLocals) : OfvIterations :=
  zip (zip (step l) (iteration l)) (ofv l).

(** [estimation_steps[i]] with Python's negative indices. *)
Definition py_index {A} (l : list A) (i : Z) : option A :=
  if (0 <=? i)%Z then l !! Z.to_nat i
  else if (- Z.of_nat (length l) <=? i)%Z then l !! Z.to_nat (Z.of_nat (length l) + i)
  else None.

(** A [NONMEMChainedModelfitResults], with the attributes [_read_ext_table]
    reads and writes. *)
Record Chain := mkChain {
  _path : R.Path;
  _subproblem : option nat;
  model : option R.Model;
  log : list R.LogEntry;
  results : list R.NONMEMModelfitResults;
  chain_ofv : option float;
  ofv_iterations : option OfvIterations
}.

Definition log_error (self : Chain) (message : string) : Chain :=
  mkChain (_path self) (_subproblem self) (model self)
    (log self ++ [R.LogError message]) (results self)
    (chain_ofv self) (ofv_iterations self).

Definition append (self : Chain) (result_obj : R.NONMEMModelfitResults) : Chain :=
  mkChain (_path self) (_subproblem self) (model self) (log self)
    (results self ++ [result_obj]) (chain_ofv self) (ofv_iterations self).

Section reader.

(** The parser of table files, and lines 142 to 197 of results.py, which
    fill a result object from a table with a readable data frame through
    pandas and the table classes; both are outside the sources. The parser
    is a function of the path: the file does not change between the two
    reads of [_read_ext_table] and [parse_ext]. *)
Variable NONMEMTableFile : R.Path → TableFile.
Variable read_estimates :
  option R.Model → ExtTable → R.NONMEMModelfitResults → Error + R.NONMEMModelfitResults.

(** The loop of [parse_ext]; [i] is the counter of [enumerate]. *)
Fixpoint parse_ext_loop (subproblem_ : option nat) (i : nat) (ext_tables : list ExtTable)
    (l : ExtLocals) : Error + ExtLocals :=
  match ext_tables with
  | [] => inr l
  | table :: rest =>
      if selected subproblem_ table then
        match data_frame table with
        | None => inl ValueError
        | Some df =>
            let df := filter (λ r, (0 ≤ ITERATION r)%Z) df in
            let n := length df in
            match final_ofv table with
            | inl e => inl e
            | inr f =>
                parse_ext_loop subproblem_ (S i) rest
                  (mkLocals (step l ++ replicate n i)
                     (iteration l ++ (ITERATION <$> df))
                     (ofv l ++ (OBJ <$> df))
                     (Some f))
            end
        end
      else parse_ext_loop subproblem_ (S i) rest l
  end.

Definition parse_ext (path : R.Path) (subproblem_ : option nat)
  : Error + (float * OfvIterations) :=
  match NONMEMTableFile (R.with_suffix path ".ext") with
  | Raises e => inl e
  | TablesRead ext_tables =>
      match parse_ext_loop subproblem_ 1 ext_tables (mkLocals [] [] [] None) with
      | inl e => inl e
      | inr l =>
          let ofv_iterations := ofv_series l in
          match final_ofv_ l with
          | None => inl UnboundLocalError
          | Some f => inr (f, ofv_iterations)
          end
      end
  end.

(** One turn of the loop over the tables in [_read_ext_table]. *)
Definition read_table (self : Chain) (table : ExtTable) : Error + Chain :=
  if selected (_subproblem self) table then
    let result_obj :=
      R.mkResult (Some (R.stem (_path self))) (model self) (Some (number table))
        None None None in
    match data_frame table with
    | None =>
        let self :=
          log_error self
            ("Broken table in ext-file "
             +:+ R.path_str (R.with_suffix (_path self) ".ext")
             +:+ ", table no. " +:+ pretty (number table)) in
        match model self with
        | None => inl AttributeError
        | Some m =>
            match py_index (R.estimation_steps m) (Z.of_nat (number table) - 1) with
            | None => inl IndexError
            | Some estimation_step =>
                let is_covariance_step := R.cov estimation_step in
                inr (append self (R._fill_empty_results m result_obj is_covariance_step))
            end
        end
    | Some _ =>
        match read_estimates (model self) table result_obj with
        | inl e => inl e
        | inr result_obj => inr (append self result_obj)
        end
    end
  else inr self.

Fixpoint read_tables (self : Chain) (ext_tables : list ExtTable) : Error + Chain :=
  match ext_tables with
  | [] => inr self
  | table :: rest =>
      match read_table self table with
      | inl e => inl e
      | inr self => read_tables self rest
      end
  end.

(** [_read_ext_table], whole. *)
Definition _read_ext_table (self : Chain) : Error + Chain :=
  match NONMEMTableFile (R.with_suffix (_path self) ".ext") with
  | Raises ValueError =>
      (* The ext-file is illegal *)
      let self :=
        log_error self
          ("Broken ext-file " +:+ R.path_str (R.with_suffix (_path self) ".ext")) in
      let result_obj :=
        R.mkResult (Some (R.stem (_path self))) (model self) None None None None in
      match model self with
      | None => inl AttributeError
      | Some m =>
          match R.estimation_steps m with
          | [] => inl IndexError
          | first_step :: _ =>
              let result_obj := R._fill_empty_results m result_obj (R.cov first_step) in
              let result_obj :=
                R.mkResult (R.model_name result_obj) (R.res_model result_obj) (Some 1)
                  (R.parameter_estimates result_obj) (R.ofv result_obj)
                  (R.standard_errors result_obj) in
              inr (append self result_obj)
          end
      end
  | Raises e => inl e
  | TablesRead ext_tables =>
      match parse_ext (_path self) (_subproblem self) with
      | inl e => inl e
      | inr (final_ofv, ofv_iterations_) =>
          let self :=
            mkChain (_path self) (_subproblem self) (model self) (log self)
              (results self) (Some final_ofv) (Some ofv_iterations_) in
          read_tables self ext_tables
      end
  end.

(** ** [parse_ext] *)

(** The rows that the table at position [i] of the file contributes. *)
Definition table_rows (subproblem_ : option nat) (i : nat) (table : ExtTable)
  : OfvIterations :=
  if selected subproblem_ table then
    (λ r, (i, ITERATION r, OBJ r))
      <$> filter (λ r, (0 ≤ ITERATION r)%Z) (default [] (data_frame table))
  else [].

Definition readable (subproblem_ : option nat) (table : ExtTable) : Prop :=
  selected subproblem_ table = true →
  is_Some (data_frame table) ∧ ∃ f, final_ofv table = inr f.

Lemma zip_rows (i : nat) (df : list ExtRow) :
  zip (zip (replicate (length df) i) (ITERATION <$> df)) (OBJ <$> df)
  = (λ r, (i, ITERATION r, OBJ r)) <$> df.
Proof. induction df as [|r df IH]; [done|]. simpl. f_equal. apply IH. Qed.

Lemma parse_ext_loop_inr sub i tables l l' :
  length (step l) = length (iteration l) →
  length (iteration l) = length (ofv l) →
  parse_ext_loop sub i tables l = inr l' →
  ofv_series l' = ofv_series l ++ mjoin (imap (λ k, table_rows sub (i + k)) tables)
  ∧ Forall (readable sub) tables
  ∧ match last (filter (λ t, selected sub t = true) tables) with
    | Some t => ∃ f, final_ofv t = inr f ∧ final_ofv_ l' = Some f
    | None => final_ofv_ l' = final_ofv_ l
    end.
Proof.
  revert i l. induction tables as [|t tables IH]; intros i l Hlen1 Hlen2; simpl.
  - intros [= <-]. by rewrite app_nil_r.
  - unfold table_rows at 1, readable at 1.
    destruct (selected sub t) eqn:Hsel.
    + destruct (data_frame t) as [df|] eqn:Hdf; [|done].
      destruct (final_ofv t) as [e|f] eqn:Hfinal; [done|].
      intros Hloop. apply IH in Hloop; simpl; rewrite ?length_app, ?length_replicate,
        ?length_fmap; [|lia..].
      destruct Hloop as (Hseries & Hread & Hlast). split_and!.
      * rewrite Hseries. unfold ofv_series at 1. simpl.
        rewrite !zip_with_app, zip_rows, Nat.add_0_r, <- app_assoc
          by (rewrite ?length_zip_with, ?length_replicate, ?length_fmap; lia).
        f_equal. f_equal. f_equal. apply imap_ext. intros k t' _. simpl.
        f_equal. lia.
      * constructor; [|done]. intros _. split; [by eexists | by eexists].
      * rewrite filter_cons_True by done.
        destruct (filter (λ t0, selected sub t0 = true) tables) as [|t' ts] eqn:Hf.
        -- simpl in *. exists f. by rewrite Hlast.
        -- rewrite last_cons_cons.
           destruct (last (t' :: ts)) eqn:Hl; [exact Hlast|].
           by apply last_None in Hl.
    + intros Hloop. apply IH in Hloop; [|done..].
      destruct Hloop as (Hseries & Hread & Hlast). split_and!.
      * rewrite Hseries. simpl. f_equal. f_equal. apply imap_ext. intros k t' _.
        simpl. f_equal. lia.
      * constructor; [|done]. intros ?. congruence.
      * rewrite filter_cons_False by congruence. done.
Qed.

Lemma elem_of_table_rows sub i t x :
  x ∈ table_rows sub i t ↔
  selected sub t = true
  ∧ ∃ df, data_frame t = Some df ∧ mkExtRow x.1.2 x.2 ∈ df
          ∧ (0 ≤ x.1.2)%Z ∧ x.1.1 = i.
Proof.
  unfold table_rows. destruct (selected sub t); last first.
  { split; [by intros ?%elem_of_nil | by intros [? _]]. }
  rewrite list_elem_of_fmap. split.
  - intros ([it v] & -> & [Hit Hr]%list_elem_of_filter). split; [done|].
    destruct (data_frame t) as [df|]; [|by apply elem_of_nil in Hr].
    exists df. done.
  - intros (_ & df & -> & Hr & Hit & <-). exists (mkExtRow x.1.2 x.2).
    destruct x as [[i it] v]. split; [done|]. by apply list_elem_of_filter.
Qed.

Definition step_le (x y : nat * Z * float) : Prop := x.1.1 ≤ y.1.1.

Lemma constant_step_sorted i (l : OfvIterations) :
  Forall (λ x, x.1.1 = i) l → StronglySorted step_le l.
Proof.
  induction 1 as [|x l Hx Hl IH]; constructor; [done|].
  eapply Forall_impl; [done|]. unfold step_le. simpl. lia.
Qed.

Lemma table_rows_sorted sub i tables :
  StronglySorted step_le (mjoin (imap (λ k, table_rows sub (i + k)) tables))
  ∧ Forall (λ x, i ≤ x.1.1) (mjoin (imap (λ k, table_rows sub (i + k)) tables)).
Proof.
  revert i. induction tables as [|t tables IH]; intros i; simpl.
  - split; constructor.
  - rewrite (imap_ext _ (λ k, table_rows sub (S i + k))) by (intros; simpl; f_equal; lia).
    destruct (IH (S i)) as [Hsorted Hge].
    assert (Hhere : Forall (λ x, x.1.1 = i) (table_rows sub (i + 0) t)).
    { apply Forall_forall. by intros x (_ & df & _ & _ & _ & ->)%elem_of_table_rows. }
    split.
    + apply StronglySorted_app_2; [|by eapply constant_step_sorted | done].
      intros x y Hx Hy. rewrite Forall_forall in Hhere, Hge.
      specialize (Hhere x Hx). specialize (Hge y Hy). unfold step_le. lia.
    + apply Forall_app. split.
      * eapply Forall_impl; [done|]. simpl. lia.
      * eapply Forall_impl; [done|]. simpl. lia.
Qed.

Lemma elem_of_joined_rows sub i tables x :
  x ∈ mjoin (imap (λ k, table_rows sub (i + k)) tables) ↔
  ∃ k t, tables !! k = Some t ∧ x ∈ table_rows sub (i + k) t.
Proof.
  rewrite list_elem_of_join. split.
  - intros (rows & Hx & (k & t & -> & Ht)%elem_of_lookup_imap). by exists k, t.
  - intros (k & t & Ht & Hx). exists (table_rows sub (i + k) t). split; [done|].
    apply elem_of_lookup_imap. by exists k, t.
Qed.

(** X9: when [parse_ext] returns, the final OFV is that of the last table
    of the file that the subproblem test lets through, and the series holds
    exactly the rows with non-negative ITERATION of the tables let through,
    each under the position (from 1) of its table in the whole file, in
    file order. *)
Theorem parse_ext_returns path sub final series :
  parse_ext path sub = inr (final, series) →
  ∃ tables t,
    NONMEMTableFile (R.with_suffix path ".ext") = TablesRead tables
    ∧ last (filter (λ t, selected sub t = true) tables) = Some t
    ∧ final_ofv t = inr final
    ∧ (∀ i it v,
         (i, it, v) ∈ series ↔
         ∃ k t df, i = S k ∧ tables !! k = Some t ∧ selected sub t = true
                   ∧ data_frame t = Some df ∧ mkExtRow it v ∈ df ∧ (0 ≤ it)%Z)
    ∧ StronglySorted step_le series.
Proof.
  unfold parse_ext.
  destruct (NONMEMTableFile (R.with_suffix path ".ext")) as [tables|e]; [|done].
  destruct (parse_ext_loop sub 1 tables (mkLocals [] [] [] None)) as [e|l] eqn:Hloop;
    [done|].
  apply parse_ext_loop_inr in Hloop as (Hseries & _ & Hlast); [|done..].
  destruct (final_ofv_ l) as [f|] eqn:Hf; [|done]. intros [= -> <-].
  change (ofv_series (mkLocals [] [] [] None)) with (@nil (nat * Z * float)) in Hseries.
  rewrite app_nil_l in Hseries.
  destruct (last (filter (λ t, selected sub t = true) tables)) as [t|] eqn:Ht;
    [|simpl in Hlast; congruence].
  destruct Hlast as (f' & Hfinal & [= <-]).
  exists tables, t. split_and!; [done.. | |].
  - intros i it v. rewrite Hseries, elem_of_joined_rows. split.
    + intros (k & t' & Ht' & (Hsel & df & Hdf & Hr & Hit & Hi)%elem_of_table_rows).
      simpl in *. subst i. by exists k, t', df.
    + intros (k & t' & df & -> & Ht' & Hsel & Hdf & Hr & Hit).
      exists k, t'. split; [done|]. apply elem_of_table_rows. split; [done|].
      by exists df.
  - rewrite Hseries. apply table_rows_sorted.
Qed.

(** ** [_read_ext_table] on a file the parser accepts *)

Lemma parse_ext_loop_none_selected sub i tables l :
  filter (λ t, selected sub t = true) tables = [] →
  parse_ext_loop sub i tables l = inr l.
Proof.
  revert i. induction tables as [|t tables IH]; intros i; [done|]. simpl.
  destruct (selected sub t) eqn:Hsel.
  - by rewrite filter_cons_True.
  - rewrite filter_cons_False by congruence. apply IH.
Qed.

Lemma parse_ext_loop_broken sub i pre t post l :
  Forall (readable sub) pre →
  selected sub t = true → data_frame t = None →
  parse_ext_loop sub i (pre ++ t :: post) l = inl ValueError.
Proof.
  intros Hpre Hsel Hdf. revert i l.
  induction Hpre as [|t' pre Ht' _ IH]; intros i l; simpl.
  - by rewrite Hsel, Hdf.
  - destruct (selected sub t') eqn:Hsel'; [|apply IH].
    destruct (Ht' Hsel') as [[df ->] [f ->]]. apply IH.
Qed.

(** X10: on an ext-file that the parser accepts, [_read_ext_table] raises
    [UnboundLocalError] when the subproblem test lets no table through, and
    [ValueError] when the data frame of a table let through is broken and
    the tables before it are readable: [parse_ext] reads every data frame
    outside any [try], before the loop that would log the broken table. *)
Theorem read_ext_table_raises self tables :
  NONMEMTableFile (R.with_suffix (_path self) ".ext") = TablesRead tables →
  (filter (λ t, selected (_subproblem self) t = true) tables = [] →
   _read_ext_table self = inl UnboundLocalError)
  ∧ (∀ pre t post,
       tables = pre ++ t :: post →
       Forall (readable (_subproblem self)) pre →
       selected (_subproblem self) t = true → data_frame t = None →
       _read_ext_table self = inl ValueError).
Proof.
  intros Hfile. unfold _read_ext_table, parse_ext. rewrite Hfile. split.
  - intros Hnone. by rewrite parse_ext_loop_none_selected.
  - intros pre t post -> Hpre Hsel Hdf. by rewrite parse_ext_loop_broken.
Qed.

Lemma read_tables_inr self tables self' :
  Forall (λ t, selected (_subproblem self) t = true → is_Some (data_frame t)) tables →
  read_tables self tables = inr self' →
  _path self' = _path self ∧ _subproblem self' = _subproblem self
  ∧ model self' = model self ∧ log self' = log self
  ∧ chain_ofv self' = chain_ofv self ∧ ofv_iterations self' = ofv_iterations self
  ∧ ∃ new, results self' = results self ++ new
           ∧ length new
             = length (filter (λ t, selected (_subproblem self) t = true) tables).
Proof.
  intros Hread. revert self self' Hread.
  induction tables as [|t tables IH]; intros self self' Hread; simpl.
  - intros [= <-]. split_and!; try done. exists []. by rewrite app_nil_r.
  - apply Forall_cons in Hread as [Ht Hread]. unfold read_table.
    destruct (selected (_subproblem self) t) eqn:Hsel.
    + destruct (Ht eq_refl) as [df ->].
      destruct (read_estimates _ _ _) as [e|result_obj]; [done|].
      intros Hrest. apply IH in Hrest; [|done]. simpl in Hrest.
      destruct Hrest as (? & ? & ? & ? & ? & ? & new & Hnew & Hlen).
      split_and!; try done. exists (result_obj :: new).
      rewrite Hnew, <- app_assoc. split; [done|].
      rewrite filter_cons_True by done. simpl. by rewrite Hlen.
    + intros Hrest. apply IH in Hrest; [|done].
      destruct Hrest as (? & ? & ? & ? & ? & ? & new & Hnew & Hlen).
      split_and!; try done. exists new. split; [done|].
      by rewrite filter_cons_False by congruence.
Qed.

(** X11: when [_read_ext_table] returns on an ext-file that the parser
    accepts, it has logged nothing, so the branch "Broken table in
    ext-file" was not taken: every table let through has a readable data
    frame. There is at least one such table; one result object per such
    table was appended after the results already there, and [ofv] and
    [ofv_iterations] of the chain are what [parse_ext] returned. *)
Theorem read_ext_table_returns self self' tables :
  NONMEMTableFile (R.with_suffix (_path self) ".ext") = TablesRead tables →
  _read_ext_table self = inr self' →
  log self' = log self
  ∧ (∀ t, t ∈ tables → selected (_subproblem self) t = true →
          is_Some (data_frame t))
  ∧ (∃ new,
       results self' = results self ++ new
       ∧ length new
         = length (filter (λ t, selected (_subproblem self) t = true) tables)
       ∧ 1 ≤ length new)
  ∧ (∃ final series,
       parse_ext (_path self) (_subproblem self) = inr (final, series)
       ∧ chain_ofv self' = Some final ∧ ofv_iterations self' = Some series)
  ∧ _path self' = _path self ∧ _subproblem self' = _subproblem self
  ∧ model self' = model self.
Proof.
  intros Hfile. unfold _read_ext_table. rewrite Hfile.
  destruct (parse_ext (_path self) (_subproblem self)) as [e|[final series]] eqn:Hparse;
    [done|].
  intros Hread.
  assert (Hloop : Forall (readable (_subproblem self)) tables
                  ∧ filter (λ t, selected (_subproblem self) t = true) tables ≠ []).
  { unfold parse_ext in Hparse. rewrite Hfile in Hparse.
    destruct (parse_ext_loop _ 1 tables _) as [e|l] eqn:Hloop; [done|].
    apply parse_ext_loop_inr in Hloop as (_ & Hreadable & Hlast); [|done..].
    split; [done|]. intros Hnil. rewrite Hnil in Hlast. simpl in Hlast.
    by rewrite Hlast in Hparse. }
  destruct Hloop as [Hreadable Hsome].
  apply read_tables_inr in Hread; simpl; last first.
  { eapply Forall_impl; [done|]. intros t Ht Hsel. by destruct (Ht Hsel). }
  simpl in Hread. destruct Hread as (? & ? & ? & ? & ? & ? & new & Hnew & Hlen).
  split_and!; try done.
  - intros t Ht Hsel. rewrite Forall_forall in Hreadable.
    by destruct (Hreadable t Ht Hsel).
  - exists new. split_and!; [done..|]. rewrite Hlen.
    destruct (filter _ tables); [done | simpl; lia].
  - by exists final, series.
Qed.

End reader.

(** ** [_calculate_cov_cor_coi] *)

Section matrices.

(** Data frames of the cov-, cor- and coi-file. *)
Variable Matrix : Type.

(** The attributes of a result object that [_calculate_cov_cor_coi] reads
    and writes, all set by the readers before ([None] is Python's). *)
Record Matrices := mkMatrices {
  covariance_matrix : option Matrix;
  correlation_matrix : option Matrix;
  information_matrix : option Matrix;
  standard_errors : option R.Series
}.

(** The functions of [pharmpy.modeling] that the method calls; they are
    outside the sources. Each returns a data frame or a series, or raises. *)
Record Calculators := mkCalculators {
  calculate_cov_from_corrse : Matrix → option R.Series → Error + Matrix;
  calculate_cov_from_inf : Matrix → Error + Matrix;
  calculate_corr_from_cov : Matrix → Error + Matrix;
  calculate_corr_from_inf : Matrix → Error + Matrix;
  calculate_inf_from_cov : Matrix → Error + Matrix;
  calculate_inf_from_corrse : Matrix → option R.Series → Error + Matrix;
  calculate_se_from_cov : Matrix → Error + R.Series;
  calculate_se_from_inf : Matrix → Error + R.Series
}.

(** Statements in sequence, the first exception ending the call. *)
Definition bind {A B} (x : Error + A) (k : A → Error + B) : Error + B :=
  match x with
  | inl e => inl e
  | inr a => k a
  end.

Definition set_covariance_matrix (obj : Matrices) (v : Matrix) : Matrices :=
  mkMatrices (Some v) (correlation_matrix obj) (information_matrix obj)
    (standard_errors obj).

Definition set_correlation_matrix (obj : Matrices) (v : Matrix) : Matrices :=
  mkMatrices (covariance_matrix obj) (Some v) (information_matrix obj)
    (standard_errors obj).

Definition set_information_matrix (obj : Matrices) (v : Matrix) : Matrices :=
  mkMatrices (covariance_matrix obj) (correlation_matrix obj) (Some v)
    (standard_errors obj).

Definition set_standard_errors (obj : Matrices) (v : R.Series) : Matrices :=
  mkMatrices (covariance_matrix obj) (correlation_matrix obj) (information_matrix obj)
    (Some v).

(** The body of the loop, for one result object. *)
Definition calculate_obj (modeling : Calculators) (obj : Matrices) : Error + Matrices :=
  bind
    (match covariance_matrix obj with
     | None =>
         match correlation_matrix obj with
         | Some cor =>
             bind (calculate_cov_from_corrse modeling cor (standard_errors obj))
               (λ v, inr (set_covariance_matrix obj v))
         | None =>
             match information_matrix obj with
             | Some inf =>
                 bind (calculate_cov_from_inf modeling inf)
                   (λ v, inr (set_covariance_matrix obj v))
             | None => inr obj
             end
         end
     | Some _ => inr obj
     end)
    (λ obj,
  bind
    (match correlation_matrix obj with
     | None =>
         match covariance_matrix obj with
         | Some cov_ =>
             bind (calculate_corr_from_cov modeling cov_)
               (λ v, inr (set_correlation_matrix obj v))
         | None =>
             match information_matrix obj with
             | Some inf =>
                 bind (calculate_corr_from_inf modeling inf)
                   (λ v, inr (set_correlation_matrix obj v))
             | None => inr obj
             end
         end
     | Some _ => inr obj
     end)
    (λ obj,
  bind
    (match information_matrix obj with
     | None =>
         match covariance_matrix obj with
         | Some cov_ =>
             bind (calculate_inf_from_cov modeling cov_)
               (λ v, inr (set_information_matrix obj v))
         | None =>
             match correlation_matrix obj with
             | Some cor =>
                 bind (calculate_inf_from_corrse modeling cor (standard_errors obj))
                   (λ v, inr (set_information_matrix obj v))
             | None => inr obj
             end
         end
     | Some _ => inr obj
     end)
    (λ obj,
    match standard_errors obj with
    | None =>
        match covariance_matrix obj with
        | Some cov_ =>
            bind (calculate_se_from_cov modeling cov_)
              (λ v, inr (set_standard_errors obj v))
        | None =>
            match information_matrix obj with
            | Some inf =>
                bind (calculate_se_from_inf modeling inf)
                  (λ v, inr (set_standard_errors obj v))
            | None => inr obj
            end
        end
    | Some _ => inr obj
    end))).

(** [for obj in self: ...] *)
Fixpoint _calculate_cov_cor_coi (modeling : Calculators) (self : list Matrices)
  : Error + list Matrices :=
  match self with
  | [] => inr []
  | obj :: rest =>
      bind (calculate_obj modeling obj) (λ obj,
      bind (_calculate_cov_cor_coi modeling rest) (λ rest, inr (obj :: rest)))
  end.

(** What the call leaves of one object [obj] in [obj']. *)
Record completed (modeling : Calculators) (obj obj' : Matrices) : Prop := {
  kept_cov : ∀ v, covariance_matrix obj = Some v → covariance_matrix obj' = Some v;
  kept_cor : ∀ v, correlation_matrix obj = Some v → correlation_matrix obj' = Some v;
  kept_inf : ∀ v, information_matrix obj = Some v → information_matrix obj' = Some v;
  kept_se : ∀ v, standard_errors obj = Some v → standard_errors obj' = Some v;
  all_or_nothing :
    (covariance_matrix obj = None ∧ correlation_matrix obj = None
     ∧ information_matrix obj = None ∧ obj' = obj)
    ∨ (∃ cov_ cor inf se,
         covariance_matrix obj' = Some cov_ ∧ correlation_matrix obj' = Some cor
         ∧ information_matrix obj' = Some inf ∧ standard_errors obj' = Some se
         ∧ (correlation_matrix obj = None →
            calculate_corr_from_cov modeling cov_ = inr cor)
         ∧ (information_matrix obj = None →
            calculate_inf_from_cov modeling cov_ = inr inf)
         ∧ (standard_errors obj = None →
            calculate_se_from_cov modeling cov_ = inr se))
}.

Lemma calculate_obj_completed modeling obj obj' :
  calculate_obj modeling obj = inr obj' → completed modeling obj obj'.
Proof.
  destruct obj as [[cov_|] [cor|] [inf|] [se|]]; unfold calculate_obj; simpl;
    repeat (match goal with
            | |- context [bind (?c modeling ?a ?b)] =>
                let H := fresh "H" in destruct (c modeling a b) eqn:H; simpl
            | |- context [bind (?c modeling ?a)] =>
                let H := fresh "H" in destruct (c modeling a) eqn:H; simpl
            end);
    try done; intros [= <-]; split; simpl; try done;
    first [ by left | right; eexists _, _, _, _; split_and!; done ].
Qed.

(** X12: when [_calculate_cov_cor_coi] returns, no attribute that was
    given has changed, and every result object either had none of the three
    matrices and is unchanged, or now has covariance, correlation and
    information matrix and standard errors; what was missing of the
    correlation matrix, the information matrix and the standard errors was
    computed from the covariance matrix. *)
Theorem calculate_cov_cor_coi_completes modeling self self' :
  _calculate_cov_cor_coi modeling self = inr self' →
  Forall2 (completed modeling) self self'.
Proof.
  revert self'. induction self as [|obj rest IH]; intros self'; simpl.
  - intros [= <-]. constructor.
  - destruct (calculate_obj modeling obj) as [e|obj'] eqn:Hobj; [done|]. simpl.
    destruct (_calculate_cov_cor_coi modeling rest) as [e|rest']; [done|]. simpl.
    intros [= <-]. constructor; [by apply calculate_obj_completed | by apply IH].
Qed.

(** X13: the results of [calculate_corr_from_inf],
    [calculate_inf_from_corrse] and [calculate_se_from_inf] play no part:
    the [elif] branches that call them are never taken, since a missing
    covariance matrix has been computed first whenever another matrix was
    there. *)
Theorem calculate_cov_cor_coi_unused_calculators modeling corr_from_inf inf_from_corrse
    se_from_inf self :
  _calculate_cov_cor_coi modeling self
  = _calculate_cov_cor_coi
      (mkCalculators
         (calculate_cov_from_corrse modeling) (calculate_cov_from_inf modeling)
         (calculate_corr_from_cov modeling) corr_from_inf
         (calculate_inf_from_cov modeling) inf_from_corrse
         (calculate_se_from_cov modeling) se_from_inf)
      self.
Proof.
  induction self as [|obj rest IH]; simpl; [done|]. rewrite <- IH. f_equal.
  destruct obj as [[cov_|] [cor|] [inf|] [se|]]; unfold calculate_obj; simpl;
    repeat (match goal with
            | |- context [bind (?c modeling ?a ?b)] =>
                destruct (c modeling a b); simpl
            | |- context [bind (?c modeling ?a)] =>
                destruct (c modeling a); simpl
            end);
    done.
Qed.

End matrices.

(** ** An ext-file with two tables, and one with a broken table *)

Definition example_tables : list ExtTable :=
  [mkExtTable 1 1
     (Some [mkExtRow 0 100; mkExtRow 5 90; mkExtRow (-1000000000) 90]) (inr 90%float);
   mkExtTable 2 2
     (Some [mkExtRow 0 80; mkExtRow (-1000000000) 75]) (inr 75%float)].

Definition broken_table : ExtTable := mkExtTable 3 2 None (inr 0%float).

(** The file "run1.ext" holds the two tables, "run2.ext" a third, broken
    one after them. *)
Definition example_file (path : R.Path) : TableFile :=
  if decide (R.stem path = "run1") then TablesRead example_tables
  else TablesRead (example_tables ++ [broken_table]).

Definition example_estimates (m : option R.Model) (table : ExtTable)
    (result_obj : R.NONMEMModelfitResults) : Error + R.NONMEMModelfitResults :=
  inr result_obj.

Definition example_chain (stem_ : string) (subproblem_ : option nat) : Chain :=
  mkChain (R.mkPath "models/" stem_ ".mod") subproblem_ (Some R.example_model)
    [] [] None None.

Definition example_chain_read : Chain :=
  match _read_ext_table example_file example_estimates (example_chain "run1" (Some 2)) with
  | inr self => self
  | inl _ => example_chain "run1" (Some 2)
  end.

Lemma parse_ext_returns_witness :
  ∃ tables t,
    example_file (R.with_suffix (R.mkPath "models/" "run1" ".mod") ".ext")
    = TablesRead tables
    ∧ last (filter (λ t, selected (Some 2) t = true) tables) = Some t
    ∧ final_ofv t = inr 75%float
    ∧ (∀ i it v,
         (i, it, v) ∈ [(2, 0%Z, 80%float)] ↔
         ∃ k t df, i = S k ∧ tables !! k = Some t ∧ selected (Some 2) t = true
                   ∧ data_frame t = Some df ∧ mkExtRow it v ∈ df ∧ (0 ≤ it)%Z)
    ∧ StronglySorted step_le [(2, 0%Z, 80%float)].
Proof.
  apply (parse_ext_returns example_file (R.mkPath "models/" "run1" ".mod") (Some 2)
           75%float [(2, 0%Z, 80%float)]).
  vm_compute. reflexivity.
Defined.

Lemma read_ext_table_raises_witness :
  _read_ext_table example_file example_estimates (example_chain "run1" (Some 3))
  = inl UnboundLocalError
  ∧ _read_ext_table example_file example_estimates (example_chain "run2" None)
    = inl ValueError.
Proof.
  split.
  - apply (proj1 (read_ext_table_raises example_file example_estimates
                    (example_chain "run1" (Some 3)) example_tables eq_refl)).
    reflexivity.
  - apply (proj2 (read_ext_table_raises example_file example_estimates
                    (example_chain "run2" None) (example_tables ++ [broken_table])
                    eq_refl) example_tables broken_table []);
      [reflexivity | | reflexivity..].
    repeat (constructor; [intros _; split; by eexists|]). constructor.
Defined.

Lemma read_ext_table_returns_witness :
  log example_chain_read = []
  ∧ (∃ new, results example_chain_read = [] ++ new ∧ length new = 1)
  ∧ chain_ofv example_chain_read = Some 75%float.
Proof.
  destruct (read_ext_table_returns example_file example_estimates
              (example_chain "run1" (Some 2)) example_chain_read example_tables)
    as (Hlog & _ & (new & Hnew & Hlen & _) & (final & series & Hparse & Hofv & _) & _);
    [reflexivity | vm_compute; reflexivity |].
  split_and!; [exact Hlog | by exists new |].
  rewrite Hofv. vm_compute in Hparse. by injection Hparse as <- _.
Defined.

(** Matrices as numbers, and calculators that say what they were asked. *)
Definition example_calculators : Calculators Z :=
  mkCalculators Z
    (λ cor se, inr (cor + 1)%Z) (λ inf, inr (inf + 2)%Z)
    (λ cov_, inr (cov_ + 3)%Z) (λ inf, inl OtherError)
    (λ cov_, inr (cov_ + 5)%Z) (λ cor se, inl OtherError)
    (λ cov_, inr (R.mkSeries "SE" [])) (λ inf, inl OtherError).

Definition example_matrices : list (Matrices Z) :=
  [mkMatrices Z None None None None;
   mkMatrices Z None None (Some 10%Z) None;
   mkMatrices Z None (Some 20%Z) None (Some (R.mkSeries "SE" [("THETA(1)", 1%float)]))].

Lemma calculate_cov_cor_coi_completes_witness :
  Forall2 (completed Z example_calculators) example_matrices
    [mkMatrices Z None None None None;
     mkMatrices Z (Some 12%Z) (Some 15%Z) (Some 10%Z) (Some (R.mkSeries "SE" []));
     mkMatrices Z (Some 21%Z) (Some 20%Z) (Some 26%Z)
       (Some (R.mkSeries "SE" [("THETA(1)", 1%float)]))].
Proof.
  apply (calculate_cov_cor_coi_completes Z example_calculators example_matrices).
  vm_compute. reflexivity.
Defined.

End NonmemTables.

(* ===================================================================== *)
(** * The candidates of the IIV search *)
(* ===================================================================== *)

Module Iivsearch.

(** [itertools.combinations(iterable, r)]: the subsequences of length [r],
    in lexicographic order of the positions. *)
Fixpoint combinations {A} (iterable : list A) (r : nat) : list (list A) :=
  match r, iterable with
  | 0, _ => [[]]
  | S _, [] => []
  | S r', x :: rest => ((x ::.) <$> combinations rest r') ++ combinations rest r
  end.

(** [[item for sublist in list_to_flatten for item in sublist]] *)
Definition _flatten {A} (list_to_flatten : list (list A)) : list A :=
  sublist ← list_to_flatten; item ← sublist; [item].

(** The first loop of [_get_eta_combinations], over [etas.names]: all
    possible combinations of etas. *)
Definition eta_combos (names : list string) : list (list string) :=
  i ← seq 1 (length names); combinations names i.

(** The second loop: all possible combinations of blocks. [len(set(l))] is
    the number of different items of [l]. *)
Definition block_combos (names : list string) : list (list (list string)) :=
  i ← seq 1 (length names);
  filter (λ combo,
            let etas_in_combo := _flatten combo in
            let etas_unique := remove_dups etas_in_combo in
            length etas_in_combo = length names ∧ length etas_unique = length names)
         (combinations (eta_combos names) i).

(** The value of [_get_eta_combinations] is a list of combinations of etas
    or, with [as_blocks], a list of combinations of blocks. *)
Inductive Combinations :=
  | Etas (eta_combos : list (list string))
  | Blocks (block_combos : list (list (list string))).

Definition _get_eta_combinations (names : list string) (as_blocks : bool) : Combinations :=
  if negb as_blocks then Etas (eta_combos names) else Blocks (block_combos names).

(** [_is_current_block_structure]; [distributions] are the lists of names
    [[rv.name for rv in rvs]] of [etas.distributions()], in order. *)
Fixpoint _is_current_block_structure (distributions : list (list string))
    (combos : list (list string)) : bool :=
  match distributions with
  | [] => true
  | names :: rest =>
      if decide (names ∉ combos) then false
      else _is_current_block_structure rest combos
  end.

(** The candidates of [brute_force_no_of_etas]: the model name given to the
    'copy' task and the etas given to the 'remove_eta' task, in the order
    of creation. The description of the base model and the workflow around
    the tasks are left out. *)
Definition brute_force_no_of_etas (names : list string)
  : list (string * list string) :=
  imap (λ i combo, ("iivsearch_no_of_etas_candidate" +:+ pretty (S i), combo))
       (eta_combos names).

(** The loop of [brute_force_block_structure]. *)
Fixpoint block_structure_loop (distributions : list (list string))
    (combos : list (list (list string))) (model_no : nat)
  : list (string * list (list string)) :=
  match combos with
  | [] => []
  | combo :: rest =>
      if _is_current_block_structure distributions combo then
        block_structure_loop distributions rest model_no
      else
        ("iivsearch_block_structure_candidate" +:+ pretty model_no, combo)
        :: block_structure_loop distributions rest (S model_no)
  end.

(** The candidates of [brute_force_block_structure]: the model name given
    to the 'copy' task and the blocks given to the 'create_eta_blocks'
    task. *)
Definition brute_force_block_structure (names : list string)
    (distributions : list (list string)) : list (string * list (list string)) :=
  block_structure_loop distributions (block_combos names) 1.

(** ** Combinations *)

Lemma flatten_join {A} (ls : list (list A)) : _flatten ls = mjoin ls.
Proof.
  unfold _flatten. induction ls as [|l ls IH]; [done|].
  rewrite bind_cons, IH. simpl. f_equal.
  induction l as [|x l IHl]; [done|]. rewrite bind_cons, IHl. done.
Qed.

Lemma elem_of_combinations {A} (l : list A) r c :
  c ∈ combinations l r ↔ c `sublist_of` l ∧ length c = r.
Proof.
  revert r c. induction l as [|x l IH]; intros [|r] c; simpl.
  - rewrite list_elem_of_singleton, sublist_nil_r. split; [by intros ->|by intros [-> _]].
  - rewrite sublist_nil_r. split; [by intros Hc%elem_of_nil | intros [-> Hlen]; done].
  - rewrite list_elem_of_singleton. split.
    + intros ->. split; [apply sublist_nil_l | done].
    + intros [_ Hlen]. by destruct c.
  - rewrite elem_of_app, list_elem_of_fmap, sublist_cons_r. setoid_rewrite IH. split.
    + intros [(c' & -> & Hsub & Hlen) | [Hsub Hlen]].
      * split; [right; by exists c' | simpl; by rewrite Hlen].
      * split; [by left | done].
    + intros [[Hsub | (c' & -> & Hsub)] Hlen].
      * by right.
      * left. exists c'. simpl in Hlen. split; [done|]. split; [done | lia].
Qed.

Lemma NoDup_combinations {A} (l : list A) r : NoDup l → NoDup (combinations l r).
Proof.
  intros Hnd. revert r. induction Hnd as [|x l Hx Hnd IH]; intros [|r]; simpl;
    try apply NoDup_singleton; [apply NoDup_nil_2|].
  apply NoDup_app. split_and!.
  - apply NoDup_fmap_2; [apply _ | apply IH].
  - intros c [c' [-> Hc']]%list_elem_of_fmap [Hsub _]%elem_of_combinations.
    apply Hx. eapply sublist_subseteq; [done | left].
  - apply IH.
Qed.

Lemma combinations_too_long {A} (l : list A) r :
  length l < r → combinations l r = [].
Proof.
  revert r. induction l as [|x l IH]; intros [|r] Hlen; simpl in *; try lia; [done|].
  rewrite !IH by lia. done.
Qed.

Lemma sum_list_with_add {A} (f g : A → nat) l :
  sum_list_with (λ x, f x + g x) l = sum_list_with f l + sum_list_with g l.
Proof. induction l as [|x l IH]; simpl; lia. Qed.

Lemma sum_list_with_ext {A} (f g : A → nat) l :
  (∀ x, f x = g x) → sum_list_with f l = sum_list_with g l.
Proof. intros Hfg. induction l as [|x l IH]; simpl; [done|]. by rewrite Hfg, IH. Qed.

Lemma sum_list_with_seq_S (g : nat → nat) j n :
  sum_list_with (λ r, g (S r)) (seq j n) = sum_list_with g (seq (S j) n).
Proof. revert j. induction n as [|n IH]; intros j; simpl; [done|]. by rewrite IH. Qed.

Lemma length_combinations_total {A} (l : list A) :
  1 + sum_list_with (λ r, length (combinations l r)) (seq 1 (length l))
  = 2 ^ length l.
Proof.
  induction l as [|x l IH]; [done|].
  set (count := λ r, length (combinations l r)) in *.
  assert (Hstep : ∀ r, length (combinations (x :: l) (S r)) = count r + count (S r)).
  { intros r. unfold count. simpl. by rewrite length_app, length_fmap. }
  assert (Hzero : count 0 = 1) by (unfold count; by destruct l).
  assert (Hlast : count (S (length l)) = 0).
  { unfold count. by rewrite combinations_too_long by lia. }
  change (length (x :: l)) with (S (length l)).
  rewrite <- (sum_list_with_seq_S (λ r, length (combinations (x :: l) r)) 0).
  rewrite (sum_list_with_ext _ (λ r, count r + count (S r))) by done.
  rewrite sum_list_with_add, (sum_list_with_seq_S count 0).
  rewrite (seq_S (length l) 1), sum_list_with_app.
  change (seq 0 (S (length l))) with (0 :: seq 1 (length l)).
  simpl sum_list_with. rewrite Hzero, Hlast, Nat.pow_succ_r'. lia.
Qed.

Lemma length_bind_sum {A B} (f : A → list B) (l : list A) :
  length (l ≫= f) = sum_list_with (λ x, length (f x)) l.
Proof.
  induction l as [|x l IH]; [done|]. rewrite bind_cons, length_app, IH. done.
Qed.

(** ** The combinations of etas *)

Lemma elem_of_eta_combos names c :
  c ∈ eta_combos names ↔ c ≠ [] ∧ c `sublist_of` names.
Proof.
  unfold eta_combos. rewrite list_elem_of_bind. split.
  - intros (i & [Hsub Hlen]%elem_of_combinations & [Hi _]%elem_of_seq).
    split; [|done]. intros ->. simpl in Hlen. lia.
  - intros [Hne Hsub]. exists (length c). split; [by apply elem_of_combinations|].
    apply elem_of_seq. apply sublist_length in Hsub.
    destruct c; [done|]. simpl in *. lia.
Qed.

Lemma NoDup_eta_combos names : NoDup names → NoDup (eta_combos names).
Proof.
  intros Hnd. apply NoDup_bind.
  - intros i j c _ _ [_ Hi]%elem_of_combinations [_ Hj]%elem_of_combinations.
    congruence.
  - intros i _. by apply NoDup_combinations.
  - apply NoDup_seq.
Qed.

Lemma length_eta_combos names : length (eta_combos names) = 2 ^ length names - 1.
Proof.
  unfold eta_combos. rewrite length_bind_sum.
  pose proof (length_combinations_total names). lia.
Qed.

(** X14: [brute_force_no_of_etas] creates [2^n - 1] candidates for [n]
    etas, named "iivsearch_no_of_etas_candidate" and the number of the
    candidate from 1; the etas that the candidates remove are exactly the
    non-empty subsequences of the names of the etas, the whole list among
    them, each once when the names are pairwise different. *)
Theorem no_of_etas_candidates names :
  length (brute_force_no_of_etas names) = 2 ^ length names - 1
  ∧ (∀ i model_name combo,
       brute_force_no_of_etas names !! i = Some (model_name, combo) →
       model_name = "iivsearch_no_of_etas_candidate" +:+ pretty (S i)
       ∧ combo ≠ [] ∧ combo `sublist_of` names)
  ∧ (∀ combo, combo ≠ [] → combo `sublist_of` names →
              combo ∈ (brute_force_no_of_etas names).*2)
  ∧ (NoDup names → NoDup (brute_force_no_of_etas names).*2).
Proof.
  assert (Hsnd : (brute_force_no_of_etas names).*2 = eta_combos names).
  { unfold brute_force_no_of_etas. rewrite fmap_imap. simpl.
    generalize (eta_combos names) as l. intros l.
    apply list_eq. intros i. rewrite list_lookup_imap. by destruct (l !! i). }
  split_and!.
  - unfold brute_force_no_of_etas. by rewrite length_imap, length_eta_combos.
  - intros i model_name combo Hi. unfold brute_force_no_of_etas in Hi.
    rewrite list_lookup_imap in Hi.
    destruct (eta_combos names !! i) as [c|] eqn:Hc; [|done].
    injection Hi as <- <-. split; [done|].
    apply elem_of_eta_combos. by eapply list_elem_of_lookup_2.
  - intros combo Hne Hsub. rewrite Hsnd. by apply elem_of_eta_combos.
  - intros Hnd. rewrite Hsnd. by apply NoDup_eta_combos.
Qed.

(** ** The combinations of blocks *)

Lemma length_remove_dups_le {A} `{EqDecision A} (l : list A) :
  length (remove_dups l) ≤ length l.
Proof.
  induction l as [|x l IH]; simpl; [done|]. case_decide; simpl; lia.
Qed.

Lemma remove_dups_length_NoDup {A} `{EqDecision A} (l : list A) :
  length (remove_dups l) = length l → NoDup l.
Proof.
  induction l as [|x l IH]; simpl; [constructor|].
  pose proof (length_remove_dups_le l). case_decide as Hx; simpl; [lia|].
  intros Hlen. constructor; [done|]. apply IH. lia.
Qed.

Lemma NoDup_remove_dups_id {A} `{EqDecision A} (l : list A) :
  NoDup l → remove_dups l = l.
Proof.
  induction 1 as [|x l Hx _ IH]; simpl; [done|]. case_decide; [done|].
  by rewrite IH.
Qed.

Lemma length_join_nonempty {A} (ls : list (list A)) :
  Forall (λ l, l ≠ []) ls → length ls ≤ length (mjoin ls).
Proof.
  induction 1 as [|l ls Hl _ IH]; simpl; [done|]. rewrite length_app.
  destruct l; [done|]. simpl. lia.
Qed.

Lemma blocks_of_eta_combos names combo :
  combo `sublist_of` eta_combos names →
  Forall (λ b, b ≠ [] ∧ b `sublist_of` names) combo.
Proof.
  intros Hsub. apply Forall_forall. intros b Hb. apply elem_of_eta_combos.
  by eapply sublist_subseteq.
Qed.

Lemma elem_of_block_combos names combo :
  NoDup names →
  combo ∈ block_combos names ↔
  combo ≠ [] ∧ combo `sublist_of` eta_combos names ∧ _flatten combo ≡ₚ names.
Proof.
  intros Hnd. unfold block_combos. rewrite list_elem_of_bind.
  setoid_rewrite list_elem_of_filter. setoid_rewrite elem_of_combinations.
  setoid_rewrite elem_of_seq. rewrite flatten_join. split.
  - intros (i & ([Hlen Hdistinct] & Hsub & Hi) & Hrange).
    split; [intros ->; simpl in Hi; lia|]. split; [done|].
    apply submseteq_length_Permutation; [|lia].
    apply NoDup_submseteq.
    + apply remove_dups_length_NoDup. lia.
    + intros x (b & Hx & Hb)%list_elem_of_join.
      pose proof (blocks_of_eta_combos names combo Hsub) as Hblocks.
      rewrite Forall_forall in Hblocks. destruct (Hblocks b Hb) as [_ Hbsub].
      by eapply sublist_subseteq.
  - intros (Hne & Hsub & Hperm). exists (length combo).
    assert (Hlen : length (mjoin combo) = length names) by by rewrite Hperm.
    split_and!; try done.
    + rewrite NoDup_remove_dups_id; [done|]. by rewrite Hperm.
    + destruct combo; [done | simpl; lia].
    + pose proof (length_join_nonempty combo) as Hle. rewrite <- Hlen.
      assert (length combo ≤ length (mjoin combo)); [|lia].
      apply Hle. eapply Forall_impl; [by apply blocks_of_eta_combos|].
      by intros b [? _].
Qed.

Lemma NoDup_block_combos names : NoDup names → NoDup (block_combos names).
Proof.
  intros Hnd. apply NoDup_bind.
  - intros i j c _ _ [_ [_ Hi]%elem_of_combinations]%list_elem_of_filter
      [_ [_ Hj]%elem_of_combinations]%list_elem_of_filter.
    congruence.
  - intros i _. apply NoDup_filter, NoDup_combinations. by apply NoDup_eta_combos.
  - apply NoDup_seq.
Qed.

(** X15: for etas with pairwise different names, the combinations of
    blocks that [_get_eta_combinations(etas, as_blocks=True)] returns are
    exactly the partitions of the etas: non-empty lists of blocks, each
    block a non-empty subsequence of the names, the blocks in the order of
    the combinations of etas, which together hold every eta once. No
    partition is returned twice. *)
Theorem block_combinations_are_partitions names combos :
  NoDup names →
  _get_eta_combinations names true = Blocks combos →
  NoDup combos
  ∧ ∀ combo,
      combo ∈ combos ↔
      combo ≠ [] ∧ combo `sublist_of` eta_combos names
      ∧ Forall (λ block, block ≠ [] ∧ block `sublist_of` names) combo
      ∧ _flatten combo ≡ₚ names.
Proof.
  intros Hnd [= <-]. split; [by apply NoDup_block_combos|].
  intros combo. rewrite elem_of_block_combos by done. split.
  - intros (Hne & Hsub & Hperm). split_and!; try done.
    by apply blocks_of_eta_combos.
  - intros (Hne & Hsub & _ & Hperm). done.
Qed.

(** ** The candidates of the block structure search *)

Lemma sublist_join_elem {A} (ls : list (list A)) d :
  d ∈ ls → d `sublist_of` mjoin ls.
Proof.
  induction ls as [|l ls IH]; [by intros ?%elem_of_nil|]. simpl.
  intros [->|Hd]%elem_of_cons.
  - by apply sublist_inserts_r.
  - by apply sublist_inserts_l, IH.
Qed.

Lemma NoDup_join_blocks {A} (ls : list (list A)) :
  NoDup (mjoin ls) → Forall (λ l, l ≠ []) ls → NoDup ls.
Proof.
  intros Hnd Hne. induction Hne as [|l ls Hl _ IH]; [constructor|].
  simpl in Hnd. apply NoDup_app in Hnd as (_ & Hdisj & Hnd).
  constructor; [|by apply IH].
  intros Hin. destruct l as [|x l]; [done|].
  apply (Hdisj x); [left|]. apply list_elem_of_join. exists (x :: l).
  split; [left | done].
Qed.

Lemma sublist_NoDup_Permutation_eq {A} (l l1 l2 : list A) :
  NoDup l → l1 `sublist_of` l → l2 `sublist_of` l → l1 ≡ₚ l2 → l1 = l2.
Proof.
  intros Hnd. revert l1 l2. induction Hnd as [|x l Hx _ IH]; intros l1 l2.
  - by intros ->%sublist_nil_r ->%sublist_nil_r.
  - intros [H1 | (l1' & -> & H1)]%sublist_cons_r [H2 | (l2' & -> & H2)]%sublist_cons_r
      Hperm.
    + by apply IH.
    + exfalso. apply Hx. eapply sublist_subseteq; [exact H1|].
      rewrite Hperm. left.
    + exfalso. apply Hx. eapply sublist_subseteq; [exact H2|].
      rewrite <- Hperm. left.
    + f_equal. apply IH; [done..|]. by apply (inj (x ::.)).
Qed.

Lemma is_current_block_structure_true distributions combos :
  _is_current_block_structure distributions combos = true ↔
  ∀ names, names ∈ distributions → names ∈ combos.
Proof.
  induction distributions as [|d ds IH]; simpl.
  - split; [by intros _ ? ?%elem_of_nil | done].
  - case_decide as Hd.
    + split; [done|]. intros Hall. destruct Hd. apply Hall. left.
    + rewrite IH. split.
      * intros Hall names [->|?]%elem_of_cons; [done | by apply Hall].
      * intros Hall names ?. apply Hall. by right.
Qed.

Lemma block_structure_loop_combos distributions combos model_no :
  (block_structure_loop distributions combos model_no).*2
  = filter (λ c, _is_current_block_structure distributions c ≠ true) combos.
Proof.
  revert model_no. induction combos as [|c combos IH]; intros model_no; [done|].
  simpl. destruct (_is_current_block_structure distributions c) eqn:Hc.
  - rewrite filter_cons_False by naive_solver. apply IH.
  - rewrite filter_cons_True by (by rewrite Hc). simpl. by rewrite IH.
Qed.

Lemma block_structure_loop_names distributions combos model_no :
  (block_structure_loop distributions combos model_no).*1
  = (λ i, "iivsearch_block_structure_candidate" +:+ pretty i)
      <$> seq model_no (length (block_structure_loop distributions combos model_no)).
Proof.
  revert model_no. induction combos as [|c combos IH]; intros model_no; [done|].
  simpl. destruct (_is_current_block_structure distributions c); [apply IH|].
  simpl. by rewrite IH.
Qed.

Lemma filter_ext_in {A} (P Q : A → Prop) `{∀ x, Decision (P x)} `{∀ x, Decision (Q x)}
    (l : list A) :
  (∀ x, x ∈ l → P x ↔ Q x) → filter P l = filter Q l.
Proof.
  induction l as [|x l IH]; intros Hext; [done|].
  assert (Hl : filter P l = filter Q l).
  { apply IH. intros y Hy. apply Hext. by right. }
  destruct (decide (P x)) as [HP|HP].
  - rewrite !filter_cons_True; [by rewrite Hl | | done]. apply Hext; [left | done].
  - rewrite !filter_cons_False; [done | | done]. intros HQ. apply HP, Hext; [left | done].
Qed.

Lemma filter_ne_absent {A} `{EqDecision A} (l : list A) x :
  x ∉ l → filter (λ y, y ≠ x) l = l.
Proof.
  induction l as [|y l IH]; [done|]. intros [Hxy Hx]%not_elem_of_cons.
  rewrite filter_cons_True by done. by rewrite IH.
Qed.

Lemma length_filter_ne {A} `{EqDecision A} (l : list A) x :
  NoDup l → x ∈ l → length (filter (λ y, y ≠ x) l) = length l - 1.
Proof.
  induction 1 as [|y l Hy Hnd IH]; [by intros ?%elem_of_nil|].
  intros [->|Hx]%elem_of_cons.
  - rewrite filter_cons_False by naive_solver. simpl.
    rewrite filter_ne_absent by done. lia.
  - rewrite filter_cons_True by (intros ->; done). simpl. rewrite IH by done.
    destruct l; [by apply elem_of_nil in Hx | simpl; lia].
Qed.

(** X16: let the etas have pairwise different names, listed distribution
    by distribution, every distribution with at least one eta. Then exactly
    one combination of blocks is the current block structure: the blocks of
    the distributions, in the order of the combinations of etas.
    [brute_force_block_structure] creates a candidate for every other
    partition of the etas and for none twice, and numbers the candidates
    from 1 without a gap. *)
Theorem block_structure_skips_current names distributions :
  NoDup names → names ≠ [] →
  _flatten distributions = names →
  Forall (λ rvs, rvs ≠ []) distributions →
  ∃ current,
    current ≡ₚ distributions
    ∧ current ∈ block_combos names
    ∧ (∀ combo, combo ∈ block_combos names →
         _is_current_block_structure distributions combo = true ↔ combo = current)
    ∧ (brute_force_block_structure names distributions).*2
      = filter (λ combo, combo ≠ current) (block_combos names)
    ∧ NoDup (brute_force_block_structure names distributions).*2
    ∧ (brute_force_block_structure names distributions).*1
      = (λ i, "iivsearch_block_structure_candidate" +:+ pretty i)
          <$> seq 1 (length (block_combos names) - 1).
Proof.
  intros Hnd Hnames Hflat Hne. rewrite flatten_join in Hflat.
  set (current := filter (λ b, b ∈ distributions) (eta_combos names)).
  assert (Hd_in : ∀ d, d ∈ distributions → d ∈ eta_combos names).
  { intros d Hd. apply elem_of_eta_combos. rewrite Forall_forall in Hne.
    split; [by apply Hne|]. rewrite <- Hflat. by apply sublist_join_elem. }
  assert (Hnd_d : NoDup distributions).
  { apply NoDup_join_blocks; [by rewrite Hflat | done]. }
  assert (Hnd_e : NoDup (eta_combos names)) by by apply NoDup_eta_combos.
  assert (Hperm : current ≡ₚ distributions).
  { apply NoDup_Permutation; [by apply NoDup_filter | done|].
    intros b. unfold current. rewrite list_elem_of_filter.
    split; [by intros [Hb _] | intros Hb; split; [done | by apply Hd_in]]. }
  assert (Hcur : current ∈ block_combos names).
  { apply elem_of_block_combos; [done|]. split_and!.
    - intros Hnil. rewrite Hnil in Hperm. apply Permutation_nil_l in Hperm.
      rewrite <- Hperm in Hflat. by rewrite <- Hflat in Hnames.
    - apply sublist_filter.
    - by rewrite flatten_join, Hperm, Hflat. }
  assert (Hiff : ∀ combo, combo ∈ block_combos names →
            _is_current_block_structure distributions combo = true ↔ combo = current).
  { intros combo (Hcne & Hsub & Hcperm)%elem_of_block_combos; [|done].
    rewrite is_current_block_structure_true. split.
    - intros Hall.
      apply (sublist_NoDup_Permutation_eq (eta_combos names));
        [done | done | apply sublist_filter|].
      rewrite Hperm.
      assert (Hms : distributions ⊆+ combo) by by apply NoDup_submseteq.
      symmetry. apply submseteq_length_Permutation; [done|].
      apply submseteq_Permutation in Hms as [k Hk].
      assert (Hk0 : length k ≤ length (mjoin k)).
      { apply length_join_nonempty, Forall_forall. intros b Hb.
        pose proof (blocks_of_eta_combos names combo Hsub) as Hblocks.
        rewrite Forall_forall in Hblocks. apply Hblocks. rewrite Hk.
        apply elem_of_app. by right. }
      rewrite flatten_join in Hcperm.
      assert (Hlen : length (mjoin combo) = length (mjoin distributions))
        by by rewrite Hcperm, Hflat.
      rewrite Hk, join_app, length_app in Hlen.
      rewrite Hk, length_app. lia.
    - intros -> d Hd. by rewrite Hperm. }
  exists current. split_and!; [done..| | |].
  - unfold brute_force_block_structure. rewrite block_structure_loop_combos.
    apply filter_ext_in. intros combo Hcombo. by rewrite (Hiff combo Hcombo).
  - unfold brute_force_block_structure. rewrite block_structure_loop_combos.
    by apply NoDup_filter, NoDup_block_combos.
  - unfold brute_force_block_structure. rewrite block_structure_loop_names.
    f_equal. f_equal.
    rewrite <- (length_fmap snd), block_structure_loop_combos.
    rewrite (filter_ext_in _ (λ combo, combo ≠ current)).
    + apply length_filter_ne; [by apply NoDup_block_combos | done].
    + intros combo Hcombo. by rewrite (Hiff combo Hcombo).
Qed.

(** ** Three etas *)

Definition example_names : list string := ["ETA(1)"; "ETA(2)"; "ETA(3)"].

(** The current structure: a block of the first two etas, and the third. *)
Definition example_distributions : list (list string) :=
  [["ETA(1)"; "ETA(2)"]; ["ETA(3)"]].

Example get_eta_combinations_example :
  _get_eta_combinations example_names false
  = Etas [["ETA(1)"]; ["ETA(2)"]; ["ETA(3)"];
          ["ETA(1)"; "ETA(2)"]; ["ETA(1)"; "ETA(3)"]; ["ETA(2)"; "ETA(3)"];
          ["ETA(1)"; "ETA(2)"; "ETA(3)"]]
  ∧ _get_eta_combinations example_names true
    = Blocks [[["ETA(1)"; "ETA(2)"; "ETA(3)"]];
              [["ETA(1)"]; ["ETA(2)"; "ETA(3)"]];
              [["ETA(2)"]; ["ETA(1)"; "ETA(3)"]];
              [["ETA(3)"]; ["ETA(1)"; "ETA(2)"]];
              [["ETA(1)"]; ["ETA(2)"]; ["ETA(3)"]]]
  ∧ brute_force_block_structure example_names example_distributions
    = [("iivsearch_block_structure_candidate1", [["ETA(1)"; "ETA(2)"; "ETA(3)"]]);
       ("iivsearch_block_structure_candidate2", [["ETA(1)"]; ["ETA(2)"; "ETA(3)"]]);
       ("iivsearch_block_structure_candidate3", [["ETA(2)"]; ["ETA(1)"; "ETA(3)"]]);
       ("iivsearch_block_structure_candidate4", [["ETA(1)"]; ["ETA(2)"]; ["ETA(3)"]])].
Proof. vm_compute. done. Qed.

Lemma example_names_nodup : NoDup example_names.
Proof. by apply (bool_decide_unpack _). Qed.

Lemma block_combinations_are_partitions_witness :
  NoDup (block_combos example_names)
  ∧ [["ETA(3)"]; ["ETA(1)"; "ETA(2)"]] ∈ block_combos example_names.
Proof.
  destruct (block_combinations_are_partitions example_names (block_combos example_names)
              example_names_nodup eq_refl) as [Hnd Hiff].
  split; [exact Hnd|]. apply Hiff. split_and!.
  - done.
  - vm_compute. repeat first [apply sublist_nil | apply sublist_skip | apply sublist_cons].
  - repeat constructor; try done.
  - vm_compute. apply (Permutation_cons_append [_; _]).
Defined.

Lemma block_structure_skips_current_witness :
  ∃ current,
    current ≡ₚ example_distributions
    ∧ length (brute_force_block_structure example_names example_distributions)
      = length (block_combos example_names) - 1
    ∧ current ∉ (brute_force_block_structure example_names example_distributions).*2.
Proof.
  destruct (block_structure_skips_current example_names example_distributions)
    as (current & Hperm & _ & _ & Hcombos & _ & Hnames);
    [apply example_names_nodup | done | reflexivity | by repeat constructor |].
  exists current. split_and!.
  - exact Hperm.
  - rewrite <- (length_fmap fst), Hnames, length_fmap, length_seq. done.
  - rewrite Hcombos. intros [Hne _]%list_elem_of_filter. done.
Defined.

End Iivsearch.

(* ===================================================================== *)
(** * The clean levels of a run directory *)
(* ===================================================================== *)

Module RunDirectory.

(** An entry of [_cleanlevels]: the empty list [list()] of a level that is
    not defined, or the dict [{'glob': ..., 'rm_dirs': ...}]. *)
Inductive CleanLevel :=
  | Undefined
  | Defined (glob : list string) (rm_dirs : bool).

(** The attribute [_cleanlevels] of a [RunDirectory]; [None] while it is
    not set. *)
Record RunDirectory := mkRunDirectory { _cleanlevels : option (list CleanLevel) }.

Inductive Error := IndexError.

(** The property [cleanlevels]: the levels, and the object after the
    access, which sets the attribute to [[[]]] when it was missing. *)
Definition cleanlevels (self : RunDirectory) : list CleanLevel * RunDirectory :=
  match _cleanlevels self with
  | Some levels => (levels, self)
  | None => ([Undefined], mkRunDirectory (Some [Undefined]))
  end.

(** [l[i] = v] with Python's indices: from the end when negative,
    [IndexError] ([None]) outside [-len(l) <= i < len(l)]. *)
Definition setitem {A} (l : list A) (i : Z) (v : A) : option (list A) :=
  let n := Z.of_nat (length l) in
  if bool_decide (0 ≤ i < n)%Z then Some (<[Z.to_nat i := v]> l)
  else if bool_decide (- n ≤ i < 0)%Z then Some (<[Z.to_nat (n + i) := v]> l)
  else None.

(** [def_cleanlevel]; [range(k)] is empty for [k <= 0]. *)
Definition def_cleanlevel (self : RunDirectory) (level : Z) (patterns : list string)
    (rm_dirs : bool) : Error + RunDirectory :=
  let '(levels, self) := cleanlevels self in
  let nglobs := Z.of_nat (length levels) in
  let levels :=
    if bool_decide (nglobs ≤ level)%Z
    then levels ++ replicate (Z.to_nat (1 + nglobs - level)) Undefined
    else levels in
  match setitem levels level (Defined patterns rm_dirs) with
  | None => inl IndexError
  | Some levels => inr (mkRunDirectory (Some levels))
  end.

(** [len(self.cleanlevels)] *)
Definition levels_count (self : RunDirectory) : Z :=
  Z.of_nat (length (cleanlevels self).1).

Lemma Z2Nat_inj_neg_or_zero (z : Z) : (z ≤ 0)%Z → Z.to_nat z = 0.
Proof. lia. Qed.

(** X17: with [n] clean levels so far (one, the undefined level 0, in a
    fresh directory), [def_cleanlevel(level, ...)] raises [IndexError] for
    every [level > n] (and [level < -n]): the list is extended by
    [1 + n - level] entries, which is one entry for [level = n] and none
    beyond. For [0 <= level <= n] it defines that level, keeps every other
    one, and the list has [max n (level + 1)] entries; a negative level
    from [-n] on redefines the level counted from the end. *)
Theorem def_cleanlevel_range (self : RunDirectory) (level : Z) patterns rm_dirs :
  ((levels_count self < level ∨ level < - levels_count self)%Z →
   def_cleanlevel self level patterns rm_dirs = inl IndexError)
  ∧ ((0 ≤ level ≤ levels_count self)%Z →
     ∃ levels',
       def_cleanlevel self level patterns rm_dirs = inr (mkRunDirectory (Some levels'))
       ∧ length levels' = length (cleanlevels self).1 `max` S (Z.to_nat level)
       ∧ levels' !! Z.to_nat level = Some (Defined patterns rm_dirs)
       ∧ ∀ j, j ≠ Z.to_nat level → j < length (cleanlevels self).1 →
              levels' !! j = (cleanlevels self).1 !! j)
  ∧ ((- levels_count self ≤ level < 0)%Z →
     def_cleanlevel self level patterns rm_dirs
     = inr (mkRunDirectory
              (Some (<[Z.to_nat (levels_count self + level)
                       := Defined patterns rm_dirs]> (cleanlevels self).1)))).
Proof.
  unfold def_cleanlevel, levels_count.
  destruct (cleanlevels self) as [levels self'] eqn:Hlevels. simpl. split_and!.
  - intros [Hhigh|Hlow].
    + rewrite bool_decide_eq_true_2 by lia.
      rewrite (Z2Nat_inj_neg_or_zero (1 + Z.of_nat (length levels) - level)) by lia.
      simpl. rewrite app_nil_r. unfold setitem.
      by rewrite !bool_decide_eq_false_2 by lia.
    + rewrite bool_decide_eq_false_2 by lia. unfold setitem.
      by rewrite !bool_decide_eq_false_2 by lia.
  - intros Hin.
    destruct (decide (level = Z.of_nat (length levels))) as [->|Hlt].
    + rewrite bool_decide_eq_true_2 by lia.
      replace (Z.to_nat (1 + Z.of_nat (length levels) - Z.of_nat (length levels)))
        with 1 by lia.
      simpl. unfold setitem. rewrite length_app. simpl.
      rewrite bool_decide_eq_true_2 by lia. rewrite Nat2Z.id.
      eexists. split; [done|]. split_and!.
      * rewrite length_insert, length_app. simpl. lia.
      * apply list_lookup_insert_eq. rewrite length_app. simpl. lia.
      * intros j Hj Hjlt. rewrite list_lookup_insert_ne by done.
        by apply lookup_app_l.
    + rewrite bool_decide_eq_false_2 by lia. unfold setitem.
      rewrite bool_decide_eq_true_2 by lia.
      eexists. split; [done|]. split_and!.
      * rewrite length_insert. lia.
      * apply list_lookup_insert_eq. lia.
      * intros j Hj _. by rewrite list_lookup_insert_ne.
  - intros Hneg. rewrite bool_decide_eq_false_2 by lia. unfold setitem.
    rewrite bool_decide_eq_false_2 by lia. by rewrite bool_decide_eq_true_2 by lia.
Qed.

(** A fresh directory, and the call of the module's own example. *)
Definition fresh : RunDirectory := mkRunDirectory None.

Example def_cleanlevel_example :
  def_cleanlevel fresh 1 ["*.txt"; "remove*"] false
  = inr (mkRunDirectory (Some [Undefined; Defined ["*.txt"; "remove*"] false]))
  ∧ def_cleanlevel fresh 2 ["*.txt"] false = inl IndexError.
Proof. split; reflexivity. Qed.

End RunDirectory.

(* ===================================================================== *)
(** * nlmixr: random variables that share a variance *)
(* ===================================================================== *)

Module NlmixrSanityChecks.

(** A random variable: its names [rv.names] and the symbol of its variance
    [rv.variance], a symbol being its name. *)
Record RandomVariable := mkRV { names : list string; variance : string }.

(** [model.random_variables]: the epsilons and the etas. *)
Record RandomVariables := mkRVs {
  epsilons : list RandomVariable;
  etas : list RandomVariable
}.

Inductive Error := UnboundLocalError.

(** [if sigma: rvs = ...epsilons elif omega: rvs = ...etas]; with neither
    flag the name [rvs] is not bound. *)
Definition selected_rvs (random_variables : RandomVariables) (sigma omega : bool)
  : option (list RandomVariable) :=
  if sigma then Some (epsilons random_variables)
  else if omega then Some (etas random_variables)
  else None.

(** The loop of [rvs_same]. *)
Fixpoint rvs_same_loop (rvs : list RandomVariable) (checked_variance : list string)
  : bool :=
  match rvs with
  | [] => false
  | rv :: rest =>
      let var := variance rv in
      if decide (var ∈ checked_variance) then true
      else rvs_same_loop rest (checked_variance ++ [var])
  end.

Definition rvs_same (random_variables : RandomVariables) (sigma omega : bool)
  : Error + bool :=
  match selected_rvs random_variables sigma omega with
  | None => inl UnboundLocalError
  | Some rvs => inr (rvs_same_loop rvs [])
  end.

(** [sympy.Symbol(var.name + "_" + f'{n}')] *)
Definition new_symbol (name : string) (n : nat) : string :=
  name +:+ "_" +:+ pretty n.

(** The [while] loop of [change_rvs_same], entered with [n]; the fuel
    bounds the number of symbols tried. *)
Fixpoint new_variance (fuel : nat) (name : string) (n : nat)
    (checked_variance : list string) : option string :=
  match fuel with
  | 0 => None
  | S fuel =>
      let new_var := new_symbol name n in
      if decide (new_var ∈ checked_variance)
      then new_variance fuel name (S n) checked_variance
      else Some new_var
  end.

(** [d[k] = v] on a dict kept in insertion order. *)
Fixpoint dict_set {K V} `{EqDecision K} (d : list (K * V)) (k : K) (v : V)
  : list (K * V) :=
  match d with
  | [] => [(k, v)]
  | (k', v') :: d' =>
      if decide (k' = k) then (k, v) :: d' else (k', v') :: dict_set d' k v
  end.

(** The local variables of [change_rvs_same]. *)
Record Locals := mkLocals {
  checked_variance : list string;
  var_to_add : list (string * string);
  rvs_and_var : list (list string * string)
}.

(** The first loop of [change_rvs_same] (what it prints is left out).
    [None] when the fuel of a [while] loop runs out. *)
Fixpoint change_rvs_same_loop (fuel : nat) (rvs : list RandomVariable) (l : Locals)
  : option Locals :=
  match rvs with
  | [] => Some l
  | rv :: rest =>
      let var := variance rv in
      if decide (var ∈ checked_variance l) then
        match new_variance fuel var 1 (checked_variance l) with
        | None => None
        | Some new_var =>
            change_rvs_same_loop fuel rest
              (mkLocals (checked_variance l ++ [new_var])
                 (dict_set (var_to_add l) new_var var)
                 (dict_set (rvs_and_var l) (names rv) new_var))
        end
      else
        change_rvs_same_loop fuel rest
          (mkLocals (checked_variance l ++ [var]) (var_to_add l) (rvs_and_var l))
  end.

(** ** [rvs_same] *)

Lemma rvs_same_loop_true rvs checked :
  NoDup checked →
  rvs_same_loop rvs checked = true ↔ ¬ NoDup (checked ++ (variance <$> rvs)).
Proof.
  revert checked. induction rvs as [|rv rvs IH]; intros checked Hnd; simpl.
  - rewrite app_nil_r. split; [done | by intros []].
  - case_decide as Hin.
    + split; [|done]. intros _ [_ [Hdisj _]]%NoDup_app.
      apply (Hdisj (variance rv)); [done | left].
    + rewrite IH, <- app_assoc; [done|].
      apply NoDup_app. split_and!; [done | | apply NoDup_singleton].
      by intros x Hx ->%list_elem_of_singleton.
Qed.

(** X18: [rvs_same] answers [True] exactly when two of the random
    variables it looks at (the epsilons with [sigma], otherwise the etas
    with [omega]) have the same variance symbol; with neither flag it
    raises [UnboundLocalError]. *)
Theorem rvs_same_detects_shared_variance random_variables omega :
  rvs_same random_variables true omega
  = inr (negb (bool_decide (NoDup (variance <$> epsilons random_variables))))
  ∧ rvs_same random_variables false true
    = inr (negb (bool_decide (NoDup (variance <$> etas random_variables))))
  ∧ rvs_same random_variables false false = inl UnboundLocalError.
Proof.
  assert (H : ∀ rvs, rvs_same_loop rvs []
                     = negb (bool_decide (NoDup (variance <$> rvs)))).
  { intros rvs. pose proof (rvs_same_loop_true rvs [] NoDup_nil_2) as Hiff.
    simpl in Hiff. destruct (rvs_same_loop rvs []).
    - rewrite bool_decide_eq_false_2; [done|]. by apply Hiff.
    - rewrite bool_decide_eq_true_2; [done|].
      destruct (decide (NoDup (variance <$> rvs))) as [|Hno]; [done|].
      by apply Hiff in Hno. }
  unfold rvs_same. simpl. by rewrite !H.
Qed.

(** ** The new variance symbols of [change_rvs_same] *)

Lemma new_symbol_inj name : Inj (=) (=) (new_symbol name).
Proof.
  intros a b Hab. unfold new_symbol in Hab.
  apply (inj (String.app _)), (inj (String.app _)) in Hab. by apply (inj pretty).
Qed.

Lemma new_variance_finds fuel name n0 n checked :
  n0 ≤ n →
  (∀ m, n0 ≤ m < n → new_symbol name m ∈ checked) →
  length checked < fuel + (n - n0) →
  ∃ k, n ≤ k
       ∧ new_variance fuel name n checked = Some (new_symbol name k)
       ∧ (new_symbol name k ∉ checked)
       ∧ ∀ m, n0 ≤ m < k → new_symbol name m ∈ checked.
Proof.
  revert n. induction fuel as [|fuel IH]; intros n Hn Hused Hlen.
  - exfalso.
    assert (Hle : length (new_symbol name <$> seq n0 (n - n0)) ≤ length checked).
    { apply submseteq_length, NoDup_submseteq.
      - apply (NoDup_fmap_2 _), NoDup_seq.
      - intros x [m [-> Hm%elem_of_seq]]%list_elem_of_fmap. apply Hused. lia. }
    rewrite length_fmap, length_seq in Hle. lia.
  - simpl. case_decide as Hin.
    + destruct (IH (S n)) as (k & Hk & Hsome & Hfree & Hbelow); [lia | | lia |].
      { intros m Hm. destruct (decide (m = n)) as [->|]; [done|]. apply Hused. lia. }
      exists k. split_and!; [lia | done..].
    + exists n. done.
Qed.

(** What the loop leaves for the variable [rv] when [checked] are the
    symbols of the variables before it. *)
Definition renamed (checked : list string) (rv : RandomVariable) (v : string) : Prop :=
  ((variance rv ∉ checked) ∧ v = variance rv)
  ∨ (variance rv ∈ checked
     ∧ ∃ n, 1 ≤ n ∧ v = new_symbol (variance rv) n
            ∧ ∀ m, 1 ≤ m < n → new_symbol (variance rv) m ∈ checked).

Lemma dict_set_fresh {K V} `{EqDecision K} (d : list (K * V)) k v :
  k ∉ d.*1 → dict_set d k v = d ++ [(k, v)].
Proof.
  induction d as [|[k' v'] d IH]; simpl; [done|].
  intros [Hne Hk]%not_elem_of_cons. rewrite decide_False by done. by rewrite IH.
Qed.

Lemma change_rvs_same_loop_inv fuel rvs l :
  NoDup (checked_variance l) →
  (∀ k, k ∈ (var_to_add l).*1 → k ∈ checked_variance l) →
  length (checked_variance l) + length rvs ≤ fuel →
  ∃ l' news added,
    change_rvs_same_loop fuel rvs l = Some l'
    ∧ checked_variance l' = checked_variance l ++ news
    ∧ length news = length rvs
    ∧ NoDup (checked_variance l')
    ∧ (∀ i rv v, rvs !! i = Some rv → news !! i = Some v →
                 renamed (checked_variance l ++ take i news) rv v)
    ∧ var_to_add l' = var_to_add l ++ added
    ∧ (∀ new old,
         (new, old) ∈ added ↔
         ∃ i rv, rvs !! i = Some rv ∧ news !! i = Some new
                 ∧ old = variance rv
                 ∧ variance rv ∈ checked_variance l ++ take i news).
Proof.
  revert l. induction rvs as [|rv rvs IH]; intros l Hnd Hkeys Hfuel; simpl.
  - exists l, [], []. rewrite !app_nil_r. split_and!; try done.
    intros new old. split; [by intros ?%elem_of_nil | by intros (i & rv' & ? & _)].
  - simpl in Hfuel. case_decide as Hin.
    + destruct (new_variance_finds fuel (variance rv) 1 1 (checked_variance l))
        as (n & Hn & -> & Hfree & Hbelow); [lia | intros m; lia | lia |].
      set (new_var := new_symbol (variance rv) n) in *.
      rewrite dict_set_fresh by (intros Hk; by apply Hfree, Hkeys).
      destruct (IH (mkLocals (checked_variance l ++ [new_var])
                      (var_to_add l ++ [(new_var, variance rv)])
                      (dict_set (rvs_and_var l) (names rv) new_var)))
        as (l' & news & added & Hrun & Hchecked & Hlen & Hnd' & Hren & Hadd & Hadded);
        simpl.
      { apply NoDup_app. split_and!; [done | | apply NoDup_singleton].
        by intros x Hx ->%list_elem_of_singleton. }
      { intros k. rewrite fmap_app, !elem_of_app. simpl.
        intros [Hk | ->%list_elem_of_singleton]; [left; by apply Hkeys | right; left]. }
      { rewrite length_app. simpl. lia. }
      simpl in *.
      exists l', (new_var :: news), ((new_var, variance rv) :: added).
      split_and!.
      { done. }
      { by rewrite Hchecked, <- app_assoc. }
      { simpl. by rewrite Hlen. }
      { done. }
      2:{ by rewrite Hadd, <- app_assoc. }
      * intros [|i] rv' v; simpl.
        -- intros [= <-] [= <-]. rewrite app_nil_r. right. split; [done|].
           exists n. split_and!; [done..|]. intros m Hm. apply Hbelow. lia.
        -- intros Hrv Hv. specialize (Hren i rv' v Hrv Hv).
           by rewrite <- app_assoc in Hren.
      * intros new old. rewrite elem_of_cons, Hadded. split.
        -- intros [[= -> ->] | (i & rv' & Hrv & Hv & -> & Hvar)].
           ++ exists 0, rv. simpl. rewrite app_nil_r. done.
           ++ exists (S i), rv'. simpl. rewrite <- app_assoc in Hvar. done.
        -- intros ([|i] & rv' & Hrv & Hv & -> & Hvar); simpl in *.
           ++ injection Hrv as <-. injection Hv as <-. by left.
           ++ right. exists i, rv'. rewrite <- app_assoc. done.
    + destruct (IH (mkLocals (checked_variance l ++ [variance rv])
                      (var_to_add l) (rvs_and_var l)))
        as (l' & news & added & Hrun & Hchecked & Hlen & Hnd' & Hren & Hadd & Hadded);
        simpl.
      { apply NoDup_app. split_and!; [done | | apply NoDup_singleton].
        by intros x Hx ->%list_elem_of_singleton. }
      { intros k Hk. apply elem_of_app. left. by apply Hkeys. }
      { rewrite length_app. simpl. lia. }
      simpl in *.
      exists l', (variance rv :: news), added.
      split_and!.
      { done. }
      { by rewrite Hchecked, <- app_assoc. }
      { simpl. by rewrite Hlen. }
      { done. }
      2:{ done. }
      * intros [|i] rv' v; simpl.
        -- intros [= <-] [= <-]. rewrite app_nil_r. by left.
        -- intros Hrv Hv. specialize (Hren i rv' v Hrv Hv).
           by rewrite <- app_assoc in Hren.
      * intros new old. rewrite Hadded. split.
        -- intros (i & rv' & Hrv & Hv & -> & Hvar).
           exists (S i), rv'. simpl. rewrite <- app_assoc in Hvar. done.
        -- intros ([|i] & rv' & Hrv & Hv & -> & Hvar); simpl in *.
           ++ injection Hrv as <-. rewrite app_nil_r in Hvar. done.
           ++ exists i, rv'. rewrite <- app_assoc. done.
Qed.

(** X19: the first loop of [change_rvs_same] ends (as many tries of the
    [while] loop as there are random variables suffice) and leaves in
    [checked_variance] one symbol per random variable, no two the same: a
    variable whose variance is not among the symbols before it keeps it,
    any other gets the variance name with "_n" for the least [n >= 1] not
    among the symbols before it, and [var_to_add] maps exactly these new
    symbols to the variances they replace. On random variables that carry
    these symbols as variances, in any order, [rvs_same] finds nothing. *)
Theorem change_rvs_same_distinct_variances fuel rvs :
  length rvs ≤ fuel →
  ∃ l,
    change_rvs_same_loop fuel rvs (mkLocals [] [] []) = Some l
    ∧ length (checked_variance l) = length rvs
    ∧ NoDup (checked_variance l)
    ∧ (∀ i rv v,
         rvs !! i = Some rv → checked_variance l !! i = Some v →
         ((variance rv ∉ take i (checked_variance l)) ∧ v = variance rv)
         ∨ (variance rv ∈ take i (checked_variance l)
            ∧ ∃ n, 1 ≤ n ∧ v = new_symbol (variance rv) n
                   ∧ ∀ m, 1 ≤ m < n →
                          new_symbol (variance rv) m ∈ take i (checked_variance l)))
    ∧ (∀ new old,
         (new, old) ∈ var_to_add l ↔
         ∃ i rv, rvs !! i = Some rv ∧ checked_variance l !! i = Some new
                 ∧ old = variance rv
                 ∧ variance rv ∈ take i (checked_variance l))
    ∧ (∀ rvs', variance <$> rvs' ≡ₚ checked_variance l →
               rvs_same_loop rvs' [] = false).
Proof.
  intros Hfuel.
  destruct (change_rvs_same_loop_inv fuel rvs (mkLocals [] [] []))
    as (l & news & added & Hrun & Hchecked & Hlen & Hnd & Hren & Hadd & Hadded);
    simpl; [constructor | by intros k ?%elem_of_nil | done |].
  simpl in *. subst news. exists l. split_and!; try done.
  - intros new old. rewrite Hadd. apply Hadded.
  - intros rvs' Hperm. destruct (rvs_same_loop rvs' []) eqn:Hsame; [|done].
    apply rvs_same_loop_true in Hsame; [|constructor]. simpl in Hsame.
    by rewrite Hperm in Hsame.
Qed.

(** ** Three epsilons on one sigma *)

Definition example_rvs : list RandomVariable :=
  [mkRV ["EPS(1)"] "SIGMA(1,1)"; mkRV ["EPS(2)"] "SIGMA(1,1)";
   mkRV ["EPS(3)"] "SIGMA(1,1)"].

Example change_rvs_same_example :
  rvs_same (mkRVs example_rvs []) true false = inr true
  ∧ change_rvs_same_loop 3 example_rvs (mkLocals [] [] [])
    = Some (mkLocals ["SIGMA(1,1)"; "SIGMA(1,1)_1"; "SIGMA(1,1)_2"]
              [("SIGMA(1,1)_1", "SIGMA(1,1)"); ("SIGMA(1,1)_2", "SIGMA(1,1)")]
              [(["EPS(2)"], "SIGMA(1,1)_1"); (["EPS(3)"], "SIGMA(1,1)_2")]).
Proof. vm_compute. done. Qed.

Lemma change_rvs_same_distinct_variances_witness :
  ∃ l,
    change_rvs_same_loop 3 example_rvs (mkLocals [] [] []) = Some l
    ∧ NoDup (checked_variance l)
    ∧ ∀ rvs', variance <$> rvs' ≡ₚ checked_variance l →
              rvs_same_loop rvs' [] = false.
Proof.
  destruct (change_rvs_same_distinct_variances 3 example_rvs)
    as (l & Hrun & _ & Hnd & _ & _ & Hsame); [simpl; lia|].
  exists l. split_and!; [exact Hrun | exact Hnd | exact Hsame].
Defined.

End NlmixrSanityChecks.
